(** * CairoSVG parser: the document tree builder of [cairosvg/parser.py]

    A shallow embedding of the functions of [parser.py] and the properties
    the specification states about them.

    Strings.  A Python [str] is modelled by [string]; a character is a code
    point below 256, so that [ascii] is read as Latin-1, and a statement
    about every string is one about every string of such code points.  [str.lower],
    [str.strip] and the classes [\s], [\d], [\w] and [.] of the [re] module
    are given on that range as Python defines them.

    Dictionaries.  A [Node] is a [dict] from attribute names to values; its
    entries are modelled by a [gmap string string].

    Nodes.  [Node.__init__] is [Node_init]: the cascade and the two
    replacements ([node_attributes]), then the children.  The text reflow
    of [text_children], with the loads of text references it makes, is
    taken as a collaborator, as are the functions of the modules [css],
    [features], [url] and of the XML and gzip libraries.  [Tree] is a call
    of the class: [Tree_new], then [Tree_init] when the cache gave
    nothing; it logs the steps of the load and returns the cache as the
    load leaves it.

    Regular expressions.  The patterns of [parser.py] are written as terms
    of [Re.regex] and run by a backtracking matcher with the priorities of
    Python's [re] (leftmost, greedy or lazy as written, alternatives in
    order), together with the scanning rule that [finditer] and [sub]
    share. *)

From Stdlib Require Import Ascii String List Arith Lia Bool.
From stdpp Require Import gmap strings list fin_maps.
Import ListNotations.

#[local] Set Warnings "-register-all,-clear-no-such-hyp".

(** ** Characters and strings as Python sees them *)

Module PyStr.

Definition code (c : ascii) : nat := nat_of_ascii c.

Definition LF : ascii := ascii_of_nat 10.
Definition CR : ascii := ascii_of_nat 13.
Definition TAB : ascii := ascii_of_nat 9.
Definition SP : ascii := ascii_of_nat 32.

Definition in_range (lo hi : nat) (c : ascii) : bool :=
  (lo <=? code c) && (code c <=? hi).

(** [str.isspace] on one character, which is also the class [\s] of a
    [str] pattern: TAB..CR, FS..US, space, NEL and NBSP. *)
Definition isspace (c : ascii) : bool :=
  in_range 9 13 c || in_range 28 32 c
  || (code c =? 133) || (code c =? 160).

(** [str.lower] on one character of the range: A-Z and the Latin-1
    capitals (U+00C0..U+00DE without the multiplication sign) move up by
    32.  On the range the lowercase of a string has the length of the
    string.  Beyond it, where the model does not go, [str.lower] can give
    two code points for one (U+0130), so what is proved of lowering is
    proved of strings of code points below 256 and of no other. *)
Definition lower_char (c : ascii) : ascii :=
  if in_range 65 90 c
     || (in_range 192 222 c && negb (code c =? 215))
  then ascii_of_nat (code c + 32) else c.

(** The class [\d]: decimal digits. *)
Definition isdigit (c : ascii) : bool := in_range 48 57 c.

(** The class [\w]: alphanumeric characters and the underscore. *)
Definition isword (c : ascii) : bool :=
  in_range 48 57 c || in_range 65 90 c || in_range 97 122 c
  || (code c =? 95)
  || (code c =? 170) || (code c =? 181) || (code c =? 186)
  || (code c =? 178) || (code c =? 179) || (code c =? 185)
  || in_range 188 190 c
  || (in_range 192 255 c && negb (code c =? 215) && negb (code c =? 247)).

Definition chars (s : string) : list ascii := list_ascii_of_string s.
Definition str (l : list ascii) : string := string_of_list_ascii l.

Definition lower_chars (l : list ascii) : list ascii := map lower_char l.

Definition lower (s : string) : string := str (lower_chars (chars s)).

Fixpoint lstrip_chars (l : list ascii) : list ascii :=
  match l with
  | c :: l' => if isspace c then lstrip_chars l' else l
  | [] => []
  end.

Definition rstrip_chars (l : list ascii) : list ascii :=
  rev (lstrip_chars (rev l)).

Definition strip_chars (l : list ascii) : list ascii :=
  rstrip_chars (lstrip_chars l).

(** [str.strip()] *)
Definition strip (s : string) : string := str (strip_chars (chars s)).

(** [s[i:j]] for [0 <= i], [0 <= j]: out-of-range bounds are clamped. *)
Definition slice {A} (i j : nat) (l : list A) : list A :=
  firstn (j - i) (skipn i l).

End PyStr.

Import PyStr.

(** ** The part of the [re] module that [parser.py] uses *)

Module Re.

Inductive regex : Type :=
| Chr (p : ascii -> bool)          (* one character of a class *)
| Bol                              (* ^ without MULTILINE *)
| Eol                              (* $ without MULTILINE *)
| Seq (r1 r2 : regex)
| Alt (r1 r2 : regex)
| Star (greedy : bool) (r : regex) (* r* and r*? *)
| Group (n : nat) (r : regex).     (* capturing group number n *)

(** The spans of the capturing groups matched so far, most recent first. *)
Definition groups := list (nat * (nat * nat)).

Fixpoint group_span (n : nat) (g : groups) : option (nat * nat) :=
  match g with
  | [] => None
  | (m, sp) :: g' => if n =? m then Some sp else group_span n g'
  end.

Record MatchObj : Type := mkMatch {
  m_start : nat;
  m_end : nat;
  m_groups : groups
}.

Definition or_else {A} (x y : option A) : option A :=
  match x with Some _ => x | None => y end.

Definition cont (A : Type) : Type :=
  nat -> list ascii -> groups -> option A.

(** The iterations of a star whose body is matched by [body]: at most
    [n] more of them.  A greedy star tries one more iteration before it
    goes on with [k], a lazy one goes on with [k] first.  An iteration
    that consumes nothing is not repeated. *)
Fixpoint star_loop {A}
    (body : nat -> list ascii -> groups -> cont A -> option A)
    (greedy : bool) (k : cont A) (n : nat) (i : nat) (s : list ascii)
    (g : groups) : option A :=
  match n with
  | 0 => k i s g
  | S n' =>
      let again :=
        body i s g (fun i' s' g' =>
          if i <? i' then star_loop body greedy k n' i' s' g' else None) in
      if greedy then or_else again (k i s g) else or_else (k i s g) again
  end.

(** [rmatch r i s g k]: match [r] at position [i], where [s] is the rest
    of the subject from [i] on, then go on with [k]; the first success
    in priority order is the result.  A star makes at most [length s]
    iterations, all it can make when each consumes a character. *)
Fixpoint rmatch {A} (r : regex) (i : nat) (s : list ascii) (g : groups)
    (k : cont A) {struct r} : option A :=
  match r with
  | Chr p =>
      match s with
      | c :: s' => if p c then k (S i) s' g else None
      | [] => None
      end
  | Bol => if i =? 0 then k i s g else None
  | Eol =>
      match s with
      | [] => k i s g
      | [c] => if Ascii.eqb c LF then k i s g else None
      | _ => None
      end
  | Seq r1 r2 =>
      rmatch r1 i s g (fun i' s' g' => rmatch r2 i' s' g' k)
  | Alt r1 r2 => or_else (rmatch r1 i s g k) (rmatch r2 i s g k)
  | Star greedy r' =>
      star_loop (fun i' s' g' k' => rmatch r' i' s' g' k') greedy k
        (length s) i s g
  | Group n r' =>
      rmatch r' i s g (fun i' s' g' => k i' s' ((n, (i, i')) :: g'))
  end.

(** One attempt at position [i].  With [must_advance] an empty match at
    [i] is refused and the matcher backtracks for another one. *)
Definition match_at (r : regex) (must_advance : bool) (i : nat)
    (s : list ascii) : option MatchObj :=
  rmatch r i s []
    (fun j _ g =>
       if must_advance && (j =? i) then None else Some (mkMatch i j g)).

(** The search of the scanner: the attempt at the start position, then
    every later position up to the end of the subject. *)
Fixpoint search (r : regex) (must_advance : bool) (i : nat)
    (s : list ascii) : option MatchObj :=
  match match_at r must_advance i s with
  | Some m => Some m
  | None =>
      match s with
      | [] => None
      | _ :: s' => search r false (S i) s'
      end
  end.

(** The successive matches: after a match the scan resumes at its end,
    and an empty match forbids another empty match at that position. *)
Fixpoint scan (fuel : nat) (r : regex) (must_advance : bool) (i : nat)
    (s : list ascii) : list MatchObj :=
  match fuel with
  | 0 => []
  | S fuel' =>
      match search r must_advance i s with
      | None => []
      | Some m =>
          m :: scan fuel' r (m_end m =? m_start m) (m_end m)
                 (skipn (m_end m - i) s)
      end
  end.

(** [pattern.finditer(string)].  Every step of the scan either moves
    forward or turns [must_advance] on, hence the bound. *)
Definition finditer (r : regex) (s : list ascii) : list MatchObj :=
  scan (2 * length s + 2) r false 0 s.

(** [match.group()] and [match.group(n)] on the subject [s]. *)
Definition group0 (s : list ascii) (m : MatchObj) : list ascii :=
  slice (m_start m) (m_end m) s.

Definition group (n : nat) (s : list ascii) (m : MatchObj) : list ascii :=
  match group_span n (m_groups m) with
  | Some (a, b) => slice a b s
  | None => []
  end.

(** The result of [sub]: the text between the matches, each match
    replaced by [repl m]. *)
Fixpoint sub_pieces (repl : MatchObj -> list ascii) (s : list ascii)
    (i : nat) (ms : list MatchObj) : list ascii :=
  match ms with
  | [] => skipn i s
  | m :: ms' =>
      slice i (m_start m) s ++ repl m ++ sub_pieces repl s (m_end m) ms'
  end.

(** [re.sub(pattern, repl, string)] with a function [repl]. *)
Definition sub_with (r : regex) (repl : MatchObj -> list ascii)
    (s : list ascii) : list ascii :=
  sub_pieces repl s 0 (finditer r s).

(** [re.sub(pattern, repl, string)] with a literal [repl]. *)
Definition sub (r : regex) (repl : list ascii) (s : list ascii)
    : list ascii :=
  sub_with r (fun _ => repl) s.

(** Building blocks of patterns. *)
Definition lit (c : ascii) : regex := Chr (Ascii.eqb c).
Definition lit_nocase (c : ascii) : regex :=
  Chr (fun x => Ascii.eqb (lower_char x) (lower_char c)).
Definition not_lit (c : ascii) : regex := Chr (fun x => negb (Ascii.eqb x c)).
Definition dot : regex := not_lit LF.
Definition space : regex := Chr isspace.
Definition plus (r : regex) : regex := Seq r (Star true r).

End Re.

(** ** Whitespace handling and style normalisation *)

Definition is_nl_cr_tab (c : ascii) : bool :=
  Ascii.eqb c LF || Ascii.eqb c CR || Ascii.eqb c TAB.

Definition is_nl_cr (c : ascii) : bool := Ascii.eqb c LF || Ascii.eqb c CR.

(** [handle_white_spaces(string, preserve)]; [None] is Python's [None],
    which an element without text has. *)
Definition handle_white_spaces (string : option string) (preserve : bool)
    : String.string :=
  match string with
  | None => EmptyString
  | Some EmptyString => EmptyString
  | Some s =>
      if preserve then
        str (Re.sub (Re.Chr is_nl_cr_tab) [SP] (chars s))
      else
        let s1 := Re.sub (Re.Chr is_nl_cr) [] (chars s) in
        let s2 := Re.sub (Re.lit TAB) [SP] s1 in
        str (Re.sub (Re.plus (Re.lit SP)) [SP] s2)
  end.

(** [normalize_noop_style_declaration] *)
Definition normalize_noop_style_declaration (value : string) : string :=
  value.

Definition QUOTE : ascii := ascii_of_nat 34.
Definition APOS : ascii := ascii_of_nat 39.
Definition BACKSLASH : ascii := ascii_of_nat 92.
Definition LPAREN : ascii := ascii_of_nat 40.
Definition RPAREN : ascii := ascii_of_nat 41.
Definition COMMA : ascii := ascii_of_nat 44.

(** The body of a quoted or bare URL: any run of escaped characters
    (a backslash and one more character) and of characters other than
    the closing one, [(?:\\.|[^q])*]. *)
Definition url_body (q : ascii) : Re.regex :=
  Re.Star true (Re.Alt (Re.Seq (Re.lit BACKSLASH) Re.dot) (Re.not_lit q)).

(** The notation [url\(\s*(?:Q|A|B)\s*\)] under IGNORECASE, where Q is
    the body between double quotes, A the body between apostrophes and B
    the bare body up to a closing parenthesis. *)
Definition url_notation : Re.regex :=
  Re.Seq (Re.lit_nocase "u")
  (Re.Seq (Re.lit_nocase "r")
  (Re.Seq (Re.lit_nocase "l")
  (Re.Seq (Re.lit LPAREN)
  (Re.Seq (Re.Star true Re.space)
  (Re.Seq
     (Re.Alt (Re.Seq (Re.lit QUOTE) (Re.Seq (url_body QUOTE) (Re.lit QUOTE)))
     (Re.Alt (Re.Seq (Re.lit APOS) (Re.Seq (url_body APOS) (Re.lit APOS)))
             (url_body RPAREN)))
  (Re.Seq (Re.Star true Re.space) (Re.lit RPAREN))))))).

(** [regex_style]: [(.*?)(?:url\(...\)|$)]. *)
Definition regex_style : Re.regex :=
  Re.Seq (Re.Group 1 (Re.Star false Re.dot)) (Re.Alt url_notation Re.Eol).

(** One turn of the loop of [normalize_url_style_declaration]: [subject]
    is the string [finditer] runs on, [value] the string being rebuilt. *)
Definition normalize_url_step (subject : list ascii) (value : list ascii)
    (m : Re.MatchObj) : list ascii :=
  let value_start :=
    if 0 <? Re.m_start m then firstn (Re.m_start m) value else [] in
  let normalized_value := lower_chars (Re.group 1 subject m) in
  let value_end := skipn (Re.m_start m + length normalized_value) value in
  value_start ++ normalized_value ++ value_end.

Definition normalize_url_chars (value : list ascii) : list ascii :=
  fold_left (normalize_url_step value) (Re.finditer regex_style value) value.

(** [normalize_url_style_declaration] *)
Definition normalize_url_style_declaration (value : string) : string :=
  str (normalize_url_chars (chars value)).

(** A token of the font pattern: [\d[^\s,]*|\w[^\s,]*]. *)
Definition font_token_tail : Re.regex :=
  Re.Star true (Re.Chr (fun c => negb (isspace c || Ascii.eqb c COMMA))).

Definition font_token : Re.regex :=
  Re.Alt (Re.Seq (Re.Chr isdigit) font_token_tail)
         (Re.Seq (Re.Chr isword) font_token_tail).

(** [\s+|\s*,\s*] *)
Definition font_separator : Re.regex :=
  Re.Alt (Re.plus Re.space)
         (Re.Seq (Re.Star true Re.space)
            (Re.Seq (Re.lit COMMA) (Re.Star true Re.space))).

(** The font pattern: from the start of the string, any number of
    tokens each followed by a separator (groups 1 to 3), then a token
    that starts with a digit. *)
Definition regex_font : Re.regex :=
  Re.Seq Re.Bol
  (Re.Seq
     (Re.Star true
        (Re.Group 1
           (Re.Seq (Re.Group 2 font_token) (Re.Group 3 font_separator))))
     (Re.Seq (Re.Chr isdigit) font_token_tail)).

(** [normalize_font_style_declaration] *)
Definition normalize_font_style_declaration (value : string) : string :=
  str (Re.sub_with regex_font
         (fun m => lower_chars (Re.group0 (chars value) m)) (chars value)).

Inductive style_method : Type :=
| Noop
| Font
| Url.

(** [CASE_SENSITIVE_STYLE_METHODS] *)
Definition CASE_SENSITIVE_STYLE_METHODS : list (string * style_method) :=
  [ ("id", Noop); ("class", Noop); ("font-family", Noop); ("font", Font);
    ("clip-path", Url); ("color-profile", Url); ("cursor", Url);
    ("fill", Url); ("filter", Url); ("marker-start", Url);
    ("marker-mid", Url); ("marker-end", Url); ("mask", Url);
    ("stroke", Url) ]%string.

Fixpoint style_method_of (name : string) (table : list (string * style_method))
    : option style_method :=
  match table with
  | [] => None
  | (k, f) :: table' =>
      if String.eqb name k then Some f else style_method_of name table'
  end.

Definition run_style_method (f : style_method) (value : string) : string :=
  match f with
  | Noop => normalize_noop_style_declaration value
  | Font => normalize_font_style_declaration value
  | Url => normalize_url_style_declaration value
  end.

(** [normalize_style_declaration(name, value)] *)
Definition normalize_style_declaration (name value : string)
    : string * string :=
  let name := lower (strip name) in
  let value := strip value in
  match style_method_of name CASE_SENSITIVE_STYLE_METHODS with
  | Some f => (name, run_style_method f value)
  | None => (name, lower value)
  end.

(** ** Raw elements, styles and nodes *)

(** An element of the parsed document, as the selector engine wraps it:
    the raw element ([etree_element]) and the place it has in its
    document, which [ident] stands for. *)
Inductive Element : Type := mkElement {
  ident : nat;
  local_name : string;
  namespace_url : string;
  attrib : gmap string string;
  etext : option string;
  etail : option string;
  echildren : list Element
}.

Definition declaration : Type := string * string.

(** A matcher gives, for an element, the declarations ([rule[-1]]) of the
    rules that match it, in order. *)
Definition Matcher : Type := Element -> list (list declaration).

(** [style]: the pair [(normal_matcher, important_matcher)]. *)
Definition Style : Type := (Matcher * Matcher)%type.

(** The object given as [url_fetcher], by a handle: a fetch function, or
    any other object, [None] included, on which [read_url] raises. *)
Definition UrlFetcher : Type := nat.

Inductive error : Type :=
| NoInput                     (* TypeError: No input.  Use one of ... *)
| NoTagWithId (id : string)   (* TypeError: No tag with id=... found. *)
| NoParent                    (* AttributeError: parent is None *)
| Raised (what : string).     (* raised by a collaborator *)

Inductive Result (A : Type) : Type :=
| Ok (x : A)
| Err (e : error).
Arguments Ok {A} x.
Arguments Err {A} e.

Definition bindR {A B} (m : Result A) (f : A -> Result B) : Result B :=
  match m with
  | Ok x => f x
  | Err e => Err e
  end.

(** A node: the entries of the [dict] are [attributes], the rest are the
    fields that [__init__] sets.  [parent] is the parent as it was when
    this node was built. *)
Inductive Node : Type := mkNode {
  tag : string;
  attributes : gmap string string;
  text : option string;
  children : list Node;
  parent : option Node;
  url : option string;
  xml_tree : Element;
  element : Element;
  style : Style;
  url_fetcher : UrlFetcher;
  unsafe : bool;
  root : bool
}.

(** [NOT_INHERITED_ATTRIBUTES] *)
Definition NOT_INHERITED_ATTRIBUTES : gset string :=
  list_to_set
    [ "clip"; "clip-path"; "display"; "filter"; "height"; "id"; "mask";
      "opacity"; "overflow"; "rotate"; "stop-color"; "stop-opacity";
      "style"; "transform"; "viewBox"; "width"; "x"; "y"; "dx"; "dy";
      "{http://www.w3.org/1999/xlink}href" ]%string.

(** [COLOR_ATTRIBUTES], in one order of iteration. *)
Definition COLOR_ATTRIBUTES : list string :=
  [ "fill"; "flood-color"; "lighting-color"; "stop-color"; "stroke" ]%string.

(** Truth value of a string, of an optional string and of a node (a
    [dict] is false when it has no entry). *)
Definition truthy (s : string) : bool := negb (String.eqb s "").

Definition truthy_opt (o : option string) : bool :=
  match o with
  | Some s => truthy s
  | None => false
  end.

Definition truthy_node (n : Node) : bool :=
  negb (bool_decide (attributes n = ∅)).

Definition truthy_parent (p : option Node) : bool :=
  match p with
  | Some n => truthy_node n
  | None => false
  end.

(** [a or b] on optional strings. *)
Definition or_str (a b : option string) : option string :=
  if truthy_opt a then a else b.

(** *** The cascade of [Node.__init__] *)

(** [self.update([(a, parent[a]) for a in parent if a not in
    NOT_INHERITED_ATTRIBUTES])] on the empty [dict]. *)
Definition inherited (parent : option Node) : gmap string string :=
  match parent with
  | Some p =>
      filter (fun kv => kv.1 ∉ NOT_INHERITED_ATTRIBUTES) (attributes p)
  | None => ∅
  end.

(** [self.update(other)] *)
Definition update (self other : gmap string string) : gmap string string :=
  other ∪ self.

(** [for name, value in declarations: self[name] = value.strip()] *)
Definition set_declarations (self : gmap string string)
    (declarations : list declaration) : gmap string string :=
  fold_left (fun m d => <[d.1 := strip d.2]> m) declarations self.

(** [for declarations in declaration_lists: ...] *)
Definition set_declaration_lists (self : gmap string string)
    (declaration_lists : list (list declaration)) : gmap string string :=
  fold_left set_declarations declaration_lists self.

(** The attributes after inheritance, the element's own attributes and
    the four lists of declarations. *)
Definition cascade (parent : option Node) (own : gmap string string)
    (normal : list (list declaration)) (normal_attr : list declaration)
    (important : list (list declaration)) (important_attr : list declaration)
    : gmap string string :=
  fold_left set_declaration_lists
    [normal; [normal_attr]; important; [important_attr]]
    (update (inherited parent) own).

(** [if self.get(attribute) == 'currentColor':
       self[attribute] = self.get('color', 'black')] *)
Definition replace_current_color (self : gmap string string)
    (attribute : string) : gmap string string :=
  if bool_decide (self !! attribute = Some "currentColor"%string)
  then <[attribute := default "black"%string (self !! "color"%string)]> self
  else self.

(** The names whose value is ['inherit'], listed before any is changed. *)
Definition inherit_names (self : gmap string string) : list string :=
  (map_to_list (filter (fun kv => kv.2 = "inherit"%string) self)).*1.

(** [if parent is not None and attribute in parent:
       self[attribute] = parent.get(attribute)
     else: del self[attribute]] *)
Definition replace_inherit (parent : option Node)
    (self : gmap string string) (attribute : string) : gmap string string :=
  match parent with
  | Some p =>
      match attributes p !! attribute with
      | Some v => <[attribute := v]> self
      | None => delete attribute self
      end
  | None => delete attribute self
  end.

Definition post_process (parent : option Node) (self : gmap string string)
    : gmap string string :=
  let self := fold_left replace_current_color COLOR_ATTRIBUTES self in
  fold_left (replace_inherit parent) (inherit_names self) self.

(** *** Collaborators *)

(** The six components of a parsed URL. *)
Record ParsedUrl : Type := mkParsedUrl {
  scheme : string;
  netloc : string;
  path : string;
  params : string;
  query : string;
  fragment : string
}.

(** [parsed_url[:-1] + ('',)] *)
Definition without_fragment (u : ParsedUrl) : ParsedUrl :=
  mkParsedUrl (scheme u) (netloc u) (path u) (params u) (query u) "".

(** [any(parsed_url[:-1])] *)
Definition any_but_fragment (u : ParsedUrl) : bool :=
  truthy (scheme u) || truthy (netloc u) || truthy (path u)
  || truthy (params u) || truthy (query u).

Definition bytes : Type := list Byte.byte.

(** What the text reflow of [text_children] leaves on the node it runs on:
    its children, its text and its entries. *)
Record Reflow : Type := mkReflow {
  reflow_children : list Node;
  reflow_text : option string;
  reflow_attributes : gmap string string
}.

(** The functions of other modules that the tree builder calls. *)
Record Collaborators : Type := mkCollaborators {
  (** [css.parse_declarations] *)
  parse_declarations : string -> list declaration * list declaration;
  (** [features.match_features] *)
  match_features : Element -> bool;
  (** [Node.text_children(element, trailing_space=True, text_root=True)],
      run on a node whose cascade is done; it fails when a text reference
      cannot be loaded. *)
  text_children : Node -> Element -> Result Reflow;
  (** [url.parse_url(url, base)] and [urllib.parse.urlunparse] *)
  parse_url : option string -> option string -> ParsedUrl;
  urlunparse : ParsedUrl -> string;
  (** [url.read_url(url, url_fetcher, resource_type)] *)
  read_url : ParsedUrl -> UrlFetcher -> string -> Result bytes;
  (** [url.fetch], the default fetch function *)
  fetch : UrlFetcher;
  (** [gzip.decompress] *)
  gzip_decompress : bytes -> Result bytes;
  (** [ElementTree.fromstring(bytestring, forbid_entities, forbid_external)] *)
  fromstring : bytes -> bool -> bool -> Result Element;
  (** [css.parse_stylesheets(tree, url)], given the document, the URL and
      the fetch function of the tree *)
  parse_stylesheets :
    Element -> option string -> UrlFetcher -> option string -> Style
}.

(** *** [Node.__init__] *)

Definition node_url (n : Node) : option string := url n.
Definition node_style (n : Node) : Style := style n.
Definition node_element (n : Node) : Element := element n.

Definition set_children (n : Node) (cs : list Node) : Node :=
  mkNode (tag n) (attributes n) (text n) cs (parent n) (url n)
    (xml_tree n) (element n) (style n) (url_fetcher n) (unsafe n) (root n).

Definition set_reflow (n : Node) (r : Reflow) : Node :=
  mkNode (tag n) (reflow_attributes r) (reflow_text r) (reflow_children r)
    (parent n) (url n) (xml_tree n) (element n) (style n) (url_fetcher n)
    (unsafe n) (root n).

(** A list comprehension whose body may raise. *)
Fixpoint mapR {A B} (f : A -> Result B) (l : list A) : Result (list B) :=
  match l with
  | [] => Ok []
  | x :: l' => bindR (f x) (fun y => bindR (mapR f l') (fun ys => Ok (y :: ys)))
  end.

Section NodeBuilder.

Variable env : Collaborators.

Definition node_tag (element : Element) : string :=
  if String.eqb (namespace_url element) ""
     || String.eqb (namespace_url element) "http://www.w3.org/2000/svg"
  then local_name element
  else ("{" ++ namespace_url element ++ "}" ++ local_name element)%string.

(** The two lists that the inline [style] attribute gives. *)
Definition inline_declarations (element : Element)
    : list declaration * list declaration :=
  match attrib element !! "style"%string with
  | Some style_attr =>
      if truthy style_attr then parse_declarations env style_attr
      else ([], [])
  | None => ([], [])
  end.

(** The entries of the node once the cascade and the two replacements
    are done. *)
Definition node_attributes (element : Element) (style : Style)
    (parent : option Node) : gmap string string :=
  let '(normal_attr, important_attr) := inline_declarations element in
  let '(normal_matcher, important_matcher) := style in
  post_process parent
    (cascade parent (attrib element)
       (normal_matcher element) normal_attr
       (important_matcher element) important_attr).

Definition is_text_tag (tag : string) : bool :=
  String.eqb tag "text" || String.eqb tag "textPath" || String.eqb tag "a".

(** The node when the cascade is done, before it has children.
    [preset_url] is the [url] that the object has before
    [Node.__init__] runs: the one [Tree.__init__] has set, none for a
    plain [Node]. *)
Definition bare_node (element : Element) (style : Style)
    (url_fetcher : UrlFetcher) (parent : option Node)
    (url : option string) (unsafe : bool) (preset_url : option string)
    : Node :=
  mkNode (node_tag element) (node_attributes element style parent)
    (etext element) []
    parent
    (match parent with
     | Some p => or_str url (node_url p)
     | None => preset_url
     end)
    element element style url_fetcher unsafe false.

(** [__init__] up to the text children. *)
Definition init_self (element : Element) (style : Style)
    (url_fetcher : UrlFetcher) (parent : option Node)
    (url : option string) (unsafe : bool) (preset_url : option string)
    : Result Node :=
  let self :=
    bare_node element style url_fetcher parent url unsafe preset_url in
  if is_text_tag (tag self) then
    bindR (text_children env self element) (fun r => Ok (set_reflow self r))
  else Ok self.

(** The loop over [element.iter_children()]: a child that passes
    [match_features] is built and appended; under a [switch] the loop
    stops there. *)
Definition build_children (build : Element -> Result Node)
    (is_switch : bool) : list Element -> Result (list Node) :=
  fix go (cs : list Element) : Result (list Node) :=
    match cs with
    | [] => Ok []
    | child :: cs' =>
        if match_features env child then
          bindR (build child) (fun n =>
            if is_switch then Ok [n]
            else bindR (go cs') (fun ns => Ok (n :: ns)))
        else go cs'
    end.

(** [Node.__init__] without [parent_children]. *)
Fixpoint build_node (element : Element) (style : Style)
    (url_fetcher : UrlFetcher) (parent : option Node)
    (url : option string) (unsafe : bool) (preset_url : option string)
    {struct element} : Result Node :=
  bindR (init_self element style url_fetcher parent url unsafe preset_url)
    (fun self =>
       match children self with
       | _ :: _ => Ok self
       | [] =>
           match element with
           | mkElement _ _ _ _ _ _ echildren =>
               bindR
                 (build_children
                    (fun child =>
                       build_node child style url_fetcher (Some self)
                         None unsafe None)
                    (String.eqb (tag self) "switch") echildren)
                 (fun cs => Ok (set_children self cs))
           end
       end).

(** [Node.__init__(element, style, url_fetcher, parent, parent_children,
    url, unsafe)] *)
Definition Node_init (element : Element) (style : Style)
    (url_fetcher : UrlFetcher) (parent : option Node)
    (parent_children : bool) (url : option string) (unsafe : bool)
    (preset_url : option string) : Result Node :=
  if parent_children then
    bindR (init_self element style url_fetcher parent url unsafe preset_url)
      (fun self =>
         match parent with
         | None => Err NoParent
         | Some p =>
             bindR
               (mapR
                  (fun child =>
                     build_node (node_element child) style url_fetcher
                       (Some self) None unsafe None)
                  (children p))
               (fun cs => Ok (set_children self cs))
         end)
  else build_node element style url_fetcher parent url unsafe preset_url.

End NodeBuilder.

(** ** The tree loader *)

(** A readable byte source: what [read()] gives and the [name] it may
    have. *)
Record FileObj : Type := mkFileObj {
  fo_read : bytes;
  fo_name : option string
}.

(** The reference cache: [(url, id)] to the tree built for it.  The id of
    a key is a fragment or the [id] entry of a tree, which may be [None]. *)
Abbreviation TreeCache := (gmap (string * option string) Node).

(** The keyword arguments of [Tree(...)].  For [bytestring], [file_obj],
    [url], [parent] and [tree_cache] a keyword that is not given and one
    that is given as [None] are read alike, by [kwargs.get]; the field is
    [None] for both.  [kw_url_fetcher] is [None] only when the keyword is
    not given, where the default fetch function is taken; it is [Some]
    of the object given otherwise, also when that object is [None]. *)
Record Kwargs : Type := mkKwargs {
  kw_bytestring : option bytes;
  kw_file_obj : option FileObj;
  kw_url : option string;
  kw_unsafe : bool;
  kw_parent : option Node;
  kw_parent_children : bool;
  kw_tree_cache : option TreeCache;
  kw_url_fetcher : option UrlFetcher
}.

(** The steps of one load that reach outside the loader. *)
Inductive event : Type :=
| EvFetch (u : ParsedUrl) (resource_type : string)
| EvGunzip
| EvParse (forbid_entities forbid_external : bool)
| EvStylesheets
| EvFragmentSearch (id : string).

(** A computation that logs its steps and may raise. *)
Definition M (A : Type) : Type := (list event * Result A)%type.

Definition retM {A} (x : A) : M A := ([], Ok x).
Definition raiseM {A} (e : error) : M A := ([], Err e).
Definition emit (ev : event) : M unit := ([ev], Ok tt).
Definition liftM {A} (r : Result A) : M A := ([], r).

Definition bindM {A B} (m : M A) (f : A -> M B) : M B :=
  match m with
  | (l, Ok x) => let '(l', r) := f x in (l ++ l', r)
  | (l, Err e) => (l, Err e)
  end.

Declare Scope load_scope.
Delimit Scope load_scope with load.
Notation "x <- m ;; k" := (bindM m (fun x => k))
  (at level 100, m at next level, right associativity) : load_scope.
Notation "m ;;; k" := (bindM m (fun _ => k))
  (at level 100, right associativity) : load_scope.

Definition GZIP_MAGIC : bytes := [Byte.x1f; Byte.x8b].

(** [len(bytestring) >= 2 and bytestring[:2] == GZIP_MAGIC] *)
Definition starts_with_gzip_magic (b : bytes) : bool :=
  (2 <=? length b)
  && match firstn 2 b, GZIP_MAGIC with
     | [x; y], [x'; y'] => Byte.eqb x x' && Byte.eqb y y'
     | _, _ => false
     end.

(** [while root_parent.parent: root_parent = root_parent.parent] *)
Fixpoint root_parent (n : Node) : Node :=
  match n with
  | mkNode _ _ _ _ (Some p) _ _ _ _ _ _ _ =>
      if truthy_node p then root_parent p else n
  | _ => n
  end.

(** [root.iter_subtree()]: the element, then its descendants, in document
    order. *)
Fixpoint iter_subtree (e : Element) : list Element :=
  match e with
  | mkElement _ _ _ _ _ _ cs => e :: flat_map iter_subtree cs
  end.

(** [element.id] *)
Definition element_id_of (e : Element) : option string :=
  attrib e !! "id"%string.

Fixpoint find_id (id : string) (l : list Element) : option Element :=
  match l with
  | [] => None
  | e :: l' =>
      if bool_decide (element_id_of e = Some id) then Some e
      else find_id id l'
  end.

Section TreeLoader.

Variable env : Collaborators.

Local Open Scope load_scope.

(** The first branch of [Tree.__init__]: the bytes in hand, [self.url]
    and [element_id]. *)
Definition resolve_input (kw : Kwargs)
    : Result (option bytes * option string * option string) :=
  match kw_bytestring kw with
  | Some b => Ok (Some b, kw_url kw, None)
  | None =>
      match kw_file_obj kw with
      | Some f =>
          Ok (Some (fo_read f),
              if bool_decide (fo_name f = Some "<stdin>"%string)
              then None else fo_name f,
              None)
      | None =>
          match kw_url kw with
          | Some url =>
              let parent_url :=
                match kw_parent kw with
                | Some p => if truthy_node p then node_url p else None
                | None => None
                end in
              let parsed_url := parse_url env (Some url) parent_url in
              let '(self_url, element_id) :=
                if truthy (fragment parsed_url)
                then (urlunparse env (without_fragment parsed_url),
                      Some (fragment parsed_url))
                else (urlunparse env parsed_url, None) in
              Ok (None,
                  if truthy self_url then Some self_url else None,
                  element_id)
          | None => Err NoInput
          end
      end
  end.

(** The bytes in hand, fetched if there are none, unzipped if they
    are zipped, and parsed. *)
Definition parse_input (unsafe : bool) (url_fetcher : UrlFetcher)
    (bytestring : option bytes) (self_url : option string) : M Element :=
  b <- match bytestring with
       | Some ((_ :: _) as b) => retM b
       | _ =>
           emit (EvFetch (parse_url env self_url None) "image/svg+xml") ;;;
           liftM (read_url env (parse_url env self_url None)
                    url_fetcher "image/svg+xml")
       end ;;
  b <- (if starts_with_gzip_magic b
        then emit EvGunzip ;;; liftM (gzip_decompress env b)
        else retM b) ;;
  emit (EvParse (negb unsafe) (negb unsafe)) ;;;
  liftM (fromstring env b (negb unsafe) (negb unsafe)).

(** Whether the document of an ancestor is taken:
    [parent and self.url == parent.url]. *)
Definition same_document (parent : option Node) (self_url : option string)
    : bool :=
  match parent with
  | Some p => truthy_node p && bool_decide (self_url = node_url p)
  | None => false
  end.

(** The document of the load: the one at the top of the parent chain,
    or the parsed input. *)
Definition load_document (kw : Kwargs) (url_fetcher : UrlFetcher)
    (bytestring : option bytes) (self_url : option string) : M Element :=
  match kw_parent kw with
  | Some p =>
      if same_document (Some p) self_url
      then retM (xml_tree (root_parent p))
      else parse_input (kw_unsafe kw) url_fetcher bytestring self_url
  | None => parse_input (kw_unsafe kw) url_fetcher bytestring self_url
  end.

(** [style = parent.style if parent else css.parse_stylesheets(self, url)] *)
Definition load_style (kw : Kwargs) (url_fetcher : UrlFetcher)
    (tree : Element) (self_url : option string) : M Style :=
  match kw_parent kw with
  | Some p =>
      if truthy_node p then retM (node_style p)
      else
        emit EvStylesheets ;;;
        retM (parse_stylesheets env tree self_url url_fetcher (kw_url kw))
  | None =>
      emit EvStylesheets ;;;
      retM (parse_stylesheets env tree self_url url_fetcher (kw_url kw))
  end.

(** The element the node is built from: the document, or the first
    element of it with the id of the fragment. *)
Definition effective_root (tree : Element) (element_id : option string)
    : M Element :=
  match element_id with
  | Some id =>
      if truthy id then
        emit (EvFragmentSearch id) ;;;
        match find_id id (iter_subtree tree) with
        | Some e => retM e
        | None => raiseM (NoTagWithId id)
        end
      else retM tree
  | None => retM tree
  end.

(** [tree_cache[(self.url, self.get('id'))] = self] when there is a
    cache and a URL. *)
Definition cache_insert (tree_cache : option TreeCache) (self : Node)
    : option TreeCache :=
  match tree_cache with
  | Some c =>
      match node_url self with
      | Some u =>
          if truthy u
          then Some (<[(u, attributes self !! "id"%string) := self]> c)
          else Some c
      | None => Some c
      end
  | None => None
  end.

Definition set_root (n : Node) : Node :=
  mkNode (tag n) (attributes n) (text n) (children n) (parent n) (url n)
    (xml_tree n) (element n) (style n) (url_fetcher n) (unsafe n) true.

(** [Tree.__init__] on its keyword arguments: the tree and the cache
    after the load. *)
Definition Tree_init (kw : Kwargs) : M (Node * option TreeCache) :=
  let url_fetcher := default (fetch env) (kw_url_fetcher kw) in
  input <- liftM (resolve_input kw) ;;
  let '(bytestring, self_url, element_id) := input in
  tree <- load_document kw url_fetcher bytestring self_url ;;
  style <- load_style kw url_fetcher tree self_url ;;
  root <- effective_root tree element_id ;;
  self <- liftM (Node_init env root style url_fetcher (kw_parent kw)
                   (kw_parent_children kw) self_url (kw_unsafe kw)
                   self_url) ;;
  let self := set_root self in
  retM (self, cache_insert (kw_tree_cache kw) self).

(** The key that [Tree.__new__] looks up: the URL without its fragment,
    or the URL of the parent when the URL is a fragment only, and the
    fragment. *)
Definition cache_key (kw : Kwargs) : option (string * option string) :=
  match kw_url kw with
  | Some u =>
      if truthy u then
        let parsed_url := parse_url env (Some u) None in
        let element_id := fragment parsed_url in
        let url :=
          if any_but_fragment parsed_url
          then Some (urlunparse env (without_fragment parsed_url))
          else match kw_parent kw with
               | Some p => if truthy_node p then node_url p else None
               | None => None
               end in
        match url with
        | Some url => if truthy url then Some (url, Some element_id) else None
        | None => None
        end
      else None
  | None => None
  end.

Definition set_cached (n cached : Node) (url : string) : Node :=
  mkNode (tag cached) (attributes n) (text n) (children n) (parent n)
    (Some url) (xml_tree cached) (element n) (style n) (url_fetcher n)
    (unsafe n) true.

(** [Tree.__new__] on the keyword arguments: the node built on a hit of
    the cache, nothing on a miss. *)
Definition Tree_new (kw : Kwargs) : option (Result Node) :=
  match kw_tree_cache kw with
  | Some tree_cache =>
      if size tree_cache =? 0 then None
      else
        match cache_key kw with
        | Some (url, element_id) =>
            match tree_cache !! (url, element_id) with
            | Some cached_tree =>
                Some
                  (bindR
                     (Node_init env (node_element cached_tree)
                        (node_style cached_tree) (url_fetcher cached_tree)
                        (kw_parent kw) false None (kw_unsafe kw) None)
                     (fun new_tree =>
                        Ok (set_cached new_tree cached_tree url)))
            | None => None
            end
        | None => None
        end
  | None => None
  end.

(** A call of [Tree] with keyword arguments: the object that [__new__]
    gives when it is not a [Tree], else the tree that [__init__] sets
    up. *)
Definition Tree (kw : Kwargs) : M (Node * option TreeCache) :=
  match Tree_new kw with
  | Some r => new_tree <- liftM r ;; retM (new_tree, kw_tree_cache kw)
  | None => Tree_init kw
  end.

End TreeLoader.

(** ** Definitions that the statements use *)

(** The numbers of the capturing groups of a pattern. *)
Fixpoint group_ids (r : Re.regex) : list nat :=
  match r with
  | Re.Chr _ | Re.Bol | Re.Eol => []
  | Re.Seq r1 r2 | Re.Alt r1 r2 => group_ids r1 ++ group_ids r2
  | Re.Star _ r' => group_ids r'
  | Re.Group n r' => n :: group_ids r'
  end.

(** [resumes i s g ids k x]: the continuation [k] gave [x] at a position
    [i'] between [i] and the end of [s], on groups that differ from [g]
    only at the numbers [ids]. *)
Definition resumes {A} (i : nat) (s : list ascii) (g : Re.groups)
    (ids : list nat) (k : Re.cont A) (x : A) : Prop :=
  exists i' g',
    i <= i' /\ i' <= i + length s
    /\ k i' (skipn (i' - i) s) g' = Some x
    /\ forall n, ~ In n ids -> Re.group_span n g' = Re.group_span n g.

(** A match object that some attempt of [r] produced. *)
Definition matched (r : Re.regex) (m : Re.MatchObj) : Prop :=
  exists adv s, Re.match_at r adv (Re.m_start m) s = Some m.

(** The longest prefix of characters in a class, and what follows it. *)
Fixpoint take_run (p : ascii -> bool) (s : list ascii) : list ascii :=
  match s with
  | c :: s' => if p c then c :: take_run p s' else []
  | [] => []
  end.

Fixpoint drop_run (p : ascii -> bool) (s : list ascii) : list ascii :=
  match s with
  | c :: s' => if p c then drop_run p s' else s
  | [] => []
  end.

(** The specification's words for the two modes of the whitespace
    handler.  Preserve: each newline, carriage return and tab becomes one
    space. *)
Definition spec_preserve (s : list ascii) : list ascii :=
  map (fun c => if is_nl_cr_tab c then SP else c) s.

(** A space that another space follows is dropped: every run of two or
    more spaces becomes one space. *)
Fixpoint spec_collapse_spaces (s : list ascii) : list ascii :=
  match s with
  | [] => []
  | c :: s' =>
      if Ascii.eqb SP c then
        match s' with
        | c' :: _ =>
            if Ascii.eqb SP c' then spec_collapse_spaces s'
            else c :: spec_collapse_spaces s'
        | [] => [c]
        end
      else c :: spec_collapse_spaces s'
  end.

(** Default: newlines and carriage returns go, each tab becomes a space,
    runs of spaces collapse. *)
Definition spec_default (s : list ascii) : list ascii :=
  spec_collapse_spaces
    (map (fun c => if Ascii.eqb TAB c then SP else c)
       (List.filter (fun c => negb (is_nl_cr c)) s)).

(** The positions of the part of a match that the pattern of
    [normalize_url_style_declaration] captures as its group 1, the text
    before a [url(...)] notation or before the end of the value. *)
Definition in_non_url_part (i : nat) (m : Re.MatchObj) : bool :=
  match Re.group_span 1 (Re.m_groups m) with
  | Some (a, b) => (a <=? i) && (i <? b)
  | None => false
  end.

Definition lowered_position (value : list ascii) (i : nat) : bool :=
  existsb (in_non_url_part i) (Re.finditer regex_style value).

(** The properties whose values may hold a URL. *)
Definition URL_PROPERTIES : list string :=
  [ "clip-path"; "color-profile"; "cursor"; "fill"; "filter";
    "marker-start"; "marker-mid"; "marker-end"; "mask"; "stroke" ]%string.

(** The first of a list of optional values that is there. *)
Fixpoint first_some {A} (l : list (option A)) : option A :=
  match l with
  | [] => None
  | Some x :: _ => Some x
  | None :: l' => first_some l'
  end.

(** The value that a list of declarations leaves for [name]: the value
    of the last declaration with that very name, stripped. *)
Fixpoint last_declared (name : string) (declarations : list declaration)
    : option string :=
  match declarations with
  | [] => None
  | d :: ds =>
      match last_declared name ds with
      | Some v => Some v
      | None => if String.eqb d.1 name then Some (strip d.2) else None
      end
  end.

(** The specification's words for tiers 3 to 6: each declaration goes
    through the normaliser before it is assigned. *)
Definition spec_set_normalized (self : gmap string string)
    (declarations : list declaration) : gmap string string :=
  fold_left
    (fun m d =>
       let '(name, value) := normalize_style_declaration d.1 d.2 in
       <[name := value]> m)
    declarations self.

Definition spec_cascade_normalized (parent : option Node)
    (own : gmap string string)
    (normal : list (list declaration)) (normal_attr : list declaration)
    (important : list (list declaration)) (important_attr : list declaration)
    : gmap string string :=
  fold_left (fun m lists => fold_left spec_set_normalized lists m)
    [normal; [normal_attr]; important; [important_attr]]
    (update (inherited parent) own).

(** The entry of an optional parent. *)
Definition parent_entry (parent : option Node) (name : string)
    : option string :=
  match parent with
  | Some p => attributes p !! name
  | None => None
  end.

(** *** A small world to run the builder in *)

Definition split_fragment (s : string) : string * string :=
  match index 0 "#" s with
  | Some i => (substring 0 i s, substring (S i) (String.length s - S i) s)
  | None => (s, ""%string)
  end.

Definition no_style : Style := (fun _ => [], fun _ => []).

(** The document that any fetch gives: a root and, under it, an element
    with the id [a] whose fill is [inherit]. *)
Definition fetched_document : Element :=
  mkElement 100 "svg" "" ∅ None None
    [ mkElement 101 "rect" "" {[ "id" := "a"; "fill" := "inherit" ]}%string
        None None [] ].

(** Collaborators: the inline style [fill:blue] is understood, an
    element with a [systemLanguage] attribute fails the feature test,
    text has no reflow, a URL is a path and a fragment, every fetch gives
    one byte and every parse gives [fetched_document]. *)
Definition sample_env : Collaborators :=
  mkCollaborators
    (fun s =>
       if String.eqb s "fill:blue" then ([("fill", "blue")], [])
       else ([], []))%string
    (fun e => bool_decide (attrib e !! "systemLanguage"%string = None))
    (fun n _ => Ok (mkReflow [] (text n) (attributes n)))
    (fun u _ =>
       let '(p, f) := split_fragment (default ""%string u) in
       mkParsedUrl "" "" p "" "" f)
    (fun u =>
       if String.eqb (fragment u) "" then path u
       else (path u ++ "#" ++ fragment u)%string)
    (fun _ _ _ => Ok [Byte.x3c])
    0
    (fun b => Ok b)
    (fun _ _ _ => Ok fetched_document)
    (fun _ _ _ _ => no_style).

Definition leaf (i : nat) (name : string) (a : gmap string string)
    : Element :=
  mkElement i name "" a None None [].

(** The value of a result that is not an error. *)
Definition ok {A} (r : Result A) : option A :=
  match r with
  | Ok x => Some x
  | Err _ => None
  end.

Definition child (i : nat) (n : Node) : option Node := children n !! i.

(** The elements that the children of a node were built from. *)
Definition child_idents (n : Node) : list nat :=
  map (fun c => ident (element c)) (children n).

(** A root whose colour is [currentColor], a group that inherits its
    fill and sets its colour, and a path with nothing of its own. *)
Definition colour_document : Element :=
  mkElement 0 "svg" ""
    {[ "color" := "currentColor"; "fill" := "currentColor" ]}%string
    None None
    [ mkElement 1 "g" "" {[ "fill" := "inherit"; "color" := "red" ]}%string
        None None
        [ leaf 2 "path" ∅ ] ].

(** A [switch] whose first child fails the feature test. *)
Definition switch_document : Element :=
  mkElement 0 "switch" "" ∅ None None
    [ leaf 1 "g" {[ "systemLanguage" := "xx" ]}%string;
      leaf 2 "rect" ∅;
      leaf 3 "circle" ∅ ].

Definition plain_node (e : Element) (a : gmap string string)
    (cs : list Node) (p : option Node) (u : option string) : Node :=
  mkNode (local_name e) a None cs p u e e no_style 0 false false.

(** A node with one child, to copy children from. *)
Definition node_with_child : Node :=
  plain_node (leaf 8 "g" ∅) {[ "fill" := "red" ]}%string
    [ plain_node (leaf 9 "use" ∅) ∅ [] None None ] None None.

(** The tree of [a.svg], and a node of [b.svg] loaded under it. *)
Definition top_tree : Node :=
  plain_node (leaf 10 "svg" {[ "id" := "top" ]}%string)
    {[ "id" := "top" ]}%string [] None (Some "a.svg"%string).

Definition nested_node : Node :=
  plain_node (leaf 11 "use" ∅) {[ "fill" := "red" ]}%string []
    (Some top_tree) (Some "b.svg"%string).

(** A cached tree for the fragment [a] of [doc.svg]. *)
Definition cached_fragment : Node :=
  plain_node (leaf 7 "rect" {[ "id" := "a" ]}%string)
    {[ "id" := "a" ]}%string [] None (Some "doc.svg"%string).

Definition sample_cache : TreeCache :=
  {[ ("doc.svg"%string, Some "a"%string) := cached_fragment ]}.

(** Two loads of the fragment [a] of [doc.svg] through one cache: the
    first, without a parent, fills the cache; the second is made under
    [nested_node]. *)
Definition first_load : M (Node * option TreeCache) :=
  Tree sample_env
    (mkKwargs None None (Some "doc.svg#a"%string) false None false
       (Some ∅) None).

Definition first_tree : Node :=
  match first_load.2 with
  | Ok (n, _) => n
  | Err _ => cached_fragment
  end.

Definition cache_after_first_load : TreeCache :=
  match first_load.2 with
  | Ok (_, Some c) => c
  | _ => ∅
  end.

Definition second_load_kwargs : Kwargs :=
  mkKwargs None None (Some "doc.svg#a"%string) false (Some nested_node)
    false (Some cache_after_first_load) None.

(** A stylesheet with the rule fill: red, one with an important
    declaration fill: green, and an element with the inline style
    fill:blue. *)
Definition red_rule : Matcher := fun _ => [[("fill", "red")]]%string.
Definition green_important : Matcher :=
  fun _ => [[("fill", "green")]]%string.
Definition no_rule : Matcher := fun _ => [].

Definition blue_inline_element : Element :=
  leaf 0 "rect" {[ "style" := "fill:blue" ]}%string.

(** No event of a log is a fragment search. *)
Definition no_fragment_search (l : list event) : Prop :=
  Forall (fun ev => match ev with
                    | EvFragmentSearch _ => False
                    | _ => True
                    end) l.

(** The patterns that start with a character of the class [p] and then
    eat [eat s] of what follows. *)
Definition class_led (r : Re.regex) (p : ascii -> bool)
    (eat : list ascii -> nat) : Prop :=
  (forall adv i, Re.match_at r adv i [] = None)
  /\ (forall adv i c s,
        Re.match_at r adv i (c :: s)
        = if p c then Some (Re.mkMatch i (S i + eat s) []) else None)
  /\ (forall s, eat s <= length s).

(** What [sub] makes of the rest [s] of a subject that begins with [pre],
    with [fuel] steps of the scan. *)
Definition sub_rest (r : Re.regex) (repl : list ascii) (fuel : nat)
    (pre s : list ascii) : list ascii :=
  Re.sub_pieces (fun _ => repl) (pre ++ s) (length pre)
    (Re.scan fuel r false (length pre) s).

(** ** Definitions for the further properties *)

(** No space of [l] is followed by a space. *)
Fixpoint no_adjacent_spaces (l : list ascii) : Prop :=
  match l with
  | c :: l' =>
      match l' with
      | c' :: _ => ~ (c = SP /\ c' = SP)
      | [] => True
      end
      /\ no_adjacent_spaces l'
  | [] => True
  end.

(** The four characters that [handle_white_spaces] works on. *)
Definition is_blank (c : ascii) : bool :=
  Ascii.eqb SP c || is_nl_cr_tab c.

(** [c'] is [c] or its lowercase. *)
Definition case_variant (c c' : ascii) : Prop :=
  c' = c \/ c' = lower_char c.

(** A pattern that cannot tell a character from its lowercase. *)
Fixpoint case_blind (r : Re.regex) : Prop :=
  match r with
  | Re.Chr p => forall c, p (lower_char c) = p c
  | Re.Bol | Re.Eol => True
  | Re.Seq r1 r2 | Re.Alt r1 r2 => case_blind r1 /\ case_blind r2
  | Re.Star _ r' | Re.Group _ r' => case_blind r'
  end.

(** The positions that the matches [ms] span. *)
Definition in_span (j : nat) (m : Re.MatchObj) : bool :=
  (Re.m_start m <=? j) && (j <? Re.m_end m).

(** Matches that follow each other from position [i] on, within [n]
    characters. *)
Fixpoint chained (n i : nat) (ms : list Re.MatchObj) : Prop :=
  match ms with
  | [] => True
  | m :: ms' =>
      i <= Re.m_start m /\ Re.m_start m <= Re.m_end m /\ Re.m_end m <= n
      /\ chained n (Re.m_end m) ms'
  end.

(** A text without blanks at its ends. *)
Definition stripped (l : list ascii) : Prop := strip_chars l = l.

(** Continuations that cannot tell the rest of a text from a case
    variant of it. *)
Definition cont_blind {A} (k k' : Re.cont A) : Prop :=
  forall i t t' g, Forall2 case_variant t t' -> k i t g = k' i t' g.

(** [l'] is [l] with the characters at the positions [cov] lowered. *)
Definition lowered_on (cov : nat -> bool) (l l' : list ascii) : Prop :=
  forall j, l' !! j = if cov j then lower_char <$> l !! j else l !! j.

(** The head of a text is no blank of [str.strip]. *)
Definition head_not_space (l : list ascii) : Prop :=
  match l with
  | c :: _ => isspace c = false
  | [] => True
  end.

(** What each normalisation method does to the characters of a value,
    and what the default does. *)
Definition method_chars (f : option style_method) (l : list ascii)
    : list ascii :=
  match f with
  | Some Noop => l
  | Some Font =>
      Re.sub_with regex_font (fun m => lower_chars (Re.group0 l m)) l
  | Some Url => normalize_url_chars l
  | None => lower_chars l
  end.

(** The positions that a method lowers. *)
Definition method_cover (f : option style_method) (l : list ascii)
    (j : nat) : bool :=
  match f with
  | Some Noop => false
  | Some Font => existsb (in_span j) (Re.finditer regex_font l)
  | Some Url => lowered_position l j
  | None => true
  end.

(** A character that is neither a newline nor an opening parenthesis. *)
Definition plain_char (c : ascii) : Prop := c <> LF /\ c <> LPAREN.

(** A node and the nodes below it through [children], parents first. *)
Fixpoint subnodes (n : Node) : list Node :=
  match n with
  | mkNode _ _ _ cs _ _ _ _ _ _ _ _ => n :: flat_map subnodes cs
  end.

(** No element of the subtree of [e] has a tag that the text reflow
    handles. *)
Definition no_text_element (e : Element) : Prop :=
  Forall (fun x => is_text_tag (node_tag x) = false) (iter_subtree e).

(** The child elements that the loop of [Node.__init__] builds a node
    from: those that pass the feature test, the first of them only under
    a [switch]. *)
Definition kept_children (env : Collaborators) (e : Element)
    : list Element :=
  let passing := List.filter (match_features env) (echildren e) in
  if String.eqb (node_tag e) "switch" then firstn 1 passing else passing.

(** The fields that a node hands down to the nodes built under it. *)
Definition same_context (n d : Node) : Prop :=
  url d = url n /\ style d = style n /\ url_fetcher d = url_fetcher n
  /\ unsafe d = unsafe n.

Definition no_inherit_entry (m : gmap string string) : Prop :=
  forall a, m !! a <> Some "inherit"%string.

(** What holds of the node built from an element without text below. *)
Definition plain_build (env : Collaborators) (e : Element) (st : Style) (f : UrlFetcher)
    (par : option Node) (url : option string) (unsafe : bool)
    (preset : option string) (n : Node) : Prop :=
  n = set_children (bare_node env e st f par url unsafe preset) (children n)
  /\ Forall2
       (fun ce c =>
          c = set_children
                (bare_node env ce st f
                   (Some (bare_node env e st f par url unsafe preset))
                   None unsafe None)
                (children c))
       (kept_children env e) (children n)
  /\ Forall (same_context n) (subnodes n)
  /\ (no_inherit_entry (attributes n) ->
      Forall (fun d => no_inherit_entry (attributes d)) (subnodes n))
  /\ sublist (element <$> subnodes n) (iter_subtree e).

(** The entries of a node when the cascade is done and the two
    replacements are still to come. *)
Definition node_cascade (env : Collaborators) (e : Element) (st : Style)
    (par : option Node) : gmap string string :=
  cascade par (attrib e) (st.1 e) (inline_declarations env e).1
    (st.2 e) (inline_declarations env e).2.

(** The keyword arguments [kw] with another reference cache. *)
Definition with_cache (kw : Kwargs) (c : option TreeCache) : Kwargs :=
  mkKwargs (kw_bytestring kw) (kw_file_obj kw) (kw_url kw) (kw_unsafe kw)
    (kw_parent kw) (kw_parent_children kw) c (kw_url_fetcher kw).

(** The element [e] has the id [id]. *)
Definition has_id (id : string) (e : Element) : Prop :=
  element_id_of e = Some id.

(** A document with two elements of the id [a]. *)
Definition twice_a_document : Element :=
  mkElement 0 "svg" "" ∅ None None
    [ mkElement 1 "g" "" ∅ None None
        [ leaf 2 "rect" {[ "id" := "a" ]}%string ];
      leaf 3 "circle" {[ "id" := "a" ]}%string ].

(** What a load of the fragment [zzz] of [doc.svg] is called with. *)
Definition missing_fragment_kwargs : Kwargs :=
  mkKwargs None None (Some "doc.svg#zzz"%string) false None false None None.

(** What the first of the two loads of [doc.svg#a] is called with. *)
Definition first_load_kwargs : Kwargs :=
  mkKwargs None None (Some "doc.svg#a"%string) false None false (Some ∅) None.

(** *** Values made of text and URL notations *)

(** The three ways a URL is written in a notation. *)
Inductive url_form : Type :=
| DoubleQuoted
| SingleQuoted
| Bare.

(** The character that ends the body of a URL. *)
Definition url_closer (f : url_form) : ascii :=
  match f with
  | DoubleQuoted => QUOTE
  | SingleQuoted => APOS
  | Bare => RPAREN
  end.

(** The text of a URL body that [q] ends: escaped characters, each a
    backslash and one character that is no newline, and characters other
    than [q] and the backslash. *)
Fixpoint body_text (q : ascii) (l : list ascii) : Prop :=
  match l with
  | [] => True
  | c :: l' =>
      if Ascii.eqb c BACKSLASH then
        match l' with
        | d :: l'' => d <> LF /\ body_text q l''
        | [] => False
        end
      else c <> q /\ body_text q l'
  end.

(** A notation as it is written: the function name, the blanks after the
    opening parenthesis, the URL in one of the three forms, and the
    blanks before the closing parenthesis. *)
Record UrlNotation : Type := mkUrlNotation {
  un_name : list ascii;
  un_blanks_before : list ascii;
  un_form : url_form;
  un_body : list ascii;
  un_blanks_after : list ascii
}.

Definition url_inner (f : url_form) (body : list ascii) : list ascii :=
  match f with
  | DoubleQuoted => QUOTE :: body ++ [QUOTE]
  | SingleQuoted => APOS :: body ++ [APOS]
  | Bare => body
  end.

Definition notation_chars (n : UrlNotation) : list ascii :=
  un_name n ++ LPAREN :: un_blanks_before n
    ++ url_inner (un_form n) (un_body n) ++ un_blanks_after n ++ [RPAREN].

(** The start of a bare URL: no blank and no quote. *)
Definition bare_start (l : list ascii) : Prop :=
  match l with
  | c :: _ => isspace c = false /\ c <> QUOTE /\ c <> APOS
  | [] => True
  end.

(** The name is url in any case, the blanks are blanks, the body is one
    that its closing character ends; in the bare form the body runs up
    to the closing parenthesis. *)
Definition well_formed_notation (n : UrlNotation) : Prop :=
  lower_chars (un_name n) = chars "url"
  /\ Forall (fun c => isspace c = true) (un_blanks_before n)
  /\ Forall (fun c => isspace c = true) (un_blanks_after n)
  /\ body_text (url_closer (un_form n)) (un_body n)
  /\ (un_form n = Bare ->
      un_blanks_after n = [] /\ bare_start (un_body n ++ [RPAREN])).

(** A value: pieces of text, each followed by a notation, and a last
    piece of text. *)
Definition value_chars (pieces : list (list ascii * UrlNotation))
    (last : list ascii) : list ascii :=
  flat_map (fun p => p.1 ++ notation_chars p.2) pieces ++ last.

(** The same value with its text in lowercase and its notations as they
    are. *)
Definition lowered_value_chars (pieces : list (list ascii * UrlNotation))
    (last : list ascii) : list ascii :=
  flat_map (fun p => lower_chars p.1 ++ notation_chars p.2) pieces
    ++ lower_chars last.

(** The characters of [s], which starts at position [i] of the subject,
    with those that the matches [ms] have in their group 1 lowered. *)
Definition lower_covered (ms : list Re.MatchObj) (i : nat)
    (s : list ascii) : list ascii :=
  imap (fun j c =>
          if existsb (in_non_url_part (i + j)) ms then lower_char c else c)
    s.

(** *** Words for the loads *)





(** *** More of the small world *)







(** Bytes that begin with the gzip magic number. *)
Definition zipped_bytes : bytes := [Byte.x1f; Byte.x8b; Byte.x08].





(** A load of zipped bytes. *)
Definition zipped_load_kwargs : Kwargs :=
  mkKwargs (Some zipped_bytes) None (Some "doc.svg"%string) false None false
    None None.

(** * Properties *)

#[local] Arguments Ascii.eqb : simpl never.

(** ** The matcher *)

Section EngineFacts.

Import Re.

Lemma or_else_Some {A} (a b : option A) (x : A) :
  or_else a b = Some x -> a = Some x \/ b = Some x.
Proof. destruct a; simpl; auto. Qed.

Lemma resumes_here {A} i s g ids (k : cont A) x :
  k i s g = Some x -> resumes i s g ids k x.
Proof.
  intros H. exists i, g. rewrite Nat.sub_diag. simpl.
  repeat split; auto; lia.
Qed.

(** A continuation reached from a later position is reached from here. *)
Lemma resumes_trans {A} i s g ids (k : cont A) x i1 g1 :
  i <= i1 -> i1 <= i + length s ->
  (forall n, ~ In n ids -> group_span n g1 = group_span n g) ->
  resumes i1 (skipn (i1 - i) s) g1 ids k x ->
  resumes i s g ids k x.
Proof.
  intros Hle Hlen Hg (i2 & g2 & H1 & H2 & Hk & Hg2).
  exists i2, g2. rewrite length_skipn in H2.
  rewrite drop_drop in Hk.
  replace (i1 - i + (i2 - i1)) with (i2 - i) in Hk by lia.
  repeat split; auto; try lia.
  intros n Hn. rewrite Hg2, Hg; auto.
Qed.

Lemma star_loop_inv {A} body greedy ids (k : cont A) :
  (forall i s g k' x, body i s g k' = Some x -> resumes i s g ids k' x) ->
  forall n i s g x,
    star_loop body greedy k n i s g = Some x -> resumes i s g ids k x.
Proof.
  intros Hbody. induction n as [|n IH]; intros i s g x H; simpl in H.
  - by apply resumes_here.
  - assert (Hcases :
      body i s g (fun i' s' g' =>
        if i <? i' then star_loop body greedy k n i' s' g' else None)
        = Some x \/ k i s g = Some x).
    { destruct greedy; apply or_else_Some in H; tauto. }
    destruct Hcases as [Hagain | Hk]; [|by apply resumes_here].
    apply Hbody in Hagain as (i1 & g1 & H1 & H2 & Hk & Hg).
    destruct (Nat.ltb_spec i i1) as [Hlt|]; [|discriminate].
    apply IH in Hk. eapply resumes_trans; eauto.
Qed.

Lemma rmatch_inv {A} r : forall i s g (k : cont A) x,
  rmatch r i s g k = Some x -> resumes i s g (group_ids r) k x.
Proof.
  induction r as [p| | |r1 IH1 r2 IH2|r1 IH1 r2 IH2|greedy r IH|n r IH];
    intros i s g k x H; simpl in H.
  - destruct s as [|c s]; [discriminate|].
    destruct (p c); [|discriminate].
    exists (S i), g. replace (S i - i) with 1 by lia. simpl.
    repeat split; auto; lia.
  - destruct (i =? 0); [|discriminate]. by apply resumes_here.
  - apply resumes_here.
    destruct s as [|c [|c' s]]; try discriminate; auto.
    destruct (Ascii.eqb c LF); [auto|discriminate].
  - apply IH1 in H as (i1 & g1 & H1 & H2 & Hk & Hg).
    apply IH2 in Hk.
    destruct Hk as (i2 & g2 & H3 & H4 & Hk & Hg2).
    rewrite length_skipn in H4. rewrite drop_drop in Hk.
    replace (i1 - i + (i2 - i1)) with (i2 - i) in Hk by lia.
    exists i2, g2. repeat split; auto; try lia.
    intros n Hn. simpl in Hn. rewrite in_app_iff in Hn.
    rewrite Hg2, Hg; tauto.
  - apply or_else_Some in H as [H|H]; [apply IH1 in H|apply IH2 in H];
      destruct H as (i1 & g1 & H1 & H2 & Hk & Hg);
      exists i1, g1; repeat split; auto;
      intros n Hn; apply Hg; simpl in Hn; rewrite in_app_iff in Hn; tauto.
  - eapply star_loop_inv; [|exact H].
    intros i' s' g' k' x' H'. by apply IH.
  - apply IH in H as (i1 & g1 & H1 & H2 & Hk & Hg).
    exists i1, ((n, (i, i1)) :: g1). repeat split; auto.
    intros m Hm. simpl in Hm. simpl.
    destruct (Nat.eqb_spec m n) as [->|]; [tauto|].
    apply Hg. tauto.
Qed.

Lemma match_at_inv r adv i s m :
  match_at r adv i s = Some m ->
  m_start m = i /\ i <= m_end m /\ m_end m <= i + length s
  /\ (adv = true -> m_end m <> i)
  /\ forall n, ~ In n (group_ids r) -> group_span n (m_groups m) = None.
Proof.
  unfold match_at. intros H.
  apply rmatch_inv in H as (j & g & H1 & H2 & Hk & Hg).
  destruct adv; simpl in Hk.
  - destruct (Nat.eqb_spec j i); [discriminate|].
    injection Hk as <-. simpl. repeat split; auto.
  - injection Hk as <-. simpl. repeat split; auto; discriminate.
Qed.

Lemma search_inv r : forall s adv i m,
  search r adv i s = Some m ->
  i <= m_start m /\ m_start m <= m_end m /\ m_end m <= i + length s
  /\ (adv = true -> m_end m <> i)
  /\ matched r m.
Proof.
  induction s as [|c s IH]; intros adv i m H; simpl in H.
  - destruct (match_at r adv i []) eqn:E; [|discriminate].
    injection H as ->.
    pose proof (match_at_inv _ _ _ _ _ E) as (<- & ? & ? & ? & _).
    repeat split; auto. by exists adv, [].
  - destruct (match_at r adv i (c :: s)) eqn:E.
    + injection H as ->.
      pose proof (match_at_inv _ _ _ _ _ E) as (<- & ? & ? & ? & _).
      repeat split; auto. by exists adv, (c :: s).
    + apply IH in H as (? & ? & ? & ? & ?). simpl.
      repeat split; auto; lia.
Qed.

Lemma scan_matched r : forall fuel adv i s,
  Forall (matched r) (scan fuel r adv i s).
Proof.
  induction fuel as [|fuel IH]; intros adv i s; simpl; [constructor|].
  destruct (search r adv i s) eqn:E; [|constructor].
  constructor; [|apply IH].
  by apply search_inv in E as (_ & _ & _ & _ & ?).
Qed.

(** The bound of [finditer] is never reached: more fuel changes nothing. *)
Lemma scan_fuel r : forall fuel1 fuel2 (adv : bool) i (s : list ascii),
  2 * length s + (if adv then 0 else 1) < fuel1 ->
  2 * length s + (if adv then 0 else 1) < fuel2 ->
  scan fuel1 r adv i s = scan fuel2 r adv i s.
Proof.
  induction fuel1 as [|fuel1 IH]; intros fuel2 adv i s H1 H2; [lia|].
  destruct fuel2 as [|fuel2]; [lia|]. simpl.
  destruct (search r adv i s) as [m|] eqn:E; [|done].
  f_equal. apply search_inv in E as (Ha & Hb & Hc & Hd & _).
  assert (Hlen : length (skipn (m_end m - i) s) = length s - (m_end m - i))
    by apply length_skipn.
  destruct (Nat.eqb_spec (m_end m) (m_start m)) as [Heq|Hne].
  - destruct adv.
    + specialize (Hd eq_refl). apply IH; lia.
    + apply IH; lia.
  - apply IH; lia.
Qed.

(** [finditer] with any larger bound finds the same matches. *)
Lemma finditer_fuel r s fuel :
  2 * length s + 1 < fuel -> scan fuel r false 0 s = finditer r s.
Proof. intros H. unfold finditer. apply scan_fuel; lia. Qed.

End EngineFacts.

(** ** Substitution *)

Section SubFacts.

Import Re.

Lemma take_drop_run p s : take_run p s ++ drop_run p s = s.
Proof.
  induction s as [|c s IH]; simpl; [done|].
  destruct (p c); simpl; [by rewrite IH|done].
Qed.

Lemma advance_ok (adv : bool) j i : j <> i -> adv && (j =? i) = false.
Proof.
  intros H. destruct (Nat.eqb_spec j i); [done|]. apply andb_false_r.
Qed.

Lemma match_at_chr p adv i c s :
  match_at (Chr p) adv i (c :: s)
  = if p c then Some (mkMatch i (S i) []) else None.
Proof.
  unfold match_at. cbn [rmatch]. destruct (p c); [|done].
  by rewrite advance_ok by lia.
Qed.

Lemma star_chr_run {A} p (k : cont A) x : forall s n j g,
  length s <= n ->
  k (j + length (take_run p s)) (drop_run p s) g = Some x ->
  star_loop (fun i' s' g' k' => rmatch (Chr p) i' s' g' k') true k n j s g
  = Some x.
Proof.
  induction s as [|c s IH]; intros n j g Hn Hk; simpl in Hk.
  - rewrite Nat.add_0_r in Hk. destruct n; simpl; auto.
  - destruct n as [|n]; [simpl in Hn; lia|]. simpl.
    destruct (p c) eqn:Hc.
    + destruct (Nat.ltb_spec j (S j)); [|lia].
      erewrite IH; [done| simpl in Hn; lia |].
      simpl in Hk. by replace (S j + length (take_run p s))
        with (j + S (length (take_run p s))) by lia.
    + simpl in Hk. by rewrite Nat.add_0_r in Hk.
Qed.

Lemma match_at_plus p adv i c s :
  match_at (plus (Chr p)) adv i (c :: s)
  = if p c then Some (mkMatch i (S i + length (take_run p s)) [])
    else None.
Proof.
  unfold match_at, plus. cbn [rmatch]. destruct (p c); [|done].
  apply star_chr_run; [done|].
  by rewrite advance_ok by lia.
Qed.

Lemma drop_pre_S {A} (pre : list A) c s :
  drop (S (length pre)) (pre ++ c :: s) = s.
Proof.
  replace (pre ++ c :: s) with ((pre ++ [c]) ++ s)
    by (by rewrite <- app_assoc).
  apply drop_app_length'. rewrite length_app. simpl. lia.
Qed.

Lemma class_led_chr p : class_led (Chr p) p (fun _ => 0).
Proof.
  split; [done|]. split; [|intros; lia].
  intros. rewrite match_at_chr. by rewrite Nat.add_0_r.
Qed.

Lemma class_led_plus p :
  class_led (plus (Chr p)) p (fun s => length (take_run p s)).
Proof.
  split; [done|]. split; [intros; apply match_at_plus|].
  intros s. rewrite <- (take_drop_run p s) at 2.
  rewrite length_app. lia.
Qed.

Section ClassLed.

Variables (r : regex) (p : ascii -> bool) (eat : list ascii -> nat).
Hypothesis Hled : class_led r p eat.
Variable repl : list ascii.

Lemma sub_rest_nil fuel pre : sub_rest r repl fuel pre [] = [].
Proof.
  destruct Hled as (H0 & _). unfold sub_rest.
  destruct fuel; simpl; rewrite ?H0; simpl;
    rewrite app_nil_r; apply drop_all.
Qed.

Lemma sub_rest_miss fuel pre c s :
  p c = false ->
  sub_rest r repl (S fuel) pre (c :: s)
  = c :: sub_rest r repl (S fuel) (pre ++ [c]) s.
Proof.
  destruct Hled as (_ & H1 & _). intros Hc. unfold sub_rest.
  rewrite length_app. simpl length. rewrite Nat.add_1_r.
  rewrite <- (app_assoc pre [c] s). simpl app.
  simpl scan. rewrite H1, Hc.
  destruct (search r false (S (length pre)) s) as [m|] eqn:E.
  - apply search_inv in E as (Ha & Hb & Hc' & _).
    replace (m_end m - length pre) with (S (m_end m - S (length pre)))
      by lia.
    simpl skipn. simpl sub_pieces. unfold slice.
    replace (m_start m - length pre)
      with (S (m_start m - S (length pre))) by lia.
    by rewrite drop_app_length, drop_pre_S.
  - simpl. by rewrite drop_app_length, drop_pre_S.
Qed.

Lemma sub_rest_hit fuel pre c s :
  p c = true ->
  sub_rest r repl (S fuel) pre (c :: s)
  = repl ++ sub_rest r repl fuel (pre ++ c :: firstn (eat s) s)
              (skipn (eat s) s).
Proof.
  destruct Hled as (_ & H1 & H2). intros Hc. unfold sub_rest.
  simpl scan. rewrite H1, Hc. simpl m_end. simpl m_start.
  destruct (Nat.eqb_spec (S (length pre + eat s)) (length pre)); [lia|].
  simpl sub_pieces. unfold slice. rewrite Nat.sub_diag. simpl firstn.
  simpl app. f_equal.
  replace (S (length pre + eat s) - length pre) with (S (eat s)) by lia.
  simpl skipn.
  rewrite length_app. simpl length. rewrite length_take.
  specialize (H2 s).
  replace (length pre + S (eat s `min` length s))
    with (S (length pre + eat s)) by lia.
  rewrite <- app_assoc. simpl app.
  by rewrite (take_drop (eat s) s).
Qed.

End ClassLed.

End SubFacts.

(** ** Whitespace *)

Section WhiteSpaces.

Import Re.

Lemma sub_is_sub_rest r repl s :
  sub r repl s = sub_rest r repl (2 * length s + 2) [] s.
Proof. done. Qed.

Lemma sub_rest_chr p repl : forall s pre fuel,
  2 * length s + 1 < fuel ->
  sub_rest (Chr p) repl fuel pre s
  = flat_map (fun c => if p c then repl else [c]) s.
Proof.
  pose proof (class_led_chr p) as Hled.
  induction s as [|c s IH]; intros pre fuel Hfuel.
  - by erewrite sub_rest_nil.
  - destruct fuel as [|fuel]; [lia|]. simpl in Hfuel. simpl flat_map.
    destruct (p c) eqn:Hc.
    + erewrite sub_rest_hit by eauto. simpl firstn. simpl skipn.
      rewrite IH by lia. done.
    + erewrite sub_rest_miss by eauto. rewrite IH by lia. done.
Qed.

Lemma sub_chr p repl s :
  sub (Chr p) repl s = flat_map (fun c => if p c then repl else [c]) s.
Proof. rewrite sub_is_sub_rest. apply sub_rest_chr. lia. Qed.

Lemma drop_take_run p s : skipn (length (take_run p s)) s = drop_run p s.
Proof.
  induction s as [|c s IH]; simpl; [done|].
  destruct (p c); simpl; auto.
Qed.

Lemma length_drop_run p s : length (drop_run p s) <= length s.
Proof.
  induction s as [|c s IH]; simpl; [done|].
  destruct (p c); simpl; lia.
Qed.

Lemma spec_collapse_run s :
  spec_collapse_spaces (SP :: s)
  = SP :: spec_collapse_spaces (drop_run (Ascii.eqb SP) s).
Proof.
  induction s as [|c s IH]; [done|].
  change (spec_collapse_spaces (SP :: c :: s))
    with (if Ascii.eqb SP c then spec_collapse_spaces (c :: s)
          else SP :: spec_collapse_spaces (c :: s)).
  simpl drop_run. destruct (Ascii.eqb_spec SP c) as [<-|]; [|done].
  exact IH.
Qed.

Lemma sub_rest_spaces : forall n s pre fuel,
  length s <= n ->
  2 * length s + 1 < fuel ->
  sub_rest (plus (lit SP)) [SP] fuel pre s = spec_collapse_spaces s.
Proof.
  pose proof (class_led_plus (Ascii.eqb SP)) as Hled.
  induction n as [|n IH]; intros s pre fuel Hn Hfuel.
  - destruct s; [|simpl in Hn; lia]. by erewrite sub_rest_nil.
  - destruct s as [|c s]; [by erewrite sub_rest_nil|].
    destruct fuel as [|fuel]; [lia|]. simpl in Hn, Hfuel.
    destruct (Ascii.eqb_spec SP c) as [<-|Hc].
    + unfold lit. erewrite sub_rest_hit; [|exact Hled|apply Ascii.eqb_refl].
      cbv beta. rewrite drop_take_run. rewrite spec_collapse_run.
      pose proof (length_drop_run (Ascii.eqb SP) s).
      fold (lit SP). rewrite IH by lia. done.
    + unfold lit. erewrite sub_rest_miss;
        [|exact Hled|by apply Ascii.eqb_neq].
      fold (lit SP). rewrite IH by lia.
      simpl. apply Ascii.eqb_neq in Hc. rewrite Hc. done.
Qed.

Lemma sub_spaces s : sub (plus (lit SP)) [SP] s = spec_collapse_spaces s.
Proof.
  rewrite sub_is_sub_rest. apply (sub_rest_spaces (length s)); lia.
Qed.

Lemma flat_map_replace (p : ascii -> bool) (x : ascii) s :
  flat_map (fun c => if p c then [x] else [c]) s
  = map (fun c => if p c then x else c) s.
Proof.
  induction s as [|c s IH]; simpl; [done|].
  rewrite IH. by destruct (p c).
Qed.

Lemma flat_map_remove (p : ascii -> bool) s :
  flat_map (fun c => if p c then [] else [c]) s
  = List.filter (fun c => negb (p c)) s.
Proof.
  induction s as [|c s IH]; simpl; [done|].
  rewrite IH. by destruct (p c).
Qed.

End WhiteSpaces.

Lemma str_chars s : str (chars s) = s.
Proof. apply string_of_list_ascii_of_string. Qed.

Lemma chars_str l : chars (str l) = l.
Proof. apply list_ascii_of_string_of_list_ascii. Qed.

(** C4.  The whitespace handler in preserve mode turns each newline,
    carriage return and tab into one space and collapses nothing; in
    default mode it removes newlines and carriage returns, turns each tab
    into a space and collapses every run of spaces to one space.  Default
    mode maps a, newline, tab, b, three spaces, c to [a b c]; preserve
    mode maps a, newline, tab, b to a, two spaces, b. *)
Theorem handle_white_spaces_modes :
  (forall s : string,
     handle_white_spaces (Some s) true = str (spec_preserve (chars s))
     /\ handle_white_spaces (Some s) false = str (spec_default (chars s)))
  /\ handle_white_spaces
       (Some (String "a" (String LF (String TAB "b   c")))) false
     = "a b c"%string
  /\ handle_white_spaces
       (Some (String "a" (String LF (String TAB "b")))) true
     = "a  b"%string.
Proof.
  split; [|split; reflexivity].
  intros s. destruct s as [|c s]; [done|].
  unfold handle_white_spaces, spec_preserve, spec_default.
  set (s0 := chars (String c s)).
  split.
  - by rewrite sub_chr, flat_map_replace.
  - rewrite sub_spaces. unfold Re.lit.
    by rewrite !sub_chr, flat_map_replace, flat_map_remove.
Qed.

(** ** URLs in style values *)

Section UrlNormalisation.

Import Re.

Lemma rmatch_Seq {A} r1 r2 i s g (k : cont A) :
  rmatch (Seq r1 r2) i s g k
  = rmatch r1 i s g (fun i' s' g' => rmatch r2 i' s' g' k).
Proof. reflexivity. Qed.

Lemma rmatch_Group {A} n r i s g (k : cont A) :
  rmatch (Group n r) i s g k
  = rmatch r i s g (fun i' s' g' => k i' s' ((n, (i, i')) :: g')).
Proof. reflexivity. Qed.

Lemma matched_regex_style m :
  matched regex_style m ->
  exists b, group_span 1 (m_groups m) = Some (m_start m, b).
Proof.
  intros (adv & s & H). unfold match_at, regex_style in H.
  rewrite rmatch_Seq, rmatch_Group in H.
  apply rmatch_inv in H as (i1 & g1 & _ & _ & H & _).
  cbv beta in H.
  apply rmatch_inv in H as (i2 & g2 & _ & _ & H & Hg).
  exists i1.
  destruct (adv && (i2 =? m_start m)); [discriminate|].
  injection H as H. rewrite <- H at 1. simpl.
  rewrite Hg by (by intros []). done.
Qed.

Lemma lookup_slice {A} (l : list A) a b j :
  slice a b l !! j = if j <? b - a then l !! (a + j) else None.
Proof.
  unfold slice. destruct (Nat.ltb_spec j (b - a)).
  - rewrite lookup_take_lt by done. apply lookup_drop.
  - by apply lookup_take_ge.
Qed.

Lemma length_slice {A} (l : list A) a b :
  length (slice a b l) = (b - a) `min` (length l - a).
Proof. unfold slice. by rewrite length_take, length_drop. Qed.

Lemma lookup_lower_chars l j :
  lower_chars l !! j = lower_char <$> l !! j.
Proof. unfold lower_chars. apply list_lookup_fmap. Qed.

(** One turn of the loop lowers the positions of group 1 and touches
    nothing else. *)
Lemma normalize_url_step_spec subject value m b :
  length value = length subject ->
  group_span 1 (m_groups m) = Some (m_start m, b) ->
  length (normalize_url_step subject value m) = length subject
  /\ forall i,
       normalize_url_step subject value m !! i
       = if in_non_url_part i m then lower_char <$> subject !! i
         else value !! i.
Proof.
  intros Hlen Hg. unfold normalize_url_step, in_non_url_part, group.
  rewrite Hg. set (a := m_start m).
  assert (Hstart : (if 0 <? a then take a value else []) = take a value).
  { destruct (Nat.ltb_spec 0 a); [done|]. by replace a with 0 by lia. }
  rewrite Hstart. clear Hstart.
  assert (HL : length (lower_chars (slice a b subject))
               = (b - a) `min` (length subject - a)).
  { unfold lower_chars. by rewrite length_map, length_slice. }
  rewrite HL. set (L := (b - a) `min` (length subject - a)) in *.
  assert (Htotal :
    length (take a value ++ lower_chars (slice a b subject)
            ++ drop (a + L) value) = length subject).
  { rewrite !length_app, length_take, length_drop, HL. lia. }
  split; [done|]. intros i.
  destruct (Nat.ltb_spec i (length subject)) as [Hi|Hi].
  2:{ rewrite (lookup_ge_None_2 _ i) by lia.
      rewrite (lookup_ge_None_2 subject i) by lia.
      rewrite (lookup_ge_None_2 value i) by lia.
      by destruct (_ && _). }
  destruct (Nat.leb_spec a i) as [Hai|Hai]; simpl.
  - rewrite lookup_app_r by (rewrite length_take; lia).
    rewrite length_take.
    replace (a `min` length value) with a by lia.
    destruct (Nat.ltb_spec i b) as [Hib|Hib].
    + rewrite lookup_app_l by lia.
      rewrite lookup_lower_chars, lookup_slice.
      destruct (Nat.ltb_spec (i - a) (b - a)); [|lia].
      by replace (a + (i - a)) with i by lia.
    + rewrite lookup_app_r by lia. rewrite HL, lookup_drop.
      f_equal. lia.
  - rewrite lookup_app_l by (rewrite length_take; lia).
    by rewrite lookup_take_lt by lia.
Qed.

Lemma normalize_url_loop subject : forall ms value,
  Forall (matched regex_style) ms ->
  length value = length subject ->
  length (fold_left (normalize_url_step subject) ms value) = length subject
  /\ forall i,
       fold_left (normalize_url_step subject) ms value !! i
       = if existsb (in_non_url_part i) ms
         then lower_char <$> subject !! i else value !! i.
Proof.
  induction ms as [|m ms IH]; intros value Hms Hlen; simpl; [done|].
  inversion Hms as [|? ? Hm Hms']; subst.
  apply matched_regex_style in Hm as (b & Hb).
  destruct (normalize_url_step_spec subject value m b Hlen Hb)
    as (Hlen' & Hstep).
  destruct (IH _ Hms' Hlen') as (Hlen'' & Hrest).
  split; [done|]. intros i. rewrite Hrest, Hstep.
  destruct (in_non_url_part i m); simpl; [|done].
  by destruct (existsb _ ms).
Qed.

(** [normalize_url_style_declaration] lowers the characters of the
    non-URL parts and leaves every other character as it is. *)
Lemma normalize_url_chars_spec value i :
  normalize_url_chars value !! i
  = if lowered_position value i then lower_char <$> value !! i
    else value !! i.
Proof.
  unfold normalize_url_chars, lowered_position.
  apply normalize_url_loop; [apply scan_matched|done].
Qed.

End UrlNormalisation.

(** ** The cascade *)

#[local] Open Scope string_scope.

(** The function name of a [url(...)] notation is not lowered. *)
Lemma normalize_url_declaration_counterexample :
  normalize_style_declaration "FILL" "URL(Foo.PNG)"
  <> ("fill", "url(Foo.PNG)").
Proof. vm_compute. discriminate. Qed.

Section Cascade.

Lemma set_declarations_app m l1 l2 :
  set_declarations m (l1 ++ l2)
  = set_declarations (set_declarations m l1) l2.
Proof. apply fold_left_app. Qed.

Lemma set_declaration_lists_concat : forall lists m,
  set_declaration_lists m lists = set_declarations m (concat lists).
Proof.
  induction lists as [|l lists IH]; intros m; simpl; [done|].
  rewrite set_declarations_app. apply IH.
Qed.

Lemma cascade_flat parent own normal normal_attr important important_attr :
  cascade parent own normal normal_attr important important_attr
  = set_declarations (update (inherited parent) own)
      (concat normal ++ normal_attr ++ concat important ++ important_attr).
Proof.
  unfold cascade. simpl fold_left.
  rewrite !set_declaration_lists_concat. simpl concat.
  rewrite ?app_nil_r. by rewrite !set_declarations_app.
Qed.

Lemma set_declarations_lookup name : forall ds m,
  set_declarations m ds !! name
  = first_some [last_declared name ds; m !! name].
Proof.
  induction ds as [|[n v] ds IH]; intros m;
    [simpl; by destruct (m !! name)|].
  change (set_declarations m ((n, v) :: ds))
    with (set_declarations (<[n := strip v]> m) ds).
  rewrite IH. simpl.
  destruct (last_declared name ds); [done|].
  destruct (String.eqb_spec n name) as [->|Hne].
  - by rewrite lookup_insert_eq.
  - by rewrite lookup_insert_ne.
Qed.

Lemma last_declared_app name : forall l1 l2,
  last_declared name (l1 ++ l2)
  = first_some [last_declared name l2; last_declared name l1].
Proof.
  induction l1 as [|d l1 IH]; intros l2; simpl.
  - by destruct (last_declared name l2).
  - rewrite IH. simpl. destruct (last_declared name l2); [done|].
    by destruct (last_declared name l1), (String.eqb d.1 name).
Qed.

Lemma last_declared_absent name ds :
  Forall (fun d : declaration => d.1 <> name) ds ->
  last_declared name ds = None.
Proof.
  induction 1 as [|d ds Hd _ IH]; simpl; [done|].
  rewrite IH. by destruct (String.eqb_spec d.1 name).
Qed.

Lemma inherited_lookup parent name :
  inherited parent !! name
  = if bool_decide (name ∈ NOT_INHERITED_ATTRIBUTES) then None
    else parent_entry parent name.
Proof.
  destruct parent as [p|]; simpl.
  - case_bool_decide as Hin.
    + apply map_lookup_filter_None. right. intros v _. simpl. tauto.
    + destruct (attributes p !! name) as [v|] eqn:E.
      * by apply map_lookup_filter_Some.
      * apply map_lookup_filter_None. by left.
  - rewrite lookup_empty. by case_bool_decide.
Qed.

Lemma update_lookup (self other : gmap string string) name :
  update self other !! name = first_some [other !! name; self !! name].
Proof.
  unfold update. rewrite lookup_union. simpl.
  by destruct (other !! name), (self !! name).
Qed.

End Cascade.

(** C5 (as amended).  A declaration of tiers 3 to 6 is assigned under its
    name as it is written, with its value stripped and not lowered: the
    last declaration for a name in the four tiers, taken in order, gives
    the entry of that name. *)
Theorem cascade_assigns_stripped_value :
  forall parent own (normal : list (list declaration))
         (normal_attr : list declaration)
         (important : list (list declaration))
         (important_attr ds1 : list declaration) (n v : string)
         (ds2 : list declaration),
    (concat normal ++ normal_attr ++ concat important ++ important_attr
     = ds1 ++ ((n, v) : declaration) :: ds2)%list ->
    Forall (fun d : declaration => d.1 <> n) ds2 ->
    cascade parent own normal normal_attr important important_attr !! n
    = Some (strip v).
Proof.
  intros parent own normal normal_attr important important_attr
    ds1 n v ds2 Hall Hlast.
  rewrite cascade_flat, Hall, set_declarations_lookup, last_declared_app.
  simpl. rewrite (last_declared_absent _ _ Hlast).
  by rewrite String.eqb_refl.
Qed.

Lemma cascade_assigns_stripped_value_witness :
  cascade None ∅ [[("fill", " RED ")]] [] [] [] !! "fill"
  = Some (strip " RED ").
Proof.
  apply (cascade_assigns_stripped_value None ∅ [[("fill", " RED ")]] [] [] []
           [] "fill" " RED " []).
  - reflexivity.
  - constructor.
Defined.

(** The cascade does not lower the value RED of a stylesheet declaration,
    which the normaliser would. *)
Lemma cascade_not_normalized_counterexample :
  cascade None ∅ [[("fill", "RED")]] [] [] []
  <> spec_cascade_normalized None ∅ [[("fill", "RED")]] [] [] [].
Proof.
  intros H. apply (f_equal (fun m => m !! "fill")) in H.
  vm_compute in H. discriminate.
Qed.

(** ** The replacements *)

Section PostProcess.

Lemma replace_inherit_lookup parent m a n :
  replace_inherit parent m a !! n
  = if bool_decide (a = n) then parent_entry parent n else m !! n.
Proof.
  unfold replace_inherit, parent_entry. case_bool_decide as H.
  - subst a. destruct parent as [p|].
    + destruct (attributes p !! n) eqn:E.
      * by rewrite lookup_insert_eq.
      * by rewrite lookup_delete_eq.
    + by rewrite lookup_delete_eq.
  - destruct parent as [p|].
    + destruct (attributes p !! a).
      * by rewrite lookup_insert_ne.
      * by rewrite lookup_delete_ne.
    + by rewrite lookup_delete_ne.
Qed.

Lemma fold_replace_inherit_lookup parent n : forall names m,
  fold_left (replace_inherit parent) names m !! n
  = if bool_decide (n ∈ names) then parent_entry parent n else m !! n.
Proof.
  induction names as [|a names IH]; intros m; cbn [fold_left].
  - case_bool_decide as H; [by apply elem_of_nil in H|done].
  - rewrite IH, replace_inherit_lookup.
    destruct (bool_decide_reflect (n ∈ names)),
      (bool_decide_reflect (a = n)),
      (bool_decide_reflect (n ∈ a :: names)); try done;
      exfalso; set_solver.
Qed.

Lemma elem_of_inherit_names (m : gmap string string) n :
  n ∈ inherit_names m <-> m !! n = Some "inherit".
Proof.
  unfold inherit_names. rewrite list_elem_of_fmap. split.
  - intros ([k v] & -> & H). apply elem_of_map_to_list in H.
    apply map_lookup_filter_Some in H as [H Hv]. simpl in *. by subst v.
  - intros H. exists (n, "inherit"). split; [done|].
    apply elem_of_map_to_list. by apply map_lookup_filter_Some.
Qed.

Lemma replace_current_color_lookup (m : gmap string string) a n :
  replace_current_color m a !! n
  = if bool_decide (a = n /\ m !! n = Some "currentColor")
    then Some (default "black" (m !! "color")) else m !! n.
Proof.
  unfold replace_current_color.
  destruct (bool_decide_reflect (m !! a = Some "currentColor")) as [H|H].
  - destruct (decide (a = n)) as [->|Hne].
    + rewrite lookup_insert_eq. by rewrite bool_decide_true.
    + rewrite lookup_insert_ne by done.
      rewrite bool_decide_false; [done|]. by intros [? _].
  - rewrite bool_decide_false; [done|]. by intros [-> ?].
Qed.

(** The loop over the colour attributes, entry by entry. *)
Lemma fold_current_color_lookup n : forall names (m : gmap string string),
  "color" ∉ names ->
  fold_left replace_current_color names m !! n
  = if bool_decide (n ∈ names /\ m !! n = Some "currentColor")
    then Some (default "black" (m !! "color")) else m !! n.
Proof.
  induction names as [|a names IH]; intros m Hc; cbn [fold_left].
  - rewrite bool_decide_false; [done|]. intros [H _].
    by apply elem_of_nil in H.
  - assert (Ha : a <> "color") by set_solver.
    assert (Hc' : "color" ∉ names) by set_solver.
    rewrite IH by done. rewrite !replace_current_color_lookup.
    rewrite (bool_decide_false (a = "color" /\ _)) by (by intros [? _]).
    set (d := default "black" (m !! "color")).
    destruct (decide (a = n)) as [->|Hne].
    + destruct (decide (m !! n = Some "currentColor")) as [Hcur|Hcur].
      * rewrite (bool_decide_true (n = n /\ _)) by done.
        rewrite (bool_decide_true (n ∈ n :: names /\ _))
          by (split; [set_solver|done]).
        by case_bool_decide.
      * rewrite (bool_decide_false (n = n /\ _)) by (by intros [_ ?]).
        rewrite (bool_decide_false (n ∈ names /\ _)) by (by intros [_ ?]).
        by rewrite (bool_decide_false (n ∈ n :: names /\ _))
          by (by intros [_ ?]).
    + rewrite (bool_decide_false (a = n /\ _)) by (by intros [? _]).
      rewrite (bool_decide_ext (n ∈ names /\ m !! n = Some "currentColor")
                 (n ∈ a :: names /\ m !! n = Some "currentColor"));
        [done|set_solver].
Qed.

Lemma post_process_lookup parent m n :
  post_process parent m !! n
  = let m1 := fold_left replace_current_color COLOR_ATTRIBUTES m in
    if bool_decide (m1 !! n = Some "inherit") then parent_entry parent n
    else m1 !! n.
Proof.
  unfold post_process. cbv zeta. rewrite fold_replace_inherit_lookup.
  by rewrite (bool_decide_ext _ _ (elem_of_inherit_names _ n)).
Qed.

Lemma color_not_a_color_attribute : "color" ∉ COLOR_ATTRIBUTES.
Proof. unfold COLOR_ATTRIBUTES. set_solver. Qed.

End PostProcess.

Section NodeAttributes.

Variable env : Collaborators.

Lemma node_attributes_eq e (st : Style) parent :
  node_attributes env e st parent
  = post_process parent
      (cascade parent (attrib e) (st.1 e) (inline_declarations env e).1
         (st.2 e) (inline_declarations env e).2).
Proof.
  unfold node_attributes.
  by destruct (inline_declarations env e), st.
Qed.

(** After the replacements no entry is [inherit], as long as the
    parent has none. *)
Lemma no_inherit_left e (st : Style) parent :
  (forall n, parent_entry parent n <> Some "inherit") ->
  forall n, node_attributes env e st parent !! n <> Some "inherit".
Proof.
  intros Hp n. rewrite node_attributes_eq, post_process_lookup. cbv zeta.
  case_bool_decide; [apply Hp|done].
Qed.

(** A colour attribute is [currentColor] after the replacements only
    when the colour itself is, or when it was [inherit] and the parent
    has it so. *)
Lemma current_color_left_only_from_color e (st : Style) parent a :
  a ∈ COLOR_ATTRIBUTES ->
  node_attributes env e st parent !! a = Some "currentColor" ->
  cascade parent (attrib e) (st.1 e) (inline_declarations env e).1
    (st.2 e) (inline_declarations env e).2 !! "color"
  = Some "currentColor"
  \/ parent_entry parent a = Some "currentColor".
Proof.
  intros Ha. rewrite node_attributes_eq, post_process_lookup. cbv zeta.
  set (m := cascade _ _ _ _ _ _).
  rewrite (fold_current_color_lookup a COLOR_ATTRIBUTES m
             color_not_a_color_attribute).
  repeat case_bool_decide; try tauto; try naive_solver.
  destruct (m !! "color"); naive_solver.
Qed.

(** A child with nothing of its own, under a parent whose inherited
    colour attributes are resolved, has the inherited entries of the
    parent and no other. *)
Lemma child_without_overrides e (st : Style) p :
  attrib e = ∅ -> st.1 e = [] -> st.2 e = [] ->
  (forall a, a ∈ COLOR_ATTRIBUTES ->
             attributes p !! a <> Some "currentColor") ->
  node_attributes env e st (Some p)
  = filter (fun kv => kv.1 ∉ NOT_INHERITED_ATTRIBUTES) (attributes p).
Proof.
  intros He Hn Hi Hcol. rewrite node_attributes_eq.
  assert (Hinline : inline_declarations env e = ([], [])).
  { unfold inline_declarations. rewrite He. by rewrite lookup_empty. }
  rewrite Hinline, Hn, Hi, He. simpl fst. simpl snd.
  unfold cascade. simpl fold_left. unfold update.
  rewrite (left_id_L ∅ (∪)).
  apply map_eq. intros n. rewrite post_process_lookup. cbv zeta.
  rewrite (fold_current_color_lookup n COLOR_ATTRIBUTES _
             color_not_a_color_attribute).
  change (filter (λ kv : string * string, kv.1 ∉ NOT_INHERITED_ATTRIBUTES)
            (attributes p)) with (inherited (Some p)).
  rewrite !inherited_lookup. simpl parent_entry.
  destruct (bool_decide_reflect (n ∈ NOT_INHERITED_ATTRIBUTES)).
  - rewrite (bool_decide_false (_ /\ _)) by (by intros [_ ?]).
    by rewrite bool_decide_false.
  - rewrite (bool_decide_false (_ /\ _))
      by (intros [Ha Hcur]; by apply Hcol in Ha).
    by destruct (bool_decide _).
Qed.

End NodeAttributes.

(** C1.  The entries of a node are those of the cascade, then the two
    replacements; the entry that the cascade leaves for a name is the one
    of the highest tier that has it: inline important declarations,
    important stylesheet declarations in order, inline normal
    declarations, normal stylesheet declarations in order, the element's
    own attribute, the parent's entry when the name is inherited.  With a
    stylesheet rule fill: red and the inline style fill:blue the fill is
    blue; with an important stylesheet declaration fill: green on top it
    is green. *)
Theorem cascade_precedence :
  (forall env e (st : Style) par,
     node_attributes env e st par
     = post_process par
         (cascade par (attrib e) (st.1 e) (inline_declarations env e).1
            (st.2 e) (inline_declarations env e).2))
  /\ (forall par own normal normal_attr important important_attr name,
        cascade par own normal normal_attr important important_attr !! name
        = first_some
            [ last_declared name important_attr;
              last_declared name (concat important);
              last_declared name normal_attr;
              last_declared name (concat normal);
              own !! name;
              if bool_decide (name ∈ NOT_INHERITED_ATTRIBUTES) then None
              else parent_entry par name ])
  /\ node_attributes sample_env blue_inline_element (red_rule, no_rule)
       None !! "fill"
     = Some "blue"
  /\ node_attributes sample_env blue_inline_element
       (red_rule, green_important) None !! "fill"
     = Some "green".
Proof.
  split; [intros; apply node_attributes_eq|].
  split; [|split; reflexivity].
  intros par own normal normal_attr important important_attr name.
  rewrite cascade_flat, set_declarations_lookup, !last_declared_app.
  rewrite update_lookup, inherited_lookup. simpl.
  destruct (last_declared name important_attr); [done|].
  destruct (last_declared name (concat important)); [done|].
  destruct (last_declared name normal_attr); [done|].
  destruct (last_declared name (concat normal)); [done|].
  destruct (own !! name); [done|].
  by destruct (if bool_decide _ then _ else _).
Qed.

(** ** Children *)

(** C2, at the failing input.  In [colour_document] the group has the
    fill [currentColor], which it inherits from the root, and the path
    under it, which has no attribute and no declaration of its own and
    for which [fill] is inherited, has the fill [red]: the entries of the
    child and of the parent differ on an inherited name. *)
Theorem inherited_fill_differs_from_parent :
  let svg := ok (build_node sample_env colour_document no_style 0
                   None None false None) in
  (fun g => attributes g !! "fill") <$> (svg ≫= child 0)
  = Some (Some "currentColor")
  /\ (fun p => attributes p !! "fill") <$> ((svg ≫= child 0) ≫= child 0)
     = Some (Some "red")
  /\ (fun p => attrib (element p)) <$> ((svg ≫= child 0) ≫= child 0)
     = Some ∅
  /\ "fill" ∉ NOT_INHERITED_ATTRIBUTES.
Proof.
  cbv zeta. repeat split; try (vm_compute; reflexivity).
  vm_compute. discriminate.
Qed.

(** C3, at the failing input.  On an element whose [color] and [fill]
    are both [currentColor] the fill is still [currentColor] after the
    replacements. *)
Theorem current_color_left_unresolved :
  node_attributes sample_env
    (leaf 0 "svg" {[ "color" := "currentColor"; "fill" := "currentColor" ]})
    no_style None !! "fill"
  = Some "currentColor".
Proof. vm_compute. reflexivity. Qed.

Section Switch.

Variable env : Collaborators.



End Switch.




(** ** Loads *)

Section NodeFields.

Variable env : Collaborators.




End NodeFields.

Section LoadFacts.

Variable env : Collaborators.

Lemma bindM_retM {A B} (x : A) (f : A -> M B) : bindM (retM x) f = f x.
Proof. unfold bindM, retM. by destruct (f x). Qed.

Lemma bindM_liftM_Ok {A B} (x : A) (f : A -> M B) :
  bindM (liftM (Ok x)) f = f x.
Proof. apply bindM_retM. Qed.

Lemma no_search_bind {A B} (m : M A) (f : A -> M B) :
  no_fragment_search m.1 ->
  (forall x, no_fragment_search (f x).1) ->
  no_fragment_search (bindM m f).1.
Proof.
  intros Hm Hf. destruct m as [l [x|e]]; simpl; [|done].
  specialize (Hf x). destruct (f x) as [l' r]. simpl in *.
  by apply Forall_app.
Qed.

Lemma no_search_lift {A} (r : Result A) : no_fragment_search (liftM r).1.
Proof. constructor. Qed.

Lemma no_search_ret {A} (x : A) : no_fragment_search (retM x).1.
Proof. constructor. Qed.

Lemma no_search_parse_input unsafe f bytestring self_url :
  no_fragment_search (parse_input env unsafe f bytestring self_url).1.
Proof.
  unfold parse_input.
  apply no_search_bind.
  - destruct bytestring as [[|]|];
      try apply no_search_ret;
      (apply no_search_bind; [by repeat constructor|]);
      intros; apply no_search_lift.
  - intros b. apply no_search_bind.
    + destruct (starts_with_gzip_magic b); [|apply no_search_ret].
      apply no_search_bind; [by repeat constructor|].
      intros; apply no_search_lift.
    + intros b'. apply no_search_bind; [by repeat constructor|].
      intros; apply no_search_lift.
Qed.

Lemma no_search_load_document kw f bytestring self_url :
  no_fragment_search (load_document env kw f bytestring self_url).1.
Proof.
  unfold load_document. destruct (kw_parent kw) as [p|].
  - destruct (same_document _ _);
      [apply no_search_ret|apply no_search_parse_input].
  - apply no_search_parse_input.
Qed.

Lemma no_search_load_style kw f tree self_url :
  no_fragment_search (load_style env kw f tree self_url).1.
Proof.
  unfold load_style. destruct (kw_parent kw) as [p|].
  - destruct (truthy_node p); [apply no_search_ret|].
    apply no_search_bind; [by repeat constructor|].
    intros; apply no_search_ret.
  - apply no_search_bind; [by repeat constructor|].
    intros; apply no_search_ret.
Qed.

(** With bytes or a byte source, [element_id] stays [None]. *)
Lemma resolve_input_bytes kw :
  is_Some (kw_bytestring kw) \/ is_Some (kw_file_obj kw) ->
  exists bytestring self_url,
    resolve_input env kw = Ok (bytestring, self_url, None).
Proof.
  unfold resolve_input. intros [[b Hb]|[fo Hf]].
  - rewrite Hb. eauto.
  - rewrite Hf. destruct (kw_bytestring kw); eauto.
Qed.

End LoadFacts.

(** C10 (as amended).  For a load that is given bytes or a readable byte
    source and that the reference cache does not answer, the fragment of
    the [url] argument is not used: no fragment is extracted, no search
    for an element is made, and the node is built from the root of the
    document. *)
Theorem bytes_input_ignores_fragment :
  forall env kw,
    is_Some (kw_bytestring kw) \/ is_Some (kw_file_obj kw) ->
    Tree_new env kw = None ->
    exists bytestring self_url,
      resolve_input env kw = Ok (bytestring, self_url, None)
      /\ Tree env kw
         = (let f := default (fetch env) (kw_url_fetcher kw) in
            tree <- load_document env kw f bytestring self_url ;;
            style <- load_style env kw f tree self_url ;;
            self <- liftM (Node_init env tree style f (kw_parent kw)
                             (kw_parent_children kw) self_url
                             (kw_unsafe kw) self_url) ;;
            retM (set_root self,
                  cache_insert (kw_tree_cache kw) (set_root self)))%load
      /\ no_fragment_search (Tree env kw).1.
Proof.
  intros env kw Hbytes Hnew.
  destruct (resolve_input_bytes env kw Hbytes) as (bs & u & Hin).
  exists bs, u. split; [done|].
  assert (Heq : Tree env kw
    = (let f := default (fetch env) (kw_url_fetcher kw) in
       tree <- load_document env kw f bs u ;;
       style <- load_style env kw f tree u ;;
       self <- liftM (Node_init env tree style f (kw_parent kw)
                        (kw_parent_children kw) u (kw_unsafe kw) u) ;;
       retM (set_root self,
             cache_insert (kw_tree_cache kw) (set_root self)))%load).
  { unfold Tree. rewrite Hnew. unfold Tree_init. rewrite Hin.
    cbv zeta. rewrite bindM_liftM_Ok.
    destruct (load_document env kw _ bs u) as [l1 [tree|e]]; [|done].
    cbn [bindM].
    destruct (load_style env kw _ tree u) as [l2 [st|e]]; [|done].
    cbn [bindM].
    change (effective_root tree None) with (@retM Element tree).
    by rewrite bindM_retM. }
  split; [exact Heq|]. rewrite Heq. cbv zeta.
  apply no_search_bind; [apply no_search_load_document|]. intros tree.
  apply no_search_bind; [apply no_search_load_style|]. intros st.
  apply no_search_bind; [apply no_search_lift|]. intros self.
  apply no_search_ret.
Qed.

Lemma bytes_input_ignores_fragment_witness :
  no_fragment_search
    (Tree sample_env
       (mkKwargs (Some [Byte.x3c]) None (Some "doc.svg#a") false None false
          None None)).1.
Proof.
  destruct (bytes_input_ignores_fragment sample_env
              (mkKwargs (Some [Byte.x3c]) None (Some "doc.svg#a") false None
                 false None None))
    as (bs & u & _ & _ & H).
  - left. by eexists.
  - reflexivity.
  - exact H.
Defined.

(** A load that is given bytes, a URL with the fragment [a] and a cache
    that holds that fragment of that URL: the node is built from the
    cached element 7, not from the root, element 100, of the document
    that the bytes parse to. *)
Lemma bytes_with_cached_fragment_counterexample :
  let kw := mkKwargs (Some [Byte.x3c]) None (Some "doc.svg#a") false None
              false (Some sample_cache) None in
  is_Some (kw_bytestring kw)
  /\ fromstring sample_env [Byte.x3c] true true = Ok fetched_document
  /\ ident fetched_document = 100
  /\ (fun r => ident (element r.1)) <$> ok (Tree sample_env kw).2 = Some 7.
Proof.
  cbv zeta. split; [by eexists|].
  repeat split; vm_compute; reflexivity.
Qed.

(** * Further properties *)

(** ** More on whitespace *)

Lemma handle_white_spaces_preserve_chars s :
  chars (handle_white_spaces (Some s) true) = spec_preserve (chars s).
Proof.
  destruct s as [|c s]; [done|].
  unfold handle_white_spaces, spec_preserve.
  by rewrite chars_str, sub_chr, flat_map_replace.
Qed.

Lemma handle_white_spaces_default_chars s :
  chars (handle_white_spaces (Some s) false) = spec_default (chars s).
Proof.
  destruct s as [|c s]; [done|].
  unfold handle_white_spaces, spec_default.
  rewrite chars_str, sub_spaces. unfold Re.lit.
  by rewrite !sub_chr, flat_map_replace, flat_map_remove.
Qed.

Lemma collapse_head c l :
  exists l', spec_collapse_spaces (c :: l) = c :: l'.
Proof.
  destruct (Ascii.eqb_spec SP c) as [<-|Hne].
  - rewrite spec_collapse_run. eauto.
  - cbn [spec_collapse_spaces]. apply Ascii.eqb_neq in Hne.
    rewrite Hne. eauto.
Qed.

Lemma collapse_no_adjacent l : no_adjacent_spaces (spec_collapse_spaces l).
Proof.
  induction l as [|c l IH]; [done|].
  cbn [spec_collapse_spaces].
  destruct (Ascii.eqb_spec SP c) as [<-|Hc].
  - destruct l as [|c' l]; [done|].
    destruct (Ascii.eqb_spec SP c') as [<-|Hc']; [exact IH|].
    destruct (collapse_head c' l) as [l' Hl']. rewrite Hl' in *.
    split; [|exact IH]. intros [_ ?]. by subst.
  - destruct l as [|c' l]; [done|].
    destruct (collapse_head c' l) as [l' Hl']. rewrite Hl' in *.
    split; [|exact IH]. intros [? _]. by subst.
Qed.

Lemma collapse_Forall (P : ascii -> Prop) l :
  Forall P l -> Forall P (spec_collapse_spaces l).
Proof.
  induction 1 as [|c l Hc Hl IH]; [done|].
  cbn [spec_collapse_spaces].
  destruct (Ascii.eqb SP c); [|by constructor].
  destruct l as [|c' l]; [by constructor|].
  destruct (Ascii.eqb SP c'); [done|by constructor].
Qed.

Lemma collapse_fixed l :
  no_adjacent_spaces l -> spec_collapse_spaces l = l.
Proof.
  induction l as [|c l IH]; [done|]. intros [Hc Hl].
  cbn [spec_collapse_spaces]. rewrite (IH Hl).
  destruct (Ascii.eqb_spec SP c) as [<-|]; [|done].
  destruct l as [|c' l]; [done|].
  destruct (Ascii.eqb_spec SP c') as [<-|]; [|done]. by destruct Hc.
Qed.

Lemma default_clean l :
  Forall (fun c => is_nl_cr_tab c = false) (spec_default l).
Proof.
  unfold spec_default. apply collapse_Forall.
  induction l as [|c l IH]; [constructor|]. cbn [List.filter].
  destruct (is_nl_cr c) eqn:E; [exact IH|]. cbn [negb map].
  constructor; [|exact IH].
  unfold is_nl_cr_tab, is_nl_cr in *.
  destruct (Ascii.eqb_spec TAB c) as [<-|Ht]; [done|].
  apply orb_false_iff in E as [-> ->]. cbn.
  destruct (Ascii.eqb_spec c TAB); [by subst|done].
Qed.

Lemma default_fixed l :
  Forall (fun c => is_nl_cr_tab c = false) l ->
  no_adjacent_spaces l -> spec_default l = l.
Proof.
  intros Hl Hadj. unfold spec_default.
  assert (Hf : List.filter (fun c => negb (is_nl_cr c)) l = l).
  { clear Hadj. induction Hl as [|c l Hc Hl IH]; [done|]. cbn.
    unfold is_nl_cr_tab in Hc. apply orb_false_iff in Hc as [Hc _].
    unfold is_nl_cr. rewrite Hc. cbn. f_equal. exact IH. }
  rewrite Hf.
  assert (Hm : map (fun c => if Ascii.eqb TAB c then SP else c) l = l).
  { clear Hf Hadj. induction Hl as [|c l Hc Hl IH]; [done|]. cbn.
    rewrite IH. unfold is_nl_cr_tab in Hc.
    apply orb_false_iff in Hc as [_ Hc].
    rewrite Ascii.eqb_sym in Hc. by rewrite Hc. }
  rewrite Hm. by apply collapse_fixed.
Qed.

(** X1.  In default mode the result of the whitespace handler holds no
    newline, no carriage return and no tab, and no space of it is
    followed by a space. *)
Theorem handle_white_spaces_default_is_clean :
  forall s : string,
    Forall (fun c => is_nl_cr_tab c = false)
      (chars (handle_white_spaces (Some s) false))
    /\ no_adjacent_spaces (chars (handle_white_spaces (Some s) false)).
Proof.
  intros s. rewrite handle_white_spaces_default_chars. split.
  - apply default_clean.
  - apply collapse_no_adjacent.
Qed.

(** X2.  The whitespace handler is idempotent in both modes: handling
    its own result again changes nothing. *)
Theorem handle_white_spaces_idempotent :
  forall (s : string) (preserve : bool),
    handle_white_spaces (Some (handle_white_spaces (Some s) preserve))
      preserve
    = handle_white_spaces (Some s) preserve.
Proof.
  intros s preserve.
  rewrite <- (str_chars (handle_white_spaces (Some (handle_white_spaces _ _)) _)).
  rewrite <- (str_chars (handle_white_spaces (Some s) preserve)) at 2.
  f_equal. destruct preserve.
  - rewrite !handle_white_spaces_preserve_chars. unfold spec_preserve.
    rewrite map_map. apply map_ext. intros c.
    destruct (is_nl_cr_tab c) eqn:E; [done|by rewrite E].
  - rewrite !handle_white_spaces_default_chars.
    apply default_fixed; [apply default_clean|].
    apply collapse_no_adjacent.
Qed.

Lemma is_blank_SP : is_blank SP = true.
Proof. reflexivity. Qed.

Lemma nl_cr_tab_is_blank c : is_nl_cr_tab c = true -> is_blank c = true.
Proof. unfold is_blank. intros ->. apply orb_true_r. Qed.

Lemma collapse_keeps_others l :
  List.filter (fun c => negb (is_blank c)) (spec_collapse_spaces l)
  = List.filter (fun c => negb (is_blank c)) l.
Proof.
  induction l as [|c l IH]; [done|]. cbn [spec_collapse_spaces].
  destruct (Ascii.eqb_spec SP c) as [<-|Hc].
  - destruct l as [|c' l]; [done|].
    destruct (Ascii.eqb SP c'); cbn [List.filter]; rewrite is_blank_SP;
      cbn [negb]; exact IH.
  - cbn [List.filter]. by rewrite IH.
Qed.

Lemma collapse_length l : length (spec_collapse_spaces l) <= length l.
Proof.
  induction l as [|c l IH]; [done|]. cbn [spec_collapse_spaces].
  destruct (Ascii.eqb SP c); [|simpl; lia].
  destruct l as [|c' l]; [done|].
  destruct (Ascii.eqb SP c'); simpl in *; lia.
Qed.

(** X3.  The whitespace handler touches blanks only: in both modes the
    characters other than space, tab, newline and carriage return stay,
    in their order.  Preserve mode keeps the length of the text, default
    mode never makes it longer, and a text that is absent gives the
    empty string. *)
Theorem handle_white_spaces_keeps_other_characters :
  forall (s : string) (preserve : bool),
    List.filter (fun c => negb (is_blank c))
      (chars (handle_white_spaces (Some s) preserve))
    = List.filter (fun c => negb (is_blank c)) (chars s)
    /\ length (chars (handle_white_spaces (Some s) true)) = length (chars s)
    /\ length (chars (handle_white_spaces (Some s) false))
       <= length (chars s)
    /\ handle_white_spaces None preserve = "".
Proof.
  intros s preserve. repeat split.
  - destruct preserve.
    + rewrite handle_white_spaces_preserve_chars. unfold spec_preserve.
      induction (chars s) as [|c l IH]; [done|]. cbn [map List.filter].
      rewrite IH. destruct (is_nl_cr_tab c) eqn:E; [|done].
      by rewrite is_blank_SP, (nl_cr_tab_is_blank c E).
    + rewrite handle_white_spaces_default_chars. unfold spec_default.
      rewrite collapse_keeps_others.
      induction (chars s) as [|c l IH]; [done|]. cbn [List.filter].
      destruct (is_nl_cr c) eqn:E; cbn [negb].
      * rewrite IH. unfold is_blank, is_nl_cr_tab.
        unfold is_nl_cr in E. rewrite E. by rewrite orb_true_r.
      * cbn [map List.filter]. rewrite IH.
        destruct (Ascii.eqb_spec TAB c) as [<-|]; [|done].
        by rewrite is_blank_SP.
  - rewrite handle_white_spaces_preserve_chars. unfold spec_preserve.
    apply length_map.
  - rewrite handle_white_spaces_default_chars. unfold spec_default.
    etrans; [apply collapse_length|]. rewrite length_map.
    apply List.filter_length_le.
Qed.

(** ** Case and the patterns *)

Ltac each_ascii c :=
  destruct c as [[] [] [] [] [] [] [] []]; vm_compute; reflexivity.

Lemma lower_char_idem c : lower_char (lower_char c) = lower_char c.
Proof. each_ascii c. Qed.

Lemma isspace_lower c : isspace (lower_char c) = isspace c.
Proof. each_ascii c. Qed.

Lemma isdigit_lower c : isdigit (lower_char c) = isdigit c.
Proof. each_ascii c. Qed.

Lemma isword_lower c : isword (lower_char c) = isword c.
Proof. each_ascii c. Qed.

Lemma eqb_LF_lower c : Ascii.eqb (lower_char c) LF = Ascii.eqb c LF.
Proof. each_ascii c. Qed.

Lemma eqb_QUOTE_lower c : Ascii.eqb (lower_char c) QUOTE = Ascii.eqb c QUOTE.
Proof. each_ascii c. Qed.

Lemma eqb_APOS_lower c : Ascii.eqb (lower_char c) APOS = Ascii.eqb c APOS.
Proof. each_ascii c. Qed.

Lemma eqb_RPAREN_lower c :
  Ascii.eqb (lower_char c) RPAREN = Ascii.eqb c RPAREN.
Proof. each_ascii c. Qed.

Lemma eqb_lower_LPAREN c :
  Ascii.eqb LPAREN (lower_char c) = Ascii.eqb LPAREN c.
Proof. each_ascii c. Qed.

Lemma eqb_lower_QUOTE c : Ascii.eqb QUOTE (lower_char c) = Ascii.eqb QUOTE c.
Proof. each_ascii c. Qed.

Lemma eqb_lower_APOS c : Ascii.eqb APOS (lower_char c) = Ascii.eqb APOS c.
Proof. each_ascii c. Qed.

Lemma eqb_lower_RPAREN c :
  Ascii.eqb RPAREN (lower_char c) = Ascii.eqb RPAREN c.
Proof. each_ascii c. Qed.

Lemma eqb_lower_BACKSLASH c :
  Ascii.eqb BACKSLASH (lower_char c) = Ascii.eqb BACKSLASH c.
Proof. each_ascii c. Qed.

Lemma eqb_lower_COMMA c : Ascii.eqb COMMA (lower_char c) = Ascii.eqb COMMA c.
Proof. each_ascii c. Qed.

Lemma eqb_COMMA_lower c : Ascii.eqb (lower_char c) COMMA = Ascii.eqb c COMMA.
Proof. each_ascii c. Qed.

Section CaseBlind.

Import Re.

Lemma case_variant_refl c : case_variant c c.
Proof. by left. Qed.

Lemma case_variant_class (p : ascii -> bool) c c' :
  (forall x, p (lower_char x) = p x) -> case_variant c c' -> p c' = p c.
Proof. intros Hp [->| ->]; [done|apply Hp]. Qed.

Lemma Forall2_case_variant_refl l : Forall2 case_variant l l.
Proof. induction l; constructor; auto using case_variant_refl. Qed.

Lemma star_loop_case {A} body body' greedy (k k' : cont A) :
  (forall i s s' g (k1 k1' : cont A),
     Forall2 case_variant s s' -> cont_blind k1 k1' ->
     body i s g k1 = body' i s' g k1') ->
  cont_blind k k' ->
  forall n i s s' g,
    Forall2 case_variant s s' ->
    star_loop body greedy k n i s g = star_loop body' greedy k' n i s' g.
Proof.
  intros Hbody Hk. induction n as [|n IH]; intros i s s' g Hs; simpl.
  - by apply Hk.
  - rewrite (Hk i s s' g Hs).
    rewrite (Hbody i s s' g
               (fun i' s1 g' =>
                  if (i <? i')%nat then star_loop body greedy k n i' s1 g'
                  else None)
               (fun i' s1 g' =>
                  if (i <? i')%nat then star_loop body' greedy k' n i' s1 g'
                  else None)); [done|done|].
    intros i' t t' g' Ht. destruct (i <? i')%nat; [by apply IH|done].
Qed.

Lemma rmatch_case {A} r :
  case_blind r ->
  forall i s s' g (k k' : cont A),
    Forall2 case_variant s s' -> cont_blind k k' ->
    rmatch r i s g k = rmatch r i s' g k'.
Proof.
  induction r as [p| | |r1 IH1 r2 IH2|r1 IH1 r2 IH2|greedy r IH|n r IH];
    intros Hr i s s' g k k' Hs Hk; cbn [rmatch].
  - destruct Hs as [|c c' t t' Hc Ht]; [done|].
    rewrite (case_variant_class p c c' Hr Hc).
    destruct (p c); [by apply Hk|done].
  - destruct (i =? 0)%nat; [by apply Hk|done].
  - destruct Hs as [|c c' t t' Hc Ht]; [apply Hk; constructor|].
    destruct Ht as [|c2 c2' t2 t2' Hc2 Ht2].
    + rewrite (case_variant_class (fun x => Ascii.eqb x LF) c c'
                 eqb_LF_lower Hc).
      destruct (Ascii.eqb c LF); [|done].
      apply Hk. constructor; [done|constructor].
    + done.
  - destruct Hr as [Hr1 Hr2]. apply IH1; [done..|].
    intros i' t t' g' Ht. by apply IH2.
  - destruct Hr as [Hr1 Hr2].
    by rewrite (IH1 Hr1 i s s' g k k'), (IH2 Hr2 i s s' g k k').
  - rewrite (Forall2_length _ _ _ Hs).
    apply star_loop_case; [|done..].
    intros i' t t' g' k1 k1' Ht Hk1. by apply IH.
  - apply IH; [done..|].
    intros i' t t' g' Ht. by apply Hk.
Qed.

Lemma match_at_case r adv i s s' :
  case_blind r -> Forall2 case_variant s s' ->
  match_at r adv i s = match_at r adv i s'.
Proof.
  intros Hr Hs. unfold match_at. by apply rmatch_case.
Qed.

Lemma search_case r : case_blind r ->
  forall s s' adv i, Forall2 case_variant s s' ->
  search r adv i s = search r adv i s'.
Proof.
  intros Hr. induction s as [|c s IH]; intros s' adv i Hs;
    inversion Hs as [|? c' ? t' Hc Ht]; subst; cbn [search].
  - done.
  - rewrite (match_at_case r adv i (c :: s) (c' :: t') Hr Hs).
    destruct (match_at r adv i (c' :: t')); [done|]. by apply IH.
Qed.

Lemma scan_case r : case_blind r ->
  forall fuel adv i s s', Forall2 case_variant s s' ->
  scan fuel r adv i s = scan fuel r adv i s'.
Proof.
  intros Hr. induction fuel as [|fuel IH]; intros adv i s s' Hs; [done|].
  cbn [scan]. rewrite (search_case r Hr s s' adv i Hs).
  destruct (search r adv i s'); [|done]. f_equal.
  apply IH. by apply Forall2_drop.
Qed.

(** A case-blind pattern finds the same matches in a text and in a case
    variant of it. *)
Lemma finditer_case r s s' :
  case_blind r -> Forall2 case_variant s s' ->
  finditer r s = finditer r s'.
Proof.
  intros Hr Hs. unfold finditer.
  rewrite (Forall2_length _ _ _ Hs). by apply scan_case.
Qed.

Lemma case_blind_regex_style : case_blind regex_style.
Proof.
  unfold regex_style, url_notation, url_body, lit_nocase, lit, not_lit, dot,
    space.
  cbn [case_blind]. repeat split; intros c;
    rewrite ?lower_char_idem, ?eqb_LF_lower, ?eqb_QUOTE_lower,
      ?eqb_APOS_lower, ?eqb_RPAREN_lower, ?eqb_lower_LPAREN,
      ?eqb_lower_QUOTE, ?eqb_lower_APOS, ?eqb_lower_RPAREN,
      ?eqb_lower_BACKSLASH, ?isspace_lower; done.
Qed.

Lemma case_blind_regex_font : case_blind regex_font.
Proof.
  unfold regex_font, font_token, font_token_tail, font_separator, plus,
    lit, space.
  cbn [case_blind]. repeat split; intros c;
    rewrite ?isspace_lower, ?isdigit_lower, ?isword_lower,
      ?eqb_lower_COMMA, ?eqb_COMMA_lower; done.
Qed.

End CaseBlind.

(** ** Stripping and case *)

Section Strip.

Lemma lstrip_length l : length (lstrip_chars l) <= length l.
Proof.
  induction l as [|c l IH]; [done|]. simpl.
  destruct (isspace c); simpl; lia.
Qed.

Lemma lstrip_length_eq l :
  length (lstrip_chars l) = length l -> lstrip_chars l = l.
Proof.
  destruct l as [|c l]; [done|]. simpl.
  destruct (isspace c); [|done].
  pose proof (lstrip_length l). simpl. lia.
Qed.

Lemma lstrip_head l : head_not_space (lstrip_chars l).
Proof.
  induction l as [|c l IH]; [done|]. simpl.
  by destruct (isspace c) eqn:E.
Qed.

Lemma lstrip_fixed l : head_not_space l -> lstrip_chars l = l.
Proof. destruct l as [|c l]; [done|]. simpl. by intros ->. Qed.

Lemma lstrip_suffix l : exists k, lstrip_chars l = drop k l.
Proof.
  induction l as [|c l [k IH]]; [by exists 0|]. simpl.
  destruct (isspace c); [by exists (S k)|by exists 0].
Qed.

Lemma rstrip_prefix l : exists m, rstrip_chars l = take m l.
Proof.
  unfold rstrip_chars. destruct (lstrip_suffix (rev l)) as [k Hk].
  exists (length l - k). rewrite Hk.
  by rewrite skipn_rev, rev_involutive.
Qed.

Lemma rstrip_length l : length (rstrip_chars l) <= length l.
Proof.
  unfold rstrip_chars. rewrite length_rev.
  etrans; [apply lstrip_length|]. by rewrite length_rev.
Qed.

Lemma rstrip_length_eq l :
  length (rstrip_chars l) = length l -> rstrip_chars l = l.
Proof.
  unfold rstrip_chars. rewrite length_rev. intros H.
  rewrite lstrip_length_eq by (by rewrite length_rev).
  apply rev_involutive.
Qed.

Lemma rstrip_head l : head_not_space l -> head_not_space (rstrip_chars l).
Proof.
  destruct (rstrip_prefix l) as [m ->].
  destruct l as [|c l], m; done.
Qed.

Lemma rstrip_idem l : rstrip_chars (rstrip_chars l) = rstrip_chars l.
Proof.
  unfold rstrip_chars. rewrite rev_involutive.
  by rewrite (lstrip_fixed _ (lstrip_head _)).
Qed.

Lemma strip_chars_idem l : strip_chars (strip_chars l) = strip_chars l.
Proof.
  unfold strip_chars.
  rewrite (lstrip_fixed (rstrip_chars _)).
  - apply rstrip_idem.
  - apply rstrip_head, lstrip_head.
Qed.

Lemma strip_length_eq l :
  length (strip_chars l) = length l -> strip_chars l = l.
Proof.
  unfold strip_chars. intros H.
  pose proof (rstrip_length (lstrip_chars l)) as H1.
  pose proof (lstrip_length l) as H2.
  assert (Hl : lstrip_chars l = l) by (apply lstrip_length_eq; lia).
  rewrite Hl in *. by apply rstrip_length_eq.
Qed.

Lemma lstrip_variant l l' :
  Forall2 case_variant l l' ->
  Forall2 case_variant (lstrip_chars l) (lstrip_chars l').
Proof.
  induction 1 as [|c c' l l' Hc Hl IH]; [constructor|]. simpl.
  rewrite (case_variant_class isspace c c' isspace_lower Hc).
  destruct (isspace c); [done|by constructor].
Qed.

Lemma rev_variant l l' :
  Forall2 case_variant l l' -> Forall2 case_variant (rev l) (rev l').
Proof.
  induction 1 as [|c c' l l' Hc Hl IH]; [constructor|]. simpl.
  apply Forall2_app; [done|]. constructor; [done|constructor].
Qed.

Lemma strip_variant l l' :
  Forall2 case_variant l l' ->
  Forall2 case_variant (strip_chars l) (strip_chars l').
Proof.
  intros H. unfold strip_chars, rstrip_chars.
  by apply rev_variant, lstrip_variant, rev_variant, lstrip_variant.
Qed.

Lemma stripped_variant l l' :
  stripped l -> Forall2 case_variant l l' -> stripped l'.
Proof.
  unfold stripped. intros Hl H. apply strip_length_eq.
  rewrite <- (Forall2_length _ _ _ (strip_variant l l' H)).
  rewrite Hl. by apply Forall2_length in H.
Qed.

Lemma lower_variant l : Forall2 case_variant l (lower_chars l).
Proof.
  induction l as [|c l IH]; [constructor|]. simpl.
  constructor; [by right|done].
Qed.

Lemma lower_chars_idem l : lower_chars (lower_chars l) = lower_chars l.
Proof.
  unfold lower_chars. rewrite map_map. apply map_ext, lower_char_idem.
Qed.

End Strip.

#[local] Close Scope string_scope.

(** ** What the normaliser does to a value *)

Section Lowering.

Import Re.

Lemma lowered_on_variant cov l l' :
  lowered_on cov l l' -> Forall2 case_variant l l'.
Proof.
  intros H. apply Forall2_lookup. intros j. rewrite (H j).
  destruct (l !! j) as [c|], (cov j); simpl; constructor;
    [by right|by left].
Qed.

Lemma lowered_on_idem cov l l' l'' :
  lowered_on cov l l' -> lowered_on cov l' l'' -> l'' = l'.
Proof.
  intros H H'. apply list_eq. intros j. rewrite (H' j), (H j).
  destruct (cov j); [|done].
  destruct (l !! j); simpl; [|done]. by rewrite lower_char_idem.
Qed.

Lemma scan_chained r : forall fuel adv i s,
  chained (i + length s) i (scan fuel r adv i s).
Proof.
  induction fuel as [|fuel IH]; intros adv i s; [done|]. cbn [scan].
  destruct (search r adv i s) as [m|] eqn:E; [|done].
  apply search_inv in E as (Ha & Hb & Hc & _ & _).
  cbn [chained]. repeat split; [done..|].
  specialize (IH (m_end m =? m_start m) (m_end m) (skipn (m_end m - i) s)).
  rewrite length_skipn in IH.
  by replace (m_end m + (length s - (m_end m - i))) with (i + length s)
    in IH by lia.
Qed.

Lemma not_in_span_before n e ms p :
  chained n e ms -> p < e -> existsb (in_span p) ms = false.
Proof.
  revert e. induction ms as [|m ms IH]; intros e Hch Hp; [done|].
  destruct Hch as (Ha & Hb & Hc & Hch). cbn [existsb].
  rewrite (IH (m_end m)) by (done || lia).
  unfold in_span. destruct (Nat.leb_spec (m_start m) p); [lia|done].
Qed.

(** [sub] with the lowercase of each match lowers the spans of the
    matches and leaves the rest. *)
Lemma sub_pieces_lowered s0 : forall ms i,
  chained (length s0) i ms ->
  forall j,
    sub_pieces (fun m => lower_chars (group0 s0 m)) s0 i ms !! j
    = if existsb (in_span (i + j)) ms then lower_char <$> s0 !! (i + j)
      else s0 !! (i + j).
Proof.
  induction ms as [|m ms IH]; intros i Hch j; cbn [sub_pieces existsb].
  - apply lookup_drop.
  - destruct Hch as (Ha & Hb & Hc & Hch).
    set (a := m_start m) in *. set (e := m_end m) in *.
    assert (L1 : length (slice i a s0) = a - i)
      by (rewrite length_slice; lia).
    assert (L2 : length (lower_chars (group0 s0 m)) = e - a).
    { unfold lower_chars, group0. rewrite length_map, length_slice.
      fold a e. lia. }
    unfold in_span at 1. fold a e.
    destruct (Nat.ltb_spec j (a - i)) as [Hj|Hj].
    + rewrite lookup_app_l by lia. rewrite lookup_slice.
      destruct (Nat.ltb_spec j (a - i)); [|lia].
      destruct (Nat.leb_spec a (i + j)); [lia|]. cbn [andb orb].
      by rewrite (not_in_span_before _ e ms (i + j) Hch) by lia.
    + rewrite lookup_app_r by lia. rewrite L1.
      destruct (Nat.leb_spec a (i + j)); [|lia]. cbn [andb].
      destruct (Nat.ltb_spec (i + j) e) as [He|He].
      * rewrite lookup_app_l by lia. cbn [orb].
        rewrite lookup_lower_chars. unfold group0. fold a e.
        rewrite lookup_slice.
        destruct (Nat.ltb_spec (j - (a - i)) (e - a)); [|lia].
        by replace (a + (j - (a - i))) with (i + j) by lia.
      * rewrite lookup_app_r by lia. rewrite L2, IH by done. cbn [orb].
        by replace (e + (j - (a - i) - (e - a))) with (i + j) by lia.
Qed.

Lemma method_chars_spec f l :
  lowered_on (method_cover f l) l (method_chars f l).
Proof.
  intros j. destruct f as [[| |]|]; cbn [method_chars method_cover].
  - done.
  - unfold sub_with. rewrite sub_pieces_lowered; [done|].
    apply (scan_chained regex_font _ false 0 l).
  - apply normalize_url_chars_spec.
  - apply lookup_lower_chars.
Qed.

Lemma method_cover_case f l l' j :
  Forall2 case_variant l l' -> method_cover f l j = method_cover f l' j.
Proof.
  intros H. destruct f as [[| |]|]; cbn [method_cover]; [done| |  |done].
  - by rewrite (finditer_case regex_font l l' case_blind_regex_font H).
  - unfold lowered_position.
    by rewrite (finditer_case regex_style l l' case_blind_regex_style H).
Qed.

Lemma method_chars_variant f l : Forall2 case_variant l (method_chars f l).
Proof. eapply lowered_on_variant, method_chars_spec. Qed.

Lemma method_chars_idem f l :
  method_chars f (method_chars f l) = method_chars f l.
Proof.
  eapply (lowered_on_idem (method_cover f l) l); [apply method_chars_spec|].
  intros j.
  rewrite (method_cover_case f l (method_chars f l) j
             (method_chars_variant f l)).
  apply method_chars_spec.
Qed.

End Lowering.

Lemma normalize_style_declaration_chars name value :
  normalize_style_declaration name value
  = (lower (strip name),
     str (method_chars
            (style_method_of (lower (strip name))
               CASE_SENSITIVE_STYLE_METHODS)
            (strip_chars (chars value)))).
Proof.
  unfold normalize_style_declaration.
  destruct (style_method_of _ _) as [[| |]|]; cbn; unfold strip, lower,
    normalize_font_style_declaration, normalize_url_style_declaration,
    normalize_noop_style_declaration; by rewrite ?chars_str.
Qed.

(** X4.  On names and values of code points below 256: the normaliser
    changes nothing but the case of letters and the
    blanks at the ends: the name it gives is the stripped name in
    lowercase, and the value it gives has the length of the stripped
    value and, at each position, the character of the stripped value or
    its lowercase. *)
Theorem normalize_style_declaration_changes_case_only :
  forall name value : string,
    (normalize_style_declaration name value).1 = lower (strip name)
    /\ Forall2 case_variant (chars (strip value))
         (chars (normalize_style_declaration name value).2).
Proof.
  intros name value. rewrite normalize_style_declaration_chars.
  split; [done|]. cbn [snd]. unfold strip. rewrite !chars_str.
  apply method_chars_variant.
Qed.

(** X5.  On names and values of code points below 256, the normaliser
    is idempotent: a normalised name and value are
    left as they are by a second normalisation. *)
Theorem normalize_style_declaration_idempotent :
  forall name value : string,
    normalize_style_declaration (normalize_style_declaration name value).1
      (normalize_style_declaration name value).2
    = normalize_style_declaration name value.
Proof.
  intros name value. rewrite (normalize_style_declaration_chars name value).
  cbn [fst snd]. rewrite normalize_style_declaration_chars.
  assert (Hname : lower (strip (lower (strip name))) = lower (strip name)).
  { unfold lower, strip. rewrite !chars_str.
    assert (Hs : stripped (lower_chars (strip_chars (chars name)))).
    { eapply stripped_variant; [apply strip_chars_idem|].
      apply lower_variant. }
    rewrite Hs. by rewrite lower_chars_idem. }
  rewrite Hname. f_equal. f_equal. rewrite chars_str.
  set (f := style_method_of _ _).
  assert (Hs : stripped (method_chars f (strip_chars (chars value)))).
  { eapply stripped_variant; [apply strip_chars_idem|].
    apply method_chars_variant. }
  rewrite Hs. apply method_chars_idem.
Qed.

(** ** Values without a URL *)

Section NoUrl.

Import Re.

Lemma url_notation_needs_paren {A} i s g (k : cont A) :
  Forall (fun c => c <> LPAREN) s -> rmatch url_notation i s g k = None.
Proof.
  intros Hs. unfold url_notation. rewrite !rmatch_Seq.
  unfold lit_nocase, lit.
  destruct s as [|c1 s]; [done|]. cbn [rmatch].
  destruct (Ascii.eqb (lower_char c1) _); [|done].
  destruct s as [|c2 s]; [done|]. cbn [rmatch].
  destruct (Ascii.eqb (lower_char c2) _); [|done].
  destruct s as [|c3 s]; [done|]. cbn [rmatch].
  destruct (Ascii.eqb (lower_char c3) _); [|done].
  destruct s as [|c4 s]; [done|]. cbn [rmatch].
  do 3 apply Forall_inv_tail in Hs. apply Forall_inv in Hs.
  destruct (Ascii.eqb_spec LPAREN c4); [by subst|done].
Qed.

Lemma plain_no_paren s :
  Forall plain_char s -> Forall (fun c => c <> LPAREN) s.
Proof. intros H. eapply Forall_impl; [exact H|]. by intros c [_ ?]. Qed.

Lemma lazy_dots_to_end {A} (K : cont A) : forall s n i,
  Forall plain_char s ->
  (forall i' c t g', Forall plain_char (c :: t) -> K i' (c :: t) g' = None) ->
  length s <= n ->
  star_loop (fun i' s' g' k' => rmatch dot i' s' g' k') false K n i s []
  = K (i + length s) [] [].
Proof.
  induction s as [|c s IH]; intros n i Hs HK Hn.
  - rewrite Nat.add_0_r. destruct n; [done|].
    cbn [star_loop rmatch dot not_lit]. by destruct (K i [] []).
  - destruct n as [|n]; [simpl in Hn; lia|].
    cbn [star_loop]. rewrite HK by done.
    cbn [or_else rmatch dot not_lit].
    apply Forall_cons in Hs as [[Hc _] Hs].
    destruct (Ascii.eqb_spec c LF); [done|]. cbn [negb].
    destruct (Nat.ltb_spec i (S i)); [|lia].
    rewrite IH by (done || simpl in Hn; lia).
    cbn [length]. by replace (S i + length s) with (i + S (length s)) by lia.
Qed.

Lemma match_at_plain adv i s :
  Forall plain_char s ->
  adv = false \/ s <> [] ->
  match_at regex_style adv i s
  = Some (mkMatch i (i + length s) [(1, (i, i + length s))]).
Proof.
  intros Hs Hadv. unfold match_at, regex_style.
  rewrite rmatch_Seq, rmatch_Group. cbn [rmatch].
  rewrite lazy_dots_to_end; [| done | | done].
  - rewrite url_notation_needs_paren by constructor. cbn [or_else].
    destruct Hadv as [->|Hne]; [done|].
    rewrite advance_ok; [done|]. destruct s; [done|]. simpl. lia.
  - intros i' c t g' Hct.
    rewrite url_notation_needs_paren by (by apply plain_no_paren).
    cbn [or_else].
    destruct t; [|done]. apply Forall_inv in Hct as [Hc _].
    by destruct (Ascii.eqb_spec c LF).
Qed.

(** The matches after the first start at its end or later, and their
    group 1 starts where they start. *)
Lemma later_matches_do_not_cover n e ms j :
  chained n e ms -> Forall (matched regex_style) ms -> j < e ->
  existsb (in_non_url_part j) ms = false.
Proof.
  revert e. induction ms as [|m ms IH]; intros e Hch Hms Hj; [done|].
  destruct Hch as (Ha & Hb & Hc & Hch).
  apply Forall_cons in Hms as [Hm Hms]. cbn [existsb].
  rewrite (IH (m_end m)) by (done || lia).
  apply matched_regex_style in Hm as [b Hb']. unfold in_non_url_part.
  rewrite Hb'. destruct (Nat.leb_spec (m_start m) j); [lia|done].
Qed.

(** When the first match is known, so are the positions that are
    lowered. *)
Lemma lowered_position_first s m j :
  search regex_style false 0 s = Some m ->
  j < m_end m ->
  lowered_position s j = in_non_url_part j m.
Proof.
  intros Hm Hj. unfold lowered_position, finditer.
  pose proof (scan_chained regex_style (2 * length s + 2) false 0 s) as Hch.
  pose proof (scan_matched regex_style (2 * length s + 2) false 0 s) as Hms.
  replace (2 * length s + 2) with (S (2 * length s + 1)) in * by lia.
  cbn [scan] in *. rewrite Hm in *.
  destruct Hch as (_ & _ & _ & Hch). apply Forall_cons in Hms as [_ Hms].
  cbn [existsb].
  rewrite (later_matches_do_not_cover _ _ _ j Hch Hms Hj).
  apply orb_false_r.
Qed.

Lemma normalize_url_chars_plain s :
  Forall plain_char s -> normalize_url_chars s = lower_chars s.
Proof.
  intros Hs. apply list_eq. intros j.
  rewrite normalize_url_chars_spec, lookup_lower_chars.
  destruct (s !! j) as [c|] eqn:E; [|by destruct (lowered_position s j)].
  apply lookup_lt_Some in E.
  rewrite (lowered_position_first s
             (mkMatch 0 (length s) [(1, (0, length s))]) j); [| |done].
  - unfold in_non_url_part. cbn [m_groups group_span Nat.eqb].
    destruct (Nat.ltb_spec j (length s)); [done|lia].
  - destruct s; cbn [search]; by rewrite match_at_plain by auto.
Qed.

Lemma lazy_dots_blocked {A} (K : cont A) b : forall a n i,
  Forall (fun c => c <> LPAREN) a ->
  (forall i' a' g',
     Forall (fun c => c <> LPAREN) a' -> K i' (a' ++ LF :: b) g' = None) ->
  star_loop (fun i' s' g' k' => rmatch dot i' s' g' k') false K n i
    (a ++ LF :: b) []
  = None.
Proof.
  induction a as [|c a IH]; intros n i Ha HK.
  - destruct n; cbn [star_loop]; rewrite (HK i []) by done; [done|].
    cbn [or_else app rmatch dot not_lit].
    by rewrite Ascii.eqb_refl.
  - destruct n; cbn [star_loop]; rewrite (HK i (c :: a)) by done; [done|].
    cbn [or_else]. change ((c :: a) ++ LF :: b) with (c :: (a ++ LF :: b)).
    cbn [rmatch dot not_lit].
    destruct (negb (Ascii.eqb c LF)); [|done].
    destruct (Nat.ltb_spec i (S i)); [|lia].
    apply IH; [by apply Forall_inv_tail in Ha|done].
Qed.

Lemma match_at_blocked adv i a b :
  Forall (fun c => c <> LPAREN) a -> Forall (fun c => c <> LPAREN) b ->
  b <> [] ->
  match_at regex_style adv i (a ++ LF :: b) = None.
Proof.
  intros Ha Hb Hne. unfold match_at, regex_style.
  rewrite rmatch_Seq, rmatch_Group. cbn [rmatch].
  apply lazy_dots_blocked; [done|]. intros i' a' g' Ha'.
  rewrite url_notation_needs_paren.
  - cbn [or_else]. destruct a' as [|c [|c' a']], b; done.
  - apply Forall_app. split; [done|]. by constructor.
Qed.

Lemma search_blocked b : forall a adv i,
  Forall (fun c => c <> LPAREN) a -> Forall (fun c => c <> LPAREN) b ->
  b <> [] ->
  search regex_style adv i (a ++ LF :: b)
  = search regex_style false (i + length a + 1) b.
Proof.
  induction a as [|c a IH]; intros adv i Ha Hb Hne.
  - pose proof (match_at_blocked adv i [] b Ha Hb Hne) as H0.
    cbn [app] in H0. cbn [app search]. rewrite H0.
    cbn [length]. by replace (i + 0 + 1) with (S i) by lia.
  - change ((c :: a) ++ LF :: b) with (c :: (a ++ LF :: b)).
    pose proof (match_at_blocked adv i (c :: a) b Ha Hb Hne) as H0.
    change ((c :: a) ++ LF :: b) with (c :: (a ++ LF :: b)) in H0.
    cbn [search]. rewrite H0.
    rewrite IH by (done || by apply Forall_inv_tail in Ha).
    cbn [length]. f_equal. lia.
Qed.

(** What the URL method does to a value with a newline in it, when no
    parenthesis is there: the text before the newline stays. *)
Lemma normalize_url_chars_newline a b :
  Forall plain_char a -> Forall plain_char b -> b <> [] ->
  normalize_url_chars (a ++ LF :: b) = a ++ LF :: lower_chars b.
Proof.
  intros Ha Hb Hne. set (s := a ++ LF :: b).
  assert (Hlen : length s = length a + 1 + length b).
  { unfold s. rewrite length_app. simpl. lia. }
  assert (Hm : search regex_style false 0 s
               = Some (mkMatch (length a + 1) (length s)
                         [(1, (length a + 1, length s))])).
  { unfold s. rewrite search_blocked by (done || by apply plain_no_paren).
    cbn [Nat.add]. destruct b as [|c b]; [done|]. cbn [search].
    rewrite match_at_plain by auto. fold s. by rewrite Hlen. }
  apply list_eq. intros j. rewrite normalize_url_chars_spec.
  destruct (Nat.ltb_spec j (length s)) as [Hj|Hj].
  2:{ rewrite (lookup_ge_None_2 s j) by done.
      rewrite lookup_ge_None_2; [by destruct (lowered_position s j)|].
      rewrite length_app. cbn [length]. unfold lower_chars.
      rewrite length_map. lia. }
  rewrite (lowered_position_first s _ j Hm) by done.
  unfold in_non_url_part. cbn [m_groups group_span Nat.eqb].
  destruct (Nat.ltb_spec j (length s)); [|lia]. rewrite andb_true_r.
  unfold s.
  destruct (Nat.leb_spec (length a + 1) j) as [Haj|Haj].
  - rewrite !lookup_app_r by lia.
    replace (j - length a) with (S (j - length a - 1)) by lia.
    cbn [lookup list_lookup]. by rewrite lookup_lower_chars.
  - destruct (decide (j < length a)).
    + by rewrite !lookup_app_l by lia.
    + rewrite !lookup_app_r by lia.
      by replace (j - length a) with 0 by lia.
Qed.

End NoUrl.

Lemma strip_chars_Forall (P : ascii -> Prop) l :
  Forall P l -> Forall P (strip_chars l).
Proof.
  intros H. unfold strip_chars.
  destruct (rstrip_prefix (lstrip_chars l)) as [m ->].
  destruct (lstrip_suffix l) as [k ->].
  by apply Forall_take, Forall_drop.
Qed.

Lemma url_property_method name :
  In name URL_PROPERTIES ->
  style_method_of name CASE_SENSITIVE_STYLE_METHODS = Some Url.
Proof.
  unfold URL_PROPERTIES. simpl. intros H.
  repeat (destruct H as [H|H]; [by rewrite <- H|]). destruct H.
Qed.

(** X6.  For a URL-bearing property, a value that holds no opening
    parenthesis and no newline is lowered as a whole, as the value of an
    ordinary property is. *)
Theorem url_property_without_url_is_lowered :
  forall name value : string,
    In (lower (strip name)) URL_PROPERTIES ->
    Forall plain_char (chars value) ->
    normalize_style_declaration name value
    = (lower (strip name), lower (strip value)).
Proof.
  intros name value Hname Hvalue.
  rewrite normalize_style_declaration_chars.
  rewrite (url_property_method _ Hname). cbn [method_chars].
  rewrite normalize_url_chars_plain by (by apply strip_chars_Forall).
  unfold lower, strip. by rewrite !chars_str.
Qed.

Lemma url_property_without_url_is_lowered_witness :
  normalize_style_declaration " Stroke" " Dark RED "
  = ("stroke", "dark red")%string.
Proof.
  rewrite (url_property_without_url_is_lowered " Stroke" " Dark RED ").
  - reflexivity.
  - vm_compute. tauto.
  - repeat constructor; discriminate.
Defined.

(** X7.  The URL method stops at a newline: in a value made of a text, a
    newline and a further text that is not empty, with no opening
    parenthesis and no other newline, the text before the newline keeps
    its case and only the text after it is lowered. *)
Theorem normalize_url_keeps_case_before_newline :
  forall a b : list ascii,
    Forall plain_char a -> Forall plain_char b -> b <> [] ->
    normalize_url_style_declaration (str (a ++ LF :: b))
    = str (a ++ LF :: lower_chars b).
Proof.
  intros a b Ha Hb Hne. unfold normalize_url_style_declaration.
  rewrite chars_str. by rewrite normalize_url_chars_newline.
Qed.

Lemma normalize_url_keeps_case_before_newline_witness :
  normalize_url_style_declaration (str (chars "RED" ++ LF :: chars "BLUE"))
  = str (chars "RED" ++ LF :: chars "blue").
Proof.
  apply (normalize_url_keeps_case_before_newline (chars "RED") (chars "BLUE")).
  - repeat constructor; discriminate.
  - repeat constructor; discriminate.
  - discriminate.
Defined.

#[local] Open Scope string_scope.

(** ** The nodes of a document without text *)

Lemma Element_subtree_ind (P : Element -> Prop) :
  (forall e, Forall P (echildren e) -> P e) -> forall e, P e.
Proof.
  intros H. fix IH 1. intros [i ln ns a t tl cs]. apply H. simpl.
  induction cs as [|c cs IHcs]; constructor; [apply IH|exact IHcs].
Qed.

Lemma iter_subtree_eq e :
  iter_subtree e = e :: flat_map iter_subtree (echildren e).
Proof. by destruct e. Qed.

Lemma subnodes_eq n : subnodes n = n :: flat_map subnodes (children n).
Proof. by destruct n. Qed.

Lemma no_text_element_inv e :
  no_text_element e ->
  is_text_tag (node_tag e) = false /\ Forall no_text_element (echildren e).
Proof.
  unfold no_text_element. rewrite iter_subtree_eq.
  intros H. apply Forall_cons in H as [H1 H2]. split; [done|].
  induction (echildren e) as [|c cs IH]; [constructor|].
  cbn [flat_map] in H2. apply Forall_app in H2 as [Hc Hcs].
  constructor; [done|by apply IH].
Qed.

Section Children.

Variable env : Collaborators.

(** The loop over the child elements is a map over those it keeps. *)
Lemma build_children_mapR build (sw : bool) cs :
  build_children env build sw cs
  = mapR build
      (if sw then firstn 1 (List.filter (match_features env) cs)
       else List.filter (match_features env) cs).
Proof.
  induction cs as [|c cs IH]; [by destruct sw|].
  cbn [build_children List.filter].
  destruct (match_features env c) eqn:E.
  - destruct sw; cbn [firstn mapR].
    + by destruct (build c).
    + change (build_children env build false cs)
        with (build_children env build false cs) in IH.
      destruct (build c); [|done]. cbn [bindR].
      by rewrite <- IH.
  - exact IH.
Qed.

Lemma mapR_Forall2 {A B} (f : A -> Result B) (Q : A -> B -> Prop) l :
  Forall (fun x => exists y, f x = Ok y /\ Q x y) l ->
  exists ys, mapR f l = Ok ys /\ Forall2 Q l ys.
Proof.
  induction 1 as [|x l (y & Hy & HQ) _ (ys & Hys & HF)].
  - exists []. by split; [|constructor].
  - exists (y :: ys). cbn [mapR]. rewrite Hy, Hys. by split; [|constructor].
Qed.

Lemma mapR_Ok_Forall2 {A B} (f : A -> Result B) l : forall ys,
  mapR f l = Ok ys -> Forall2 (fun x y => f x = Ok y) l ys.
Proof.
  induction l as [|x l IH]; intros ys; cbn [mapR].
  - intros [= <-]. constructor.
  - destruct (f x) as [y|] eqn:E; [|discriminate]. cbn [bindR].
    destruct (mapR f l) as [ys'|]; [|discriminate]. cbn [bindR].
    intros [= <-]. constructor; [done|by apply IH].
Qed.

Lemma build_node_eq e st f par url unsafe preset :
  is_text_tag (node_tag e) = false ->
  build_node env e st f par url unsafe preset
  = bindR
      (mapR
         (fun c =>
            build_node env c st f
              (Some (bare_node env e st f par url unsafe preset))
              None unsafe None)
         (kept_children env e))
      (fun cs =>
         Ok (set_children (bare_node env e st f par url unsafe preset) cs)).
Proof.
  intros Htext. destruct e as [i ln ns a t tl cs].
  cbn [build_node]. unfold init_self. cbv zeta.
  set (e := mkElement i ln ns a t tl cs) in *.
  change (tag (bare_node env e st f par url unsafe preset))
    with (node_tag e).
  rewrite Htext. cbn [bindR].
  change (children (bare_node env e st f par url unsafe preset))
    with (@nil Node).
  cbv iota.
  change (tag (bare_node env e st f par url unsafe preset))
    with (node_tag e).
  rewrite build_children_mapR. unfold kept_children.
  change (echildren e) with cs.
  by destruct (node_tag e =? "switch").
Qed.

End Children.

Lemma Forall_flat_map {A B} (R : B -> Prop) (g : A -> list B) l :
  Forall (fun x => Forall R (g x)) l -> Forall R (flat_map g l).
Proof.
  induction 1 as [|x l Hx _ IH]; [constructor|].
  cbn [flat_map]. by apply Forall_app.
Qed.

Lemma sublist_flat_map {A B C} (g : A -> list C) (h : B -> list C)
    (Q : B -> A -> Prop) :
  forall (all kept : list B), sublist kept all ->
  forall cs, Forall2 Q kept cs ->
  (forall b a, Q b a -> sublist (g a) (h b)) ->
  sublist (flat_map g cs) (flat_map h all).
Proof.
  intros all kept Hsub. induction Hsub as [|b k a' Hs IH|b k a' Hs IH];
    intros cs HF HQ.
  - inversion HF; subst. constructor.
  - inversion HF as [|? c ? cs' Hbc HF']; subst. cbn [flat_map].
    apply sublist_app; [by apply HQ|by apply IH].
  - cbn [flat_map]. apply sublist_inserts_l. by apply IH.
Qed.

Lemma sublist_filter {A} (p : A -> bool) (l : list A) :
  sublist (List.filter p l) l.
Proof.
  induction l as [|x l IH]; [constructor|].
  cbn [List.filter]. destruct (p x); by constructor.
Qed.

Lemma sublist_firstn {A} n (l : list A) : sublist (firstn n l) l.
Proof. apply sublist_take. Qed.

Lemma Forall_sublist_of {A} (P : A -> Prop) (l k : list A) :
  sublist l k -> Forall P k -> Forall P l.
Proof.
  induction 1 as [|x l k _ IH|x l k _ IH]; intros H; [done|..];
    apply Forall_cons in H as [Hx H]; [constructor|]; auto.
Qed.

Lemma fmap_flat_map {A B C} (g : B -> C) (h : A -> list B) l :
  g <$> flat_map h l = flat_map (fun x => g <$> h x) l.
Proof.
  induction l as [|x l IH]; [done|].
  cbn [flat_map]. by rewrite fmap_app, IH.
Qed.

Section PlainDocument.

Variable env : Collaborators.

Lemma kept_children_sublist e : sublist (kept_children env e) (echildren e).
Proof.
  unfold kept_children. cbv zeta.
  destruct (node_tag e =? "switch").
  - etrans; [apply sublist_firstn|apply sublist_filter].
  - apply sublist_filter.
Qed.

Lemma same_context_trans a b c :
  same_context a b -> same_context b c -> same_context a c.
Proof.
  unfold same_context. intros (-> & -> & -> & ->) (-> & -> & -> & ->).
  done.
Qed.

Lemma build_node_plain e :
  no_text_element e ->
  forall st f par url unsafe preset,
    exists n, build_node env e st f par url unsafe preset = Ok n
              /\ plain_build env e st f par url unsafe preset n.
Proof.
  induction e as [e IH] using Element_subtree_ind.
  intros Hplain st f par url unsafe preset.
  apply no_text_element_inv in Hplain as [Htext Hcs].
  rewrite build_node_eq by done.
  set (self := bare_node env e st f par url unsafe preset).
  assert (Hkept :
    Forall (fun ce => exists c,
              build_node env ce st f (Some self) None unsafe None = Ok c
              /\ plain_build env ce st f (Some self) None unsafe None c)
      (kept_children env e)).
  { pose proof (kept_children_sublist e) as Hsub.
    apply (Forall_sublist_of _ _ _ Hsub).
    rewrite Forall_forall in IH, Hcs. apply Forall_forall.
    intros ce Hce. apply IH; [done|by apply Hcs]. }
  apply mapR_Forall2 in Hkept as (cs & -> & HF). cbn [bindR].
  exists (set_children self cs). split; [done|].
  unfold plain_build. change (children (set_children self cs)) with cs.
  split; [done|]. split.
  { eapply Forall2_impl; [exact HF|]. by intros ce c (H & _). }
  rewrite subnodes_eq. change (children (set_children self cs)) with cs.
  assert (Hctx : forall ce c,
            plain_build env ce st f (Some self) None unsafe None c ->
            same_context (set_children self cs) c).
  { intros ce c (-> & _). by repeat split. }
  split; [|split].
  - constructor; [by repeat split|].
    apply Forall_flat_map.
    apply (Forall2_Forall_r _ _ _ _ HF). apply Forall_forall.
    intros c _ ce Hb. pose proof Hb as (_ & _ & Hsame & _).
    eapply Forall_impl; [exact Hsame|]. intros d Hd.
    eapply same_context_trans; [by eapply Hctx|done].
  - intros Hno. constructor; [done|].
    apply Forall_flat_map.
    apply (Forall2_Forall_r _ _ _ _ HF). apply Forall_forall.
    intros c _ ce Hb. pose proof Hb as (Hc & _ & _ & Hinh & _).
    apply Hinh. rewrite Hc. cbn [set_children attributes bare_node].
    intros a. apply (no_inherit_left env c st (Some self)).
    intros b. exact (Hno b).
  - cbn [fmap list_fmap]. rewrite iter_subtree_eq.
    change (element (set_children self cs)) with e.
    apply sublist_skip.
    rewrite fmap_flat_map.
    eapply (sublist_flat_map _ _ _ _ _ (kept_children_sublist e) _ HF).
    intros ce c Hb. by destruct Hb as (_ & _ & _ & _ & Hs).
Qed.


End PlainDocument.

(** X8.  A node whose tag is neither one of the text tags nor switch,
    built outside the mode that copies the children of the parent, has
    for children the nodes built, in order, from the child elements that
    pass the feature test; each is built with the node as it is before it
    has children for parent, with the matchers, the fetch function and the
    unsafe flag of the node and without a URL of its own; the first child
    that fails to build makes the node fail with the same error. *)
Theorem children_built_from_passing_elements :
  forall env e st f par url unsafe preset,
    is_text_tag (node_tag e) = false ->
    node_tag e <> "switch" ->
    Node_init env e st f par false url unsafe preset
    = bindR
        (mapR
           (fun c =>
              build_node env c st f
                (Some (bare_node env e st f par url unsafe preset))
                None unsafe None)
           (List.filter (match_features env) (echildren e)))
        (fun cs =>
           Ok (set_children (bare_node env e st f par url unsafe preset) cs)).
Proof.
  intros env e st f par url unsafe preset Htext Hsw.
  unfold Node_init. rewrite build_node_eq by done.
  unfold kept_children. cbv zeta.
  by rewrite (proj2 (String.eqb_neq _ _) Hsw).
Qed.

Lemma children_built_from_passing_elements_witness :
  child_idents
    <$> ok (Node_init sample_env
              (mkElement 0 "g" "" ∅ None None
                 [ leaf 1 "rect" ∅;
                   leaf 2 "g" {[ "systemLanguage" := "xx" ]};
                   leaf 3 "circle" ∅ ])
              no_style 0 None false None false None)
  = Some [1; 3].
Proof.
  rewrite (children_built_from_passing_elements sample_env
             (mkElement 0 "g" "" ∅ None None
                [ leaf 1 "rect" ∅;
                  leaf 2 "g" {[ "systemLanguage" := "xx" ]};
                  leaf 3 "circle" ∅ ])
             no_style 0 None None false None).
  - vm_compute. reflexivity.
  - reflexivity.
  - discriminate.
Defined.

(** X9.  A document that holds no text element always builds, and every
    node of the result, at any depth, has the URL, the matchers, the fetch
    function and the unsafe flag of the top node, which are the matchers,
    the fetch function and the flag of the call. *)
Theorem plain_document_nodes_share_context :
  forall env e st f par u uns preset,
    no_text_element e ->
    exists n,
      Node_init env e st f par false u uns preset = Ok n
      /\ style n = st /\ url_fetcher n = f /\ unsafe n = uns
      /\ Forall (same_context n) (subnodes n).
Proof.
  intros env e st f par u uns preset He.
  destruct (build_node_plain env e He st f par u uns preset)
    as (n & Hn & Hself & _ & Hctx & _).
  exists n. unfold Node_init. split; [done|].
  split; [by rewrite Hself|]. split; [by rewrite Hself|].
  split; [by rewrite Hself|done].
Qed.

Lemma plain_document_nodes_share_context_witness :
  exists n,
    Node_init sample_env colour_document no_style 0 None false None false
      (Some "a.svg") = Ok n
    /\ style n = no_style /\ url_fetcher n = 0 /\ unsafe n = false
    /\ Forall (same_context n) (subnodes n).
Proof.
  apply (plain_document_nodes_share_context sample_env colour_document
           no_style 0 None None false (Some "a.svg")).
  unfold no_text_element. cbn. repeat constructor.
Defined.

(** X10.  In a document that holds no text element, built under a parent
    that has no entry inherit (or under no parent), no node at any depth
    keeps an entry whose value is inherit. *)
Theorem plain_document_has_no_inherit_entry :
  forall env e st f par u uns preset,
    no_text_element e ->
    (forall a, parent_entry par a <> Some "inherit") ->
    exists n,
      Node_init env e st f par false u uns preset = Ok n
      /\ Forall (fun d => no_inherit_entry (attributes d)) (subnodes n).
Proof.
  intros env e st f par u uns preset He Hpar.
  destruct (build_node_plain env e He st f par u uns preset)
    as (n & Hn & Hself & _ & _ & Hinh & _).
  exists n. unfold Node_init. split; [done|].
  apply Hinh. rewrite Hself. cbn [set_children attributes bare_node].
  intros a. by apply (no_inherit_left env e st par).
Qed.

Lemma plain_document_has_no_inherit_entry_witness :
  exists n,
    Node_init sample_env colour_document no_style 0 None false None false
      None = Ok n
    /\ Forall (fun d => no_inherit_entry (attributes d)) (subnodes n).
Proof.
  apply (plain_document_has_no_inherit_entry sample_env colour_document
           no_style 0 None None false None).
  - unfold no_text_element. cbn. repeat constructor.
  - intros a. discriminate.
Defined.

(** X11.  In a document that holds no text element, the elements that the
    nodes of the result are built from, read parents first, follow the
    document order: they are the elements of the document with some left
    out, none repeated and none moved. *)
Theorem plain_document_nodes_follow_document_order :
  forall env e st f par u uns preset,
    no_text_element e ->
    exists n,
      Node_init env e st f par false u uns preset = Ok n
      /\ sublist (element <$> subnodes n) (iter_subtree e).
Proof.
  intros env e st f par u uns preset He.
  destruct (build_node_plain env e He st f par u uns preset)
    as (n & Hn & _ & _ & _ & _ & Hsub).
  by exists n.
Qed.

Lemma plain_document_nodes_follow_document_order_witness :
  exists n,
    Node_init sample_env switch_document no_style 0 None false None false
      None = Ok n
    /\ sublist (element <$> subnodes n) (iter_subtree switch_document).
Proof.
  apply (plain_document_nodes_follow_document_order sample_env
           switch_document no_style 0 None None false None).
  unfold no_text_element. cbn. repeat constructor.
Defined.

(** ** The two replacements, and the children copied from the parent *)

(** X12.  The two replacements that follow the cascade, entry by entry,
    whatever the order in which the entries are walked: an entry of a
    colour attribute whose value is currentColor takes the value of
    color, or black when there is no color; then an entry whose value is
    inherit, also one that has just taken it from color, takes the entry
    that the parent has for the same name, inherited name or not, and is
    removed when there is no parent or the parent has no such entry; any
    other entry stays as the cascade left it. *)
Theorem replacements_entry_by_entry :
  forall env e (st : Style) par a,
    node_attributes env e st par !! a
    = let m := node_cascade env e st par in
      let v :=
        if bool_decide (a ∈ COLOR_ATTRIBUTES /\ m !! a = Some "currentColor")
        then Some (default "black" (m !! "color"))
        else m !! a in
      if bool_decide (v = Some "inherit") then parent_entry par a else v.
Proof.
  intros env e st par a. rewrite node_attributes_eq, post_process_lookup.
  cbv zeta. fold (node_cascade env e st par).
  by rewrite (fold_current_color_lookup a COLOR_ATTRIBUTES _
                color_not_a_color_attribute).
Qed.

(** X13.  In the mode that copies the children of the parent, a node
    that is no text node fails without a parent; with a parent whose
    children hold no text element it has one child for each child of the
    parent, in order, built from the element of that child with the node
    as it is before it has children for parent: the child elements of its
    own element are not looked at. *)
Theorem parent_children_rebuilds_children_of_parent :
  forall env e st f p u uns preset,
    is_text_tag (node_tag e) = false ->
    Forall (fun c => no_text_element (element c)) (children p) ->
    Node_init env e st f None true u uns preset = Err NoParent
    /\ exists n,
         Node_init env e st f (Some p) true u uns preset = Ok n
         /\ element <$> children n = element <$> children p
         /\ Forall
              (fun c =>
                 parent c
                 = Some (bare_node env e st f (Some p) u uns preset))
              (children n).
Proof.
  intros env e st f p u uns preset Htext Hp.
  unfold Node_init, init_self. cbv zeta.
  change (tag (bare_node env e st f None u uns preset)) with (node_tag e).
  change (tag (bare_node env e st f (Some p) u uns preset))
    with (node_tag e).
  rewrite Htext. cbn [bindR]. split; [done|].
  set (self := bare_node env e st f (Some p) u uns preset).
  assert (H : Forall (fun c => exists d,
              build_node env (node_element c) st f (Some self) None uns None
              = Ok d
              /\ (element d = element c /\ parent d = Some self))
            (children p)).
  { eapply Forall_impl; [exact Hp|]. intros c Hc.
    destruct (build_node_plain env (element c) Hc st f (Some self) None
                uns None) as (d & Hd & Hself & _).
    exists d. split; [done|]. rewrite Hself. by split. }
  apply mapR_Forall2 in H as (cs & -> & HF). cbn [bindR].
  exists (set_children self cs). split; [done|].
  change (children (set_children self cs)) with cs.
  clear -HF. induction HF as [|c d cs' ds [He Hpar] _ [IH1 IH2]].
  - by split.
  - split; [cbn [fmap list_fmap] in *; by rewrite He, IH1|by constructor].
Qed.

Lemma parent_children_rebuilds_children_of_parent_witness :
  Node_init sample_env switch_document no_style 0 None true None false None
  = Err NoParent
  /\ exists n,
       Node_init sample_env switch_document no_style 0
         (Some node_with_child) true None false None = Ok n
       /\ element <$> children n = element <$> children node_with_child
       /\ Forall
            (fun c =>
               parent c
               = Some (bare_node sample_env switch_document no_style 0
                         (Some node_with_child) None false None))
            (children n).
Proof.
  apply (parent_children_rebuilds_children_of_parent sample_env
           switch_document no_style 0 node_with_child None false None).
  - reflexivity.
  - unfold no_text_element. cbn. repeat constructor.
Defined.

(** ** More on loads *)

Section MoreLoadFacts.

Variable env : Collaborators.

Lemma bindM_Ok_inv {A B} (m : M A) (f : A -> M B) l y :
  bindM m f = (l, Ok y) ->
  exists l1 x l2, m = (l1, Ok x) /\ f x = (l2, Ok y) /\ l = (l1 ++ l2)%list.
Proof.
  destruct m as [l1 [x|e]]; cbn [bindM]; [|discriminate].
  destruct (f x) as [l2 r] eqn:E. intros [= <- ->].
  by exists l1, x, l2.
Qed.

Lemma liftM_Ok_inv {A} (r : Result A) l x :
  liftM r = (l, Ok x) -> r = Ok x /\ l = [].
Proof. unfold liftM. by intros [= <- ->]. Qed.

Lemma events_bind {A B} (P : event -> Prop) (m : M A) (f : A -> M B) :
  Forall P m.1 -> (forall x, Forall P (f x).1) -> Forall P (bindM m f).1.
Proof.
  intros Hm Hf. destruct m as [l [x|e]]; simpl; [|done].
  specialize (Hf x). destruct (f x) as [l' r]. simpl in *.
  by apply Forall_app.
Qed.

(** What [__init__] leaves in the fields of a node, in either mode. *)
Lemma init_self_context e st f par u uns preset n :
  init_self env e st f par u uns preset = Ok n ->
  parent n = par /\ unsafe n = uns /\ url_fetcher n = f /\ style n = st
  /\ element n = e /\ xml_tree n = e /\ root n = false
  /\ url n = match par with
             | Some p => or_str u (node_url p)
             | None => preset
             end.
Proof.
  unfold init_self. cbv zeta.
  destruct (is_text_tag _).
  - destruct (text_children env _ e); simpl; [|discriminate].
    intros [= <-]. by repeat split.
  - intros [= <-]. by repeat split.
Qed.

Lemma build_node_context e st f par u uns preset n :
  build_node env e st f par u uns preset = Ok n ->
  parent n = par /\ unsafe n = uns /\ url_fetcher n = f /\ style n = st
  /\ element n = e /\ xml_tree n = e /\ root n = false
  /\ url n = match par with
             | Some p => or_str u (node_url p)
             | None => preset
             end.
Proof.
  destruct e as [i ln ns a t tl cs]. cbn [build_node].
  destruct (init_self env _ st f par u uns preset) as [self|] eqn:E;
    [|discriminate].
  apply init_self_context in E. cbn [bindR].
  destruct (children self).
  - destruct (build_children _ _ _ _); [|discriminate].
    cbn [bindR]. intros [= <-]. exact E.
  - intros [= <-]. exact E.
Qed.

Lemma Node_init_context e st f par pc u uns preset n :
  Node_init env e st f par pc u uns preset = Ok n ->
  parent n = par /\ unsafe n = uns /\ url_fetcher n = f /\ style n = st
  /\ element n = e /\ xml_tree n = e /\ root n = false
  /\ url n = match par with
             | Some p => or_str u (node_url p)
             | None => preset
             end.
Proof.
  unfold Node_init. destruct pc; [|apply build_node_context].
  destruct (init_self env e st f par u uns preset) as [self|] eqn:E;
    [|discriminate].
  apply init_self_context in E. cbn [bindR].
  destruct par as [p|]; [|discriminate].
  destruct (mapR _ _); [|discriminate]. cbn [bindR].
  intros [= <-]. exact E.
Qed.

(** The steps of a load that [__init__] answers. *)
Lemma Tree_init_inv kw l n c :
  Tree_init env kw = (l, Ok (n, c)) ->
  exists bs su eid tree st root self l1 l2 l3,
    resolve_input env kw = Ok (bs, su, eid)
    /\ load_document env kw (default (fetch env) (kw_url_fetcher kw)) bs su
       = (l1, Ok tree)
    /\ load_style env kw (default (fetch env) (kw_url_fetcher kw)) tree su
       = (l2, Ok st)
    /\ effective_root tree eid = (l3, Ok root)
    /\ Node_init env root st (default (fetch env) (kw_url_fetcher kw))
         (kw_parent kw) (kw_parent_children kw) su (kw_unsafe kw) su
       = Ok self
    /\ n = set_root self
    /\ c = cache_insert (kw_tree_cache kw) (set_root self)
    /\ l = (l1 ++ l2 ++ l3)%list.
Proof.
  unfold Tree_init. cbv zeta. intros H.
  apply bindM_Ok_inv in H as (l0 & [[bs su] eid] & l' & H0 & H & ->).
  apply liftM_Ok_inv in H0 as [H0 ->].
  apply bindM_Ok_inv in H as (l1 & tree & l'' & H1 & H & ->).
  apply bindM_Ok_inv in H as (l2 & st & l''' & H2 & H & ->).
  apply bindM_Ok_inv in H as (l3 & root & l4 & H3 & H & ->).
  apply bindM_Ok_inv in H as (l5 & self & l6 & H4 & H & ->).
  apply liftM_Ok_inv in H4 as [H4 ->].
  unfold retM in H. injection H as <- <- <-.
  exists bs, su, eid, tree, st, root, self, l1, l2, l3.
  repeat split; try done.
  cbn [app]. by rewrite !app_nil_r.
Qed.

Lemma cache_key_has_fragment kw u i :
  cache_key env kw = Some (u, i) -> is_Some i.
Proof.
  unfold cache_key. destruct (kw_url kw) as [s|]; [|discriminate].
  destruct (truthy s); [|discriminate]. cbv zeta.
  destruct (if any_but_fragment _ then _ else _) as [s'|]; [|discriminate].
  destruct (truthy s'); [|discriminate]. intros [= <- <-]. by eexists.
Qed.

Lemma find_id_first id e : forall pre post,
  Forall (fun x => ~ has_id id x) pre -> has_id id e ->
  find_id id (pre ++ e :: post) = Some e.
Proof.
  induction pre as [|x pre IH]; intros post Hpre He; cbn [app find_id].
  - by rewrite bool_decide_true.
  - apply Forall_cons in Hpre as [Hx Hpre].
    rewrite bool_decide_false by done. by apply IH.
Qed.

Lemma find_id_none id l :
  Forall (fun x => ~ has_id id x) l -> find_id id l = None.
Proof.
  induction 1 as [|x l Hx _ IH]; [done|].
  cbn [find_id]. by rewrite bool_decide_false.
Qed.

Lemma load_style_never_fails kw f tree su :
  exists l st, load_style env kw f tree su = (l, Ok st).
Proof.
  unfold load_style. destruct (kw_parent kw) as [p|].
  - destruct (truthy_node p); by eexists _, _.
  - by eexists _, _.
Qed.

Lemma parse_input_no_stylesheets uns f bs su :
  Forall (fun ev => ev <> EvStylesheets) (parse_input env uns f bs su).1.
Proof.
  unfold parse_input. apply events_bind.
  - destruct bs as [[|b0 b]|]; try by constructor.
    all: apply events_bind; [by repeat constructor|intros; constructor].
  - intros b. apply events_bind.
    + destruct (starts_with_gzip_magic b); [|constructor].
      apply events_bind; [by repeat constructor|intros; constructor].
    + intros b'. apply events_bind; [by repeat constructor|].
      intros; constructor.
Qed.

Lemma load_document_no_stylesheets kw f bs su :
  Forall (fun ev => ev <> EvStylesheets) (load_document env kw f bs su).1.
Proof.
  unfold load_document. destruct (kw_parent kw) as [p|].
  - destruct (same_document _ _); [constructor|].
    apply parse_input_no_stylesheets.
  - apply parse_input_no_stylesheets.
Qed.

Lemma effective_root_no_stylesheets tree eid :
  Forall (fun ev => ev <> EvStylesheets) (effective_root tree eid).1.
Proof.
  unfold effective_root. destruct eid as [id|]; [|constructor].
  destruct (truthy id); [|constructor].
  apply events_bind; [by repeat constructor|].
  intros _. destruct (find_id _ _); constructor.
Qed.

End MoreLoadFacts.

Lemma root_parent_top : forall n,
  truthy_parent (parent (root_parent n)) = false.
Proof.
  fix IH 1. intros [tg a tx cs [p|] u x e st f uns r]; [|done].
  cbn [root_parent]. destruct (truthy_node p) eqn:E.
  - apply IH.
  - cbn [parent truthy_parent]. exact E.
Qed.

Lemma root_parent_idem n : root_parent (root_parent n) = root_parent n.
Proof.
  pose proof (root_parent_top n) as H.
  destruct (root_parent n) as [tg a tx cs [p|] u x e st f uns r]; [|done].
  cbn [parent truthy_parent] in H. cbn [root_parent]. by rewrite H.
Qed.

(** X14.  A call of [Tree] with no bytes, no byte source and no URL
    fails with the no-input error before anything is fetched, parsed or
    looked up, whatever the other arguments and the cache are. *)
Theorem tree_without_input_raises :
  forall env kw,
    kw_bytestring kw = None -> kw_file_obj kw = None -> kw_url kw = None ->
    Tree env kw = ([], Err NoInput).
Proof.
  intros env kw Hb Hf Hu.
  assert (Hkey : cache_key env kw = None) by (unfold cache_key; by rewrite Hu).
  unfold Tree, Tree_new. rewrite Hkey.
  assert (Hinit : Tree_init env kw = ([], Err NoInput)).
  { unfold Tree_init, resolve_input. by rewrite Hb, Hf, Hu. }
  destruct (kw_tree_cache kw) as [c|]; [|done].
  by destruct (size c =? 0)%nat.
Qed.

Lemma tree_without_input_raises_witness :
  Tree sample_env
    (mkKwargs None None None true (Some nested_node) true
       (Some sample_cache) (Some 3))
  = ([], Err NoInput).
Proof.
  by apply (tree_without_input_raises sample_env
              (mkKwargs None None None true (Some nested_node) true
                 (Some sample_cache) (Some 3))).
Defined.

Lemma Tree_new_inv env kw r :
  Tree_new env kw = Some r ->
  exists c u i cached,
    kw_tree_cache kw = Some c /\ cache_key env kw = Some (u, i)
    /\ c !! (u, i) = Some cached
    /\ r = bindR
             (Node_init env (node_element cached) (node_style cached)
                (url_fetcher cached) (kw_parent kw) false None
                (kw_unsafe kw) None)
             (fun new_tree => Ok (set_cached new_tree cached u)).
Proof.
  unfold Tree_new. destruct (kw_tree_cache kw) as [c|]; [|discriminate].
  destruct (size c =? 0)%nat; [discriminate|].
  destruct (cache_key env kw) as [[u i]|]; [|discriminate].
  destruct (c !! (u, i)) as [cached|] eqn:E; [|discriminate].
  intros [= <-]. by exists c, u, i, cached.
Qed.

(** X15.  Whichever way a call of [Tree] is answered, from the cache or
    by a load, the node it gives is marked as a root and has the parent
    and the unsafe flag of the call. *)
Theorem tree_result_is_a_root :
  forall env kw l n c,
    Tree env kw = (l, Ok (n, c)) ->
    root n = true /\ parent n = kw_parent kw /\ unsafe n = kw_unsafe kw.
Proof.
  intros env kw l n c. unfold Tree.
  destruct (Tree_new env kw) as [r|] eqn:E.
  - apply Tree_new_inv in E as (c0 & u & i & cached & _ & _ & _ & ->).
    destruct (Node_init env _ _ _ _ _ _ _ _) as [t|] eqn:Ht;
      [|discriminate].
    cbn. intros [= _ <- _].
    apply Node_init_context in Ht as (Hp & Hu & _). by repeat split.
  - intros H.
    apply Tree_init_inv in H
      as (bs & su & eid & tree & st & rt & self & l1 & l2 & l3
          & _ & _ & _ & _ & Hself & -> & _).
    apply Node_init_context in Hself as (Hp & Hu & _). by repeat split.
Qed.

Lemma tree_result_is_a_root_witness :
  root first_tree = true /\ parent first_tree = None
  /\ unsafe first_tree = false.
Proof.
  apply (tree_result_is_a_root sample_env first_load_kwargs
           first_load.1 first_tree (Some cache_after_first_load)).
  vm_compute. reflexivity.
Defined.

(** X16.  The search for the element of a fragment takes the first
    element of the document, in document order, that has the id: the
    elements before it that have another id or none are passed over, and
    a later element with the same id is not looked at. *)
Theorem fragment_search_takes_first_in_document_order :
  forall tree id pre e post,
    truthy id = true ->
    iter_subtree tree = (pre ++ e :: post)%list ->
    Forall (fun x => ~ has_id id x) pre ->
    has_id id e ->
    effective_root tree (Some id) = ([EvFragmentSearch id], Ok e).
Proof.
  intros tree id pre e post Hid Hdoc Hpre He.
  unfold effective_root. rewrite Hid, Hdoc.
  by rewrite (find_id_first id e pre post Hpre He).
Qed.

Lemma fragment_search_takes_first_in_document_order_witness :
  effective_root twice_a_document (Some "a")
  = ([EvFragmentSearch "a"], Ok (leaf 2 "rect" {[ "id" := "a" ]})).
Proof.
  apply (fragment_search_takes_first_in_document_order twice_a_document "a"
           [ twice_a_document;
             mkElement 1 "g" "" ∅ None None
               [ leaf 2 "rect" {[ "id" := "a" ]} ] ]
           (leaf 2 "rect" {[ "id" := "a" ]})
           [ leaf 3 "circle" {[ "id" := "a" ]} ]).
  - reflexivity.
  - reflexivity.
  - repeat constructor; discriminate.
  - reflexivity.
Defined.

Lemma resolve_input_fragment env kw bs su id :
  resolve_input env kw = Ok (bs, su, Some id) -> truthy id = true.
Proof.
  unfold resolve_input.
  destruct (kw_bytestring kw); [discriminate|].
  destruct (kw_file_obj kw); [discriminate|].
  destruct (kw_url kw) as [u|]; [|discriminate]. cbv zeta.
  destruct (truthy (fragment _)) eqn:E; [|discriminate].
  by intros [= _ _ <-].
Qed.

(** X17.  A load of a URL whose fragment is the id of no element of the
    document fails with the error that names the id; it does so after
    the document is loaded and the stylesheets are handled, with the
    search as its last step, and no node is built. *)
Theorem missing_fragment_fails_the_load :
  forall env kw bs su id l tree,
    resolve_input env kw = Ok (bs, su, Some id) ->
    load_document env kw (default (fetch env) (kw_url_fetcher kw)) bs su
    = (l, Ok tree) ->
    Forall (fun x => ~ has_id id x) (iter_subtree tree) ->
    (Tree_init env kw).2 = Err (NoTagWithId id)
    /\ last (Tree_init env kw).1 = Some (EvFragmentSearch id).
Proof.
  intros env kw bs su id l tree Hres Hdoc Hnone.
  pose proof (resolve_input_fragment env kw bs su id Hres) as Hid.
  unfold Tree_init. cbv zeta. rewrite Hres, bindM_liftM_Ok, Hdoc.
  cbn [bindM].
  destruct (load_style_never_fails env kw
              (default (fetch env) (kw_url_fetcher kw)) tree su)
    as (l2 & st & ->).
  cbn [bindM]. unfold effective_root. rewrite Hid.
  rewrite (find_id_none id _ Hnone). cbn.
  split; [done|]. by rewrite (assoc_L (++)%list), last_snoc.
Qed.

Lemma missing_fragment_fails_the_load_witness :
  (Tree_init sample_env missing_fragment_kwargs).2 = Err (NoTagWithId "zzz")
  /\ last (Tree_init sample_env missing_fragment_kwargs).1
     = Some (EvFragmentSearch "zzz").
Proof.
  apply (missing_fragment_fails_the_load sample_env missing_fragment_kwargs
           None (Some "doc.svg") "zzz"
           [EvFetch (mkParsedUrl "" "" "doc.svg" "" "" "") "image/svg+xml";
            EvParse true true]
           fetched_document).
  - vm_compute. reflexivity.
  - vm_compute. reflexivity.
  - repeat constructor; discriminate.
Defined.

Lemma first_event_bind {A B} (ev : event) (m : M A) (f : A -> M B) :
  (exists l r, m = (ev :: l, r)) -> exists l r, bindM m f = (ev :: l, r).
Proof.
  intros (l & [x|e] & ->); cbn [bindM]; [|by eexists _, _].
  destruct (f x) as [l' r']. by eexists _, _.
Qed.

(** X19.  An empty byte string counts as no bytes in hand: a load that
    is given one, under no parent, begins with the fetch of the URL given
    with it, through the fetch function of the call or the default one,
    and a fetch that fails is the failure of the load, before any
    parse. *)
Theorem empty_bytestring_is_fetched :
  forall env kw,
    kw_bytestring kw = Some [] ->
    kw_parent kw = None ->
    let u := parse_url env (kw_url kw) None in
    exists l r,
      Tree_init env kw = (EvFetch u "image/svg+xml" :: l, r)
      /\ forall err,
           read_url env u (default (fetch env) (kw_url_fetcher kw))
             "image/svg+xml" = Err err ->
           l = [] /\ r = Err err.
Proof.
  intros env kw Hb Hp u.
  unfold Tree_init, resolve_input. rewrite Hb. cbv zeta.
  rewrite bindM_liftM_Ok. unfold load_document. rewrite Hp.
  unfold parse_input. fold u.
  destruct (read_url env u _ _) as [b|err] eqn:E.
  - match goal with
    | |- exists l r, ?t = _ /\ _ =>
        assert (H : exists l r, t = (EvFetch u "image/svg+xml" :: l, r))
    end.
    { do 3 apply first_event_bind. by exists [], (Ok tt). }
    destruct H as (l & r & ->). exists l, r. split; [done|]. intros ? [=].
  - exists [], (Err err). split; [done|]. by intros ? [= <-].
Qed.

Lemma empty_bytestring_is_fetched_witness :
  exists l r,
    Tree_init sample_env
      (mkKwargs (Some []) None (Some "doc.svg") false None false None None)
    = (EvFetch (mkParsedUrl "" "" "doc.svg" "" "" "") "image/svg+xml" :: l,
       r)
    /\ forall err,
         read_url sample_env (mkParsedUrl "" "" "doc.svg" "" "" "") 0
           "image/svg+xml" = Err err ->
         l = [] /\ r = Err err.
Proof.
  apply (empty_bytestring_is_fetched sample_env
           (mkKwargs (Some []) None (Some "doc.svg") false None false None
              None)).
  - reflexivity.
  - reflexivity.
Defined.

(** X20.  A load under a parent that has entries takes the matchers of
    the parent: the stylesheets of the loaded document are not handled,
    and the node of the load has the matcher pair of the parent. *)
Theorem load_under_parent_takes_its_style :
  forall env kw p l n c,
    kw_parent kw = Some p ->
    truthy_node p = true ->
    Tree_init env kw = (l, Ok (n, c)) ->
    style n = style p /\ Forall (fun ev => ev <> EvStylesheets) l.
Proof.
  intros env kw p l n c Hp Ht H.
  apply Tree_init_inv in H
    as (bs & su & eid & tree & st & rt & self & l1 & l2 & l3
        & _ & Hdoc & Hst & Hroot & Hself & -> & _ & ->).
  unfold load_style in Hst. rewrite Hp, Ht in Hst.
  injection Hst as <- <-.
  apply Node_init_context in Hself as (_ & _ & _ & Hstyle & _).
  split; [exact Hstyle|].
  pose proof (load_document_no_stylesheets env kw
                (default (fetch env) (kw_url_fetcher kw)) bs su) as H1.
  pose proof (effective_root_no_stylesheets tree eid) as H3.
  rewrite Hdoc in H1. rewrite Hroot in H3.
  apply Forall_app. split; [exact H1|exact H3].
Qed.

Lemma load_under_parent_takes_its_style_witness :
  exists n,
    style n = style nested_node
    /\ Forall (fun ev => ev <> EvStylesheets)
         [EvFetch (mkParsedUrl "" "" "c.svg" "" "" "") "image/svg+xml";
          EvParse true true].
Proof.
  eexists.
  apply (load_under_parent_takes_its_style sample_env
           (mkKwargs None None (Some "c.svg") false (Some nested_node) false
              None None)
           nested_node _ _ None).
  - reflexivity.
  - vm_compute. reflexivity.
  - vm_compute. reflexivity.
Defined.

(** X21.  The walk up the parent chain ends at a node that has no
    parent, or whose parent has no entry; it stays where it is on such a
    node, so that walking again from its end changes nothing. *)
Theorem root_parent_ends_at_the_top :
  forall n,
    truthy_parent (parent (root_parent n)) = false
    /\ root_parent (root_parent n) = root_parent n
    /\ (truthy_parent (parent n) = false -> root_parent n = n).
Proof.
  intros n. split; [apply root_parent_top|]. split; [apply root_parent_idem|].
  destruct n as [tg a tx cs [p|] u x e st f uns r]; [|done].
  cbn [parent truthy_parent root_parent]. by intros ->.
Qed.

(** X22.  A load of a URL with a fragment, under no parent and with a
    cache, whose node keeps the id of the fragment as its id entry, puts
    the node in the cache under the URL without the fragment and the
    fragment; the same call made again with the cache it leaves is
    answered from that entry, without any step of a load. *)
Theorem fragment_load_is_found_again :
  forall env kw u cache l n c',
    kw_bytestring kw = None -> kw_file_obj kw = None ->
    kw_url kw = Some u -> truthy u = true ->
    kw_parent kw = None ->
    kw_tree_cache kw = Some cache ->
    truthy (fragment (parse_url env (Some u) None)) = true ->
    any_but_fragment (parse_url env (Some u) None) = true ->
    truthy (urlunparse env (without_fragment (parse_url env (Some u) None)))
    = true ->
    Tree_init env kw = (l, Ok (n, c')) ->
    attributes n !! "id" = Some (fragment (parse_url env (Some u) None)) ->
    let key := (urlunparse env (without_fragment (parse_url env (Some u) None)),
                Some (fragment (parse_url env (Some u) None))) in
    c' = Some (<[key := n]> cache)
    /\ Tree_new env (with_cache kw c')
       = Some (bindR
                 (Node_init env (element n) (style n) (url_fetcher n) None
                    false None (kw_unsafe kw) None)
                 (fun new_tree => Ok (set_cached new_tree n key.1)))
    /\ (Tree env (with_cache kw c')).1 = [].
Proof.
  intros env kw u cache l n c' Hb Hf Hu Htu Hp Hc Hfrag Hany Hurl H Hid key.
  set (parsed := parse_url env (Some u) None) in *.
  apply Tree_init_inv in H
    as (bs & su & eid & tree & st & rt & self & l1 & l2 & l3
        & Hres & _ & _ & _ & Hself & Hn & Hc' & _).
  unfold resolve_input in Hres. rewrite Hb, Hf, Hu, Hp in Hres.
  fold parsed in Hres. rewrite Hfrag, Hurl in Hres.
  injection Hres as <- <- <-.
  apply Node_init_context in Hself as (_ & _ & _ & _ & _ & _ & _ & Hsurl).
  rewrite Hp in Hsurl.
  assert (Hnu : node_url n = Some key.1) by (by rewrite Hn).
  assert (Hins : c' = Some (<[key := n]> cache)).
  { rewrite Hc', Hc. unfold cache_insert. rewrite <- Hn, Hnu.
    cbn [fst key]. rewrite Hurl. by rewrite Hid. }
  split; [exact Hins|].
  assert (Hkey : cache_key env (with_cache kw c') = Some key).
  { unfold cache_key, with_cache. cbn [kw_url kw_parent].
    rewrite Hu, Htu. cbv zeta. fold parsed. by rewrite Hany, Hurl. }
  assert (Hnew : Tree_new env (with_cache kw c')
    = Some (bindR
              (Node_init env (element n) (style n) (url_fetcher n) None
                 false None (kw_unsafe kw) None)
              (fun new_tree => Ok (set_cached new_tree n key.1)))).
  { unfold Tree_new. rewrite Hkey.
    unfold with_cache at 1. cbn [kw_tree_cache]. rewrite Hins.
    assert (Hsize : (size (<[key := n]> cache) =? 0)%nat = false).
    { apply Nat.eqb_neq. intros Hz. apply map_size_empty_inv in Hz.
      by apply insert_non_empty in Hz. }
    rewrite Hsize. destruct key as [k1 k2].
    rewrite lookup_insert_eq.
    unfold with_cache. cbn [kw_parent kw_unsafe]. by rewrite Hp. }
  split; [exact Hnew|].
  unfold Tree. rewrite Hnew.
  by destruct (bindR _ _).
Qed.

Lemma fragment_load_is_found_again_witness :
  (Tree sample_env
     (with_cache first_load_kwargs (Some cache_after_first_load))).1 = [].
Proof.
  refine (proj2 (proj2 (fragment_load_is_found_again sample_env
            first_load_kwargs "doc.svg#a" ∅ first_load.1 first_tree
            (Some cache_after_first_load)
            eq_refl eq_refl eq_refl eq_refl eq_refl eq_refl eq_refl eq_refl
            eq_refl _ _))).
  - vm_compute. reflexivity.
  - vm_compute. reflexivity.
Defined.

(** X23.  A call is never answered from an entry of the cache that was
    stored without an id: the key that is looked up always carries the
    fragment of the URL, the empty one when the URL has none, and a cache
    that holds only entries stored without an id answers no call. *)
Theorem entries_without_id_are_never_found :
  forall env kw cache,
    kw_tree_cache kw = Some cache ->
    (forall k t, cache !! k = Some t -> k.2 = None) ->
    Tree_new env kw = None /\ Tree env kw = Tree_init env kw.
Proof.
  intros env kw cache Hc Hnone.
  assert (H : Tree_new env kw = None).
  { destruct (Tree_new env kw) as [r|] eqn:E; [|done].
    apply Tree_new_inv in E as (c & u & i & cached & Hc' & Hkey & Hin & _).
    rewrite Hc in Hc'. injection Hc' as <-.
    apply cache_key_has_fragment in Hkey as [x ->].
    by apply Hnone in Hin. }
  split; [exact H|]. unfold Tree. by rewrite H.
Qed.

Lemma entries_without_id_are_never_found_witness :
  Tree_new sample_env
    (mkKwargs None None (Some "a.svg") false None false
       (Some {[ ("a.svg", None) := top_tree ]}) None)
  = None
  /\ Tree sample_env
       (mkKwargs None None (Some "a.svg") false None false
          (Some {[ ("a.svg", None) := top_tree ]}) None)
     = Tree_init sample_env
         (mkKwargs None None (Some "a.svg") false None false
            (Some {[ ("a.svg", None) := top_tree ]}) None).
Proof.
  apply (entries_without_id_are_never_found sample_env
           (mkKwargs None None (Some "a.svg") false None false
              (Some {[ ("a.svg", None) := top_tree ]}) None)
           {[ ("a.svg", None) := top_tree ]}).
  - reflexivity.
  - intros k t H. apply lookup_singleton_Some in H as [<- _]. reflexivity.
Defined.

#[local] Close Scope string_scope.

(** ** Values made of text and URL notations *)

Section UrlNotations.

Import Re.

Lemma run_app p ws tail :
  Forall (fun c => p c = true) ws ->
  match tail with c :: _ => p c = false | [] => True end ->
  take_run p (ws ++ tail) = ws /\ drop_run p (ws ++ tail) = tail.
Proof.
  intros Hws Ht. induction Hws as [|c ws Hc _ [IH1 IH2]].
  - destruct tail as [|c t]; [done|]. cbn. by rewrite Ht.
  - cbn. rewrite Hc. by rewrite IH1, IH2.
Qed.

(** A greedy run of blanks, up to a character that is no blank. *)
Lemma blanks_run {A} (k : cont A) x ws tail i g :
  Forall (fun c => isspace c = true) ws ->
  match tail with c :: _ => isspace c = false | [] => True end ->
  k (i + length ws) tail g = Some x ->
  rmatch (Star true space) i (ws ++ tail) g k = Some x.
Proof.
  intros Hws Ht Hk. cbn [rmatch]. unfold space.
  destruct (run_app isspace ws tail Hws Ht) as [H1 H2].
  apply star_chr_run; [done|]. by rewrite H1, H2.
Qed.

(** The body of a URL, up to the character that ends it. *)
Lemma url_body_loop {A} (k : cont A) x q tail g :
  q <> BACKSLASH ->
  forall m body n i,
    length body <= m -> length body <= n ->
    body_text q body ->
    k (i + length body) (q :: tail) g = Some x ->
    star_loop
      (fun i' s' g' k' =>
         rmatch (Alt (Seq (lit BACKSLASH) dot) (not_lit q)) i' s' g' k')
      true k n i (body ++ q :: tail) g
    = Some x.
Proof.
  intros Hq.
  set (step := fun i' s' g' (k' : cont A) =>
                 rmatch (Alt (Seq (lit BACKSLASH) dot) (not_lit q))
                   i' s' g' k').
  induction m as [|m IH]; intros body n i Hm Hn Hbody Hk.
  - destruct body; [|simpl in Hm; lia]. cbn [app length] in *.
    rewrite Nat.add_0_r in Hk.
    destruct n; cbn [star_loop]; [done|].
    unfold step at 1. cbn [rmatch lit dot not_lit].
    destruct (Ascii.eqb_spec BACKSLASH q) as [E|_]; [by subst|].
    rewrite Ascii.eqb_refl. cbn [negb or_else]. exact Hk.
  - destruct body as [|c body].
    { apply (IH [] n i); simpl; try lia; done. }
    destruct n as [|n]; [simpl in Hn; lia|].
    cbn [app star_loop]. unfold step at 1. cbn [rmatch lit dot not_lit].
    cbn [body_text] in Hbody.
    destruct (Ascii.eqb_spec BACKSLASH c) as [E|E].
    + subst c. rewrite Ascii.eqb_refl in Hbody.
      destruct body as [|d body]; [done|]. destruct Hbody as [Hd Hbody].
      cbn [app].
      destruct (Ascii.eqb_spec d LF) as [|_]; [done|]. cbn [negb].
      destruct (Nat.ltb_spec i (S (S i))); [|lia].
      rewrite (IH body n (S (S i))); [done| | |done|].
      * simpl in Hm. lia.
      * simpl in Hn. lia.
      * rewrite <- Hk. f_equal. simpl. lia.
    + destruct (Ascii.eqb_spec c BACKSLASH) as [|_]; [by subst|].
      destruct Hbody as [Hc Hbody]. cbn [or_else].
      destruct (Ascii.eqb_spec c q) as [|_]; [done|]. cbn [negb].
      destruct (Nat.ltb_spec i (S i)); [|lia].
      rewrite (IH body n (S i)); [done| | |done|].
      * simpl in Hm. lia.
      * simpl in Hn. lia.
      * rewrite <- Hk. f_equal. simpl. lia.
Qed.

Lemma url_body_run {A} (k : cont A) x q body tail i g :
  q <> BACKSLASH ->
  body_text q body ->
  k (i + length body) (q :: tail) g = Some x ->
  rmatch (url_body q) i (body ++ q :: tail) g k = Some x.
Proof.
  intros Hq Hbody Hk. unfold url_body. cbn [rmatch].
  apply (url_body_loop k x q tail g Hq (length body)); try done.
  rewrite length_app. lia.
Qed.

Lemma lit_here {A} (k : cont A) c i s g :
  rmatch (lit c) i (c :: s) g k = k (S i) s g.
Proof. cbn [rmatch lit]. by rewrite Ascii.eqb_refl. Qed.

Lemma lit_miss {A} (k : cont A) c d i s g :
  c <> d -> rmatch (lit c) i (d :: s) g k = None.
Proof.
  intros H. cbn [rmatch lit]. by destruct (Ascii.eqb_spec c d).
Qed.

Lemma isspace_closers :
  isspace QUOTE = false /\ isspace APOS = false /\ isspace RPAREN = false.
Proof. by vm_compute. Qed.

(** The end of a notation: the blanks and the closing parenthesis. *)
Lemma notation_end {A} (k : cont A) x ws rest i g :
  Forall (fun c => isspace c = true) ws ->
  k (i + length ws + 1) rest g = Some x ->
  rmatch (Seq (Star true space) (lit RPAREN)) i (ws ++ RPAREN :: rest) g k
  = Some x.
Proof.
  intros Hws Hk. rewrite rmatch_Seq.
  apply blanks_run; [done|apply isspace_closers|].
  rewrite lit_here. rewrite <- Hk. f_equal. lia.
Qed.

(** A quoted URL and what follows it in the notation. *)
Lemma quoted_url {A} (k : cont A) x q body ws rest i g :
  q <> BACKSLASH ->
  body_text q body ->
  Forall (fun c => isspace c = true) ws ->
  k (i + length body + length ws + 3) rest g = Some x ->
  rmatch
    (Seq (Seq (lit q) (Seq (url_body q) (lit q)))
       (Seq (Star true space) (lit RPAREN)))
    i (q :: body ++ q :: ws ++ RPAREN :: rest) g k
  = Some x.
Proof.
  intros Hq Hbody Hws Hk. rewrite !rmatch_Seq, lit_here.
  apply url_body_run; [done..|]. rewrite lit_here.
  apply notation_end; [done|]. rewrite <- Hk. f_equal. lia.
Qed.

Lemma closers_not_backslash :
  QUOTE <> BACKSLASH /\ APOS <> BACKSLASH /\ RPAREN <> BACKSLASH
  /\ QUOTE <> APOS.
Proof. repeat split; by vm_compute. Qed.

Lemma nocase_here {A} (k : cont A) c d i s g :
  lower_char c = lower_char d ->
  rmatch (lit_nocase d) i (c :: s) g k = k (S i) s g.
Proof.
  intros H. cbn [rmatch lit_nocase]. by rewrite H, Ascii.eqb_refl.
Qed.

Lemma rmatch_Alt {A} r1 r2 i s g (k : cont A) :
  rmatch (Alt r1 r2) i s g k
  = or_else (rmatch r1 i s g k) (rmatch r2 i s g k).
Proof. reflexivity. Qed.

(** A notation that is well formed is matched as a whole, whatever
    follows it. *)
Lemma url_notation_match {A} (k : cont A) x n rest i g :
  well_formed_notation n ->
  k (i + length (notation_chars n)) rest g = Some x ->
  rmatch url_notation i (notation_chars n ++ rest) g k = Some x.
Proof.
  destruct n as [fn ws1 f body ws2].
  intros (Hfn & Hws1 & Hws2 & Hbody & Hbare). unfold notation_chars.
  cbn [un_name un_blanks_before un_form un_body un_blanks_after] in *.
  destruct fn as [|c1 [|c2 [|c3 [|c4 fn]]]]; try discriminate.
  injection Hfn as H1 H2 H3.
  intros Hk. unfold url_notation.
  rewrite <- !app_assoc. cbn [app]. rewrite <- !app_assoc.
  rewrite rmatch_Seq, nocase_here by (by rewrite H1).
  rewrite rmatch_Seq, nocase_here by (by rewrite H2).
  rewrite rmatch_Seq, nocase_here by (by rewrite H3).
  rewrite rmatch_Seq, lit_here. rewrite rmatch_Seq.
  destruct closers_not_backslash as (Hq & Ha & Hp & Hqa).
  destruct isspace_closers as (Sq & Sa & Sp).
  assert (Hlen : forall (inner : list ascii),
            length ([c1; c2; c3] ++ LPAREN :: ws1 ++ inner ++ ws2 ++ [RPAREN])
            = 4 + length ws1 + length inner + length ws2 + 1).
  { intros inner. rewrite !length_app. cbn [length]. rewrite !length_app.
    cbn [length]. lia. }
  rewrite Hlen in Hk.
  destruct f; cbn [url_inner url_closer] in *.
  - apply blanks_run; [done|by cbn|].
    cbn [app]. rewrite <- app_assoc. cbn [app].
    rewrite rmatch_Seq, rmatch_Alt, <- rmatch_Seq.
    rewrite (quoted_url k x QUOTE body ws2 rest); [done..|].
    rewrite <- Hk. f_equal.
    cbn [length]. rewrite length_app. cbn [length]. lia.
  - apply blanks_run; [done|by cbn|].
    cbn [app]. rewrite <- app_assoc. cbn [app].
    rewrite rmatch_Seq, rmatch_Alt.
    rewrite (rmatch_Seq (lit QUOTE)), (lit_miss _ QUOTE APOS) by done.
    cbn [or_else]. rewrite rmatch_Alt, <- rmatch_Seq.
    rewrite (quoted_url k x APOS body ws2 rest); [done..|].
    rewrite <- Hk. f_equal.
    cbn [length]. rewrite length_app. cbn [length]. lia.
  - destruct (Hbare eq_refl) as [-> Hstart]. cbn [app] in *.
    apply blanks_run; [done| |].
    { destruct body; cbn in *; [done|]. by destruct Hstart. }
    assert (Hno : forall (K : cont A) q' j, q' = QUOTE \/ q' = APOS ->
              rmatch (Seq (lit q') (Seq (url_body q') (lit q'))) j
                (body ++ RPAREN :: rest) g K = None).
    { intros K q' j Hq'. rewrite rmatch_Seq.
      destruct body as [|c body]; cbn [app].
      - apply lit_miss. destruct Hq' as [-> | ->]; by vm_compute.
      - apply lit_miss. cbn in Hstart.
        destruct Hstart as (_ & ? & ?). destruct Hq' as [-> | ->]; congruence. }
    rewrite rmatch_Seq, rmatch_Alt, Hno by auto. cbn [or_else].
    rewrite rmatch_Alt, Hno by auto. cbn [or_else].
    apply url_body_run; [done..|].
    apply (notation_end k x [] rest); [constructor|].
    rewrite <- Hk. f_equal. cbn [length]. lia.
Qed.

(** The notation needs its opening parenthesis at the fourth place. *)
Lemma url_notation_needs_fourth {A} i s g (k : cont A) :
  (forall c, s !! 3 = Some c -> c <> LPAREN) ->
  rmatch url_notation i s g k = None.
Proof.
  intros Hs. unfold url_notation. rewrite !rmatch_Seq.
  unfold lit_nocase, lit.
  destruct s as [|c1 s]; [done|]. cbn [rmatch].
  destruct (Ascii.eqb (lower_char c1) _); [|done].
  destruct s as [|c2 s]; [done|]. cbn [rmatch].
  destruct (Ascii.eqb (lower_char c2) _); [|done].
  destruct s as [|c3 s]; [done|]. cbn [rmatch].
  destruct (Ascii.eqb (lower_char c3) _); [|done].
  destruct s as [|c4 s]; [done|]. cbn [rmatch].
  specialize (Hs c4 eq_refl).
  destruct (Ascii.eqb_spec LPAREN c4); [by subst|done].
Qed.

(** The lazy run of the non-URL part goes on until what follows it
    matches. *)
Lemma lazy_dots_until {A} (K : cont A) x tail : forall a n i,
  Forall (fun c => c <> LF) a ->
  (forall j, j < length a -> K (i + j) (drop j a ++ tail) [] = None) ->
  K (i + length a) tail [] = Some x ->
  length a <= n ->
  star_loop (fun i' s' g' k' => rmatch dot i' s' g' k') false K n i
    (a ++ tail) []
  = Some x.
Proof.
  induction a as [|c a IH]; intros n i Ha Hbefore Hhere Hn.
  - cbn [app length] in *. rewrite Nat.add_0_r in Hhere.
    destruct n; cbn [star_loop]; [done|]. by rewrite Hhere.
  - destruct n as [|n]; [simpl in Hn; lia|]. cbn [app star_loop].
    pose proof (Hbefore 0) as H0. rewrite Nat.add_0_r in H0.
    cbn [drop app length] in H0. rewrite H0 by lia. cbn [or_else].
    apply Forall_cons in Ha as [Hc Ha].
    cbn [rmatch dot not_lit].
    destruct (Ascii.eqb_spec c LF); [done|]. cbn [negb].
    destruct (Nat.ltb_spec i (S i)); [|lia].
    apply IH; [done| | |simpl in Hn; lia].
    + intros j Hj. specialize (Hbefore (S j)).
      cbn [drop length] in Hbefore.
      replace (S i + j) with (i + S j) by lia. apply Hbefore. lia.
    + rewrite <- Hhere. f_equal. simpl. lia.
Qed.

Lemma notation_chars_start n :
  well_formed_notation n ->
  exists c1 c2 c3 t,
    notation_chars n = c1 :: c2 :: c3 :: LPAREN :: t
    /\ c1 <> LPAREN /\ c2 <> LPAREN /\ c3 <> LPAREN.
Proof.
  destruct n as [fn ws1 f body ws2]. intros (Hfn & _).
  unfold notation_chars. cbn [un_name] in *.
  destruct fn as [|c1 [|c2 [|c3 [|c4 fn]]]]; try discriminate.
  injection Hfn as H1 H2 H3. eexists c1, c2, c3, _.
  split; [reflexivity|].
  repeat split; intros ->; by vm_compute in H1, H2, H3.
Qed.

Lemma rmatch_Star {A} gr r i s g (k : cont A) :
  rmatch (Star gr r) i s g k
  = star_loop (fun i' s' g' k' => rmatch r i' s' g' k') gr k (length s)
      i s g.
Proof. reflexivity. Qed.

(** The first match in a text that is followed by a notation: the text
    is its group 1 and the notation ends it. *)
Lemma match_at_piece adv i a n rest :
  Forall plain_char a -> well_formed_notation n ->
  match_at regex_style adv i (a ++ notation_chars n ++ rest)
  = Some (mkMatch i (i + length a + length (notation_chars n))
            [(1, (i, i + length a))]).
Proof.
  intros Ha Hn. unfold match_at, regex_style.
  rewrite rmatch_Seq, rmatch_Group, rmatch_Star.
  destruct (notation_chars_start n Hn) as (c1 & c2 & c3 & t & Hnc & N1 & N2 & N3).
  apply lazy_dots_until.
  - eapply Forall_impl; [exact Ha|]. by intros c [? _].
  - intros j Hj. cbv beta. rewrite rmatch_Alt.
    rewrite url_notation_needs_fourth.
    + cbn [or_else rmatch].
      destruct (drop j a) as [|d [|d' l]] eqn:E.
      * apply (f_equal length) in E. rewrite length_drop in E.
        simpl in E. lia.
      * rewrite Hnc. reflexivity.
      * reflexivity.
    + intros c Hc. rewrite Hnc in Hc.
      assert (Hd : Forall plain_char (drop j a)) by (by apply Forall_drop).
      destruct (drop j a) as [|d0 [|d1 [|d2 [|d3 l]]]] eqn:E;
        cbn in Hc; injection Hc as <-; try done.
      * apply (f_equal length) in E. rewrite length_drop in E.
        simpl in E. lia.
      * do 3 apply Forall_inv_tail in Hd. apply Forall_inv in Hd.
        by destruct Hd.
  - cbv beta. rewrite rmatch_Alt.
    rewrite (url_notation_match _
               (mkMatch i (i + length a + length (notation_chars n))
                  [(1, (i, i + length a))])); [done..|].
    rewrite advance_ok; [done|]. rewrite Hnc. simpl. lia.
  - rewrite length_app. lia.
Qed.

Lemma search_hit r adv i s m :
  match_at r adv i s = Some m -> search r adv i s = Some m.
Proof. intros H. destruct s; cbn [search]; by rewrite H. Qed.

Lemma notation_chars_length n :
  well_formed_notation n -> 0 < length (notation_chars n).
Proof.
  intros Hn. destruct (notation_chars_start n Hn) as (? & ? & ? & ? & -> & _).
  simpl. lia.
Qed.

(** The scan of a text that is followed by a notation. *)
Lemma scan_piece fuel i a n rest :
  Forall plain_char a -> well_formed_notation n ->
  scan (S fuel) regex_style false i (a ++ notation_chars n ++ rest)
  = mkMatch i (i + length a + length (notation_chars n))
      [(1, (i, i + length a))]
    :: scan fuel regex_style false
         (i + length a + length (notation_chars n)) rest.
Proof.
  intros Ha Hn. pose proof (notation_chars_length n Hn) as Hlen.
  cbn [scan].
  rewrite (search_hit _ _ _ _ _ (match_at_piece false i a n rest Ha Hn)).
  cbn [m_end m_start]. f_equal.
  replace (i + length a + length (notation_chars n) =? i) with false
    by (symmetry; apply Nat.eqb_neq; lia).
  f_equal. rewrite app_assoc. apply drop_app_length'.
  rewrite length_app. lia.
Qed.

Lemma normalize_url_chars_covered s :
  normalize_url_chars s = lower_covered (finditer regex_style s) 0 s.
Proof.
  apply list_eq. intros j. rewrite normalize_url_chars_spec.
  unfold lower_covered, lowered_position. rewrite list_lookup_imap.
  cbn [Nat.add]. destruct (s !! j); cbn [fmap option_fmap option_map];
    by destruct (existsb _ _).
Qed.

Lemma imap_lower (l : list ascii) :
  imap (fun _ c => lower_char c) l = lower_chars l.
Proof. apply (imap_const lower_char). Qed.

Lemma imap_same (l : list ascii) : imap (fun _ c => c) l = l.
Proof. rewrite (imap_const id). apply list_fmap_id. Qed.

(** The scan of a value made of text and notations lowers the text and
    nothing else. *)
Lemma covered_pieces : forall pieces fuel i last,
  Forall (fun p => Forall plain_char p.1 /\ well_formed_notation p.2)
    pieces ->
  Forall plain_char last ->
  length pieces < fuel ->
  lower_covered (scan fuel regex_style false i (value_chars pieces last)) i
    (value_chars pieces last)
  = lowered_value_chars pieces last.
Proof.
  induction pieces as [|[a n] pieces IH]; intros fuel i last Hps Hlast Hfuel.
  - unfold value_chars, lowered_value_chars. cbn [flat_map app].
    destruct fuel as [|fuel]; [simpl in Hfuel; lia|]. cbn [scan].
    rewrite (search_hit _ _ _ _ _
               (match_at_plain false i last Hlast (or_introl eq_refl))).
    unfold lower_covered. rewrite <- imap_lower. apply imap_ext.
    intros j c Hj. apply lookup_lt_Some in Hj.
    cbn [existsb]. unfold in_non_url_part at 1.
    cbn [m_groups group_span Nat.eqb].
    destruct (Nat.leb_spec i (i + j)); [|lia].
    destruct (Nat.ltb_spec (i + j) (i + length last)); [done|lia].
  - apply Forall_cons in Hps as [[Ha Hn] Hps]. cbn [fst snd] in *.
    destruct fuel as [|fuel]; [simpl in Hfuel; lia|].
    unfold value_chars, lowered_value_chars. cbn [flat_map fst snd].
    rewrite <- !app_assoc.
    fold (value_chars pieces last). fold (lowered_value_chars pieces last).
    set (rest := value_chars pieces last).
    rewrite scan_piece by done.
    set (m := mkMatch i (i + length a + length (notation_chars n))
                [(1, (i, i + length a))]).
    set (e := i + length a + length (notation_chars n)).
    set (ms := scan fuel regex_style false e rest).
    assert (Hm : forall j, in_non_url_part j m
                           = (i <=? j) && (j <? i + length a)) by done.
    assert (Hms : forall j, j < e -> existsb (in_non_url_part j) ms = false).
    { intros j Hj.
      apply (later_matches_do_not_cover (e + length rest) e ms j);
        [apply scan_chained|apply scan_matched|done]. }
    unfold lower_covered. rewrite !imap_app. f_equal; [|f_equal].
    + rewrite <- imap_lower. apply imap_ext. intros j c Hj.
      apply lookup_lt_Some in Hj. cbn [existsb]. rewrite Hm.
      destruct (Nat.leb_spec i (i + j)); [|lia].
      destruct (Nat.ltb_spec (i + j) (i + length a)); [done|lia].
    + rewrite <- (imap_same (notation_chars n)) at 2. apply imap_ext.
      intros j c Hj. apply lookup_lt_Some in Hj. cbn [existsb].
      rewrite Hm, Hms by (unfold e; lia).
      destruct (Nat.ltb_spec (i + (length a + j)) (i + length a)); [lia|].
      by rewrite andb_false_r.
    + rewrite <- (IH fuel e last) by (done || simpl in Hfuel; lia).
      fold rest. fold ms. unfold lower_covered. apply imap_ext.
      intros j c Hj. cbn [existsb]. rewrite Hm.
      destruct (Nat.ltb_spec
                  (i + (length a + (length (notation_chars n) + j)))
                  (i + length a)); [lia|].
      rewrite andb_false_r. cbn [orb].
      by replace (i + (length a + (length (notation_chars n) + j)))
        with (e + j) by (unfold e; lia).
Qed.

Lemma value_chars_length pieces last :
  Forall (fun p => well_formed_notation p.2) pieces ->
  length pieces <= length (value_chars pieces last).
Proof.
  induction 1 as [|[a n] pieces Hn _ IH]; [simpl; lia|].
  unfold value_chars in *. cbn [flat_map fst snd length].
  rewrite <- !app_assoc, !length_app.
  pose proof (notation_chars_length n Hn). rewrite length_app in IH. lia.
Qed.

(** In a value made of text without newline and opening parenthesis
    and of well-formed notations, the URL method lowers the text and
    leaves the notations as they are written. *)
Lemma normalize_url_chars_pieces pieces last :
  Forall (fun p => Forall plain_char p.1 /\ well_formed_notation p.2)
    pieces ->
  Forall plain_char last ->
  normalize_url_chars (value_chars pieces last)
  = lowered_value_chars pieces last.
Proof.
  intros Hps Hlast. rewrite normalize_url_chars_covered. unfold finditer.
  apply covered_pieces; [done..|].
  assert (H : Forall (fun p => well_formed_notation p.2) pieces).
  { eapply Forall_impl; [exact Hps|]. by intros p [_ ?]. }
  pose proof (value_chars_length pieces last H). lia.
Qed.

End UrlNotations.

#[local] Open Scope string_scope.

(** C6 (as amended).  Strings are sequences of code points below 256,
    on which lowering keeps the length of a text.  For a URL-bearing
    property the normaliser lowers the name, strips the value and lowers
    exactly the characters that the pattern captures as non-URL part,
    before a [url(...)] notation or before the end of the value; every
    other character stays as written.  In a value made of pieces of text
    without newline and opening parenthesis, each followed by a notation
    in the double-quoted, the single-quoted or the bare form, with
    escaped characters in its body, and of a last piece of text, the
    text is lowered and every notation, its function name included,
    stays as it is written.  The pair FILL, URL(Foo.PNG) gives fill,
    URL(Foo.PNG); FILL with RED URL(Foo.PNG) gives fill with
    red URL(Foo.PNG); a quoted URL keeps a closing parenthesis and an
    escaped quote that it holds, a bare URL an escaped parenthesis. *)
Theorem url_notations_are_left_as_written :
  (forall name value : string,
     In (lower (strip name)) URL_PROPERTIES ->
     normalize_style_declaration name value
     = (lower (strip name), normalize_url_style_declaration (strip value))
     /\ forall i,
          chars (normalize_url_style_declaration (strip value)) !! i
          = if lowered_position (chars (strip value)) i
            then lower_char <$> chars (strip value) !! i
            else chars (strip value) !! i)
  /\ (forall pieces last,
        Forall (fun p => Forall plain_char p.1 /\ well_formed_notation p.2)
          pieces ->
        Forall plain_char last ->
        normalize_url_style_declaration (str (value_chars pieces last))
        = str (lowered_value_chars pieces last))
  /\ normalize_style_declaration "FILL" "URL(Foo.PNG)"
     = ("fill", "URL(Foo.PNG)")
  /\ normalize_style_declaration "FILL" "RED URL(Foo.PNG)"
     = ("fill", "red URL(Foo.PNG)")
  /\ normalize_url_style_declaration
       (str (chars "RED url( " ++ QUOTE :: chars "A)" ++ BACKSLASH :: QUOTE
               :: chars "B" ++ QUOTE :: chars " ) X"))%list
     = str (chars "red url( " ++ QUOTE :: chars "A)" ++ BACKSLASH :: QUOTE
              :: chars "B" ++ QUOTE :: chars " ) x")%list
  /\ normalize_url_style_declaration
       (str (chars "RED URL(" ++ APOS :: chars "A)" ++ BACKSLASH :: APOS
               :: chars "B" ++ APOS :: chars ") X"))%list
     = str (chars "red URL(" ++ APOS :: chars "A)" ++ BACKSLASH :: APOS
              :: chars "B" ++ APOS :: chars ") x")%list
  /\ normalize_url_style_declaration
       (str (chars "RED Url(A" ++ BACKSLASH :: chars ")B) X"))%list
     = str (chars "red Url(A" ++ BACKSLASH :: chars ")B) x")%list.
Proof.
  split; [|split; [|repeat split; vm_compute; reflexivity]].
  - intros name value Hin. split.
    + unfold normalize_style_declaration.
      by rewrite (url_property_method _ Hin).
    + intros i. unfold normalize_url_style_declaration.
      rewrite chars_str. apply normalize_url_chars_spec.
  - intros pieces last Hpieces Hlast.
    unfold normalize_url_style_declaration. rewrite chars_str.
    by rewrite normalize_url_chars_pieces.
Qed.

Lemma url_notations_are_left_as_written_witness :
  normalize_url_style_declaration
    (str (value_chars
            [ (chars "RED ",
               mkUrlNotation (chars "URL") [SP] DoubleQuoted
                 (chars "Foo.PNG") []);
              (chars " Or ",
               mkUrlNotation (chars "url") [] Bare (chars "B.png ") []) ]
            (chars " NONE")))
  = "red URL( " ++ String QUOTE ("Foo.PNG" ++ String QUOTE ")")
      ++ " or url(B.png ) none".
Proof.
  rewrite (proj1 (proj2 url_notations_are_left_as_written)).
  - vm_compute. reflexivity.
  - repeat constructor; try discriminate; try (by vm_compute).
  - repeat constructor; discriminate.
Defined.

(** ** The document of the parent, and cached trees *)






Section CachedTrees.

Variable env : Collaborators.




End CachedTrees.




(** ** Zipped bytes *)

(** X18.  A load that the cache does not answer and that does not take
    its document from the parent, given bytes that begin with the two
    bytes of the gzip magic number, fetches nothing and decompresses the
    bytes once: the result is parsed even when it begins with the magic
    number itself, with entities and external references forbidden
    unless the load is unsafe, and a failure of the decompression is the
    failure of the load, before any parse.  Bytes that are not empty and
    do not begin so are parsed as they are.  The node is built from the
    root of the parsed document. *)
Theorem zipped_bytes_in_hand_are_unzipped_once :
  forall env kw b,
    kw_bytestring kw = Some b ->
    b <> [] ->
    Tree_new env kw = None ->
    same_document (kw_parent kw) (kw_url kw) = false ->
    let f := default (fetch env) (kw_url_fetcher kw) in
    let uns := kw_unsafe kw in
    let parsed : M Element :=
      if starts_with_gzip_magic b then
        match gzip_decompress env b with
        | Ok b' =>
            ([EvGunzip; EvParse (negb uns) (negb uns)],
             fromstring env b' (negb uns) (negb uns))
        | Err err => ([EvGunzip], Err err)
        end
      else ([EvParse (negb uns) (negb uns)],
            fromstring env b (negb uns) (negb uns)) in
    (forall rest,
       b = Byte.x1f :: Byte.x8b :: rest -> starts_with_gzip_magic b = true)
    /\ Tree env kw
       = (tree <- parsed ;;
          style <- load_style env kw f tree (kw_url kw) ;;
          self <- liftM (Node_init env tree style f (kw_parent kw)
                           (kw_parent_children kw) (kw_url kw) uns
                           (kw_url kw)) ;;
          retM (set_root self,
                cache_insert (kw_tree_cache kw) (set_root self)))%load.
Proof.
  intros env kw b Hb Hne Hnew Hsame f uns parsed.
  split; [by intros rest ->|].
  unfold Tree. rewrite Hnew. unfold Tree_init, resolve_input.
  rewrite Hb. cbv zeta. rewrite bindM_liftM_Ok.
  assert (Hdoc : load_document env kw f (Some b) (kw_url kw) = parsed).
  { unfold load_document.
    assert (Hin : parse_input env (kw_unsafe kw) f (Some b) (kw_url kw)
                  = parsed).
    { unfold parse_input, parsed, uns. destruct b as [|b0 b]; [done|].
      rewrite bindM_retM.
      destruct (starts_with_gzip_magic (b0 :: b)).
      - destruct (gzip_decompress env (b0 :: b)) as [b'|err]; [|done].
        cbn. by destruct (fromstring env b' _ _).
      - rewrite bindM_retM. cbn. by destruct (fromstring env _ _ _). }
    destruct (kw_parent kw) as [p|]; [|exact Hin].
    by rewrite Hsame. }
  fold f. rewrite Hdoc.
  destruct parsed as [l [tree|err]]; [|done]. cbn [bindM].
  destruct (load_style env kw f tree (kw_url kw)) as [l2 [st|err]]; [|done].
  cbn [bindM]. change (effective_root tree None) with (@retM Element tree).
  by rewrite bindM_retM.
Qed.

Lemma zipped_bytes_in_hand_are_unzipped_once_witness :
  starts_with_gzip_magic zipped_bytes = true
  /\ (Tree sample_env zipped_load_kwargs).1
     = [EvGunzip; EvParse true true; EvStylesheets].
Proof.
  destruct (zipped_bytes_in_hand_are_unzipped_once sample_env
              zipped_load_kwargs zipped_bytes)
    as [H1 H2]; try reflexivity; [discriminate|].
  split; [exact (H1 [Byte.x08] eq_refl)|].
  rewrite H2. vm_compute. reflexivity.
Defined.
